(** * s3-bucket-browser: the metadata indexing, query and push-hub core

    A shallow embedding of the Go backend (package [api]: the handlers and
    the hub; package [s3]: the object classification; package [cache]: the
    Redis cache port; package [config]: the loader) and of the paging of the
    frontend's file list, together with the properties the specification
    states about it and further properties read off the code.

    Conventions.
    - Go's [int] and [int64] are 64-bit two's complement integers: they are
      [Z] values, and every arithmetic result goes through [wrap64].  Go's
      integer division [/] truncates towards zero: it is [Z.quot].
    - A Go [string] is a sequence of bytes: it is a [string] (a list of
      [ascii], one per byte).  Go's [<] on strings is the byte-wise
      lexicographic order, [String.ltb].
    - A Go [map[string]bool] used as a set is a [gset string].
    - A [time.Time] is the number of nanoseconds since the zero instant
      (January 1, year 1, 00:00:00 UTC), so that [IsZero] is a test against 0. *)

From Stdlib Require Import ZArith List String Ascii Bool Lia.
From Stdlib Require Import Permutation Sorted DecimalString DecimalPos.
From stdpp Require Import gmap strings list fin_maps sorting.

Local Open Scope string_scope.
Local Open Scope Z_scope.

(** ** Machine integers *)

Definition min_int64 : Z := - 2 ^ 63.
Definition max_int64 : Z := 2 ^ 63 - 1.

(** Two's complement wrap-around of a mathematical integer to 64 bits. *)
Definition wrap64 (z : Z) : Z := (z + 2 ^ 63) mod 2 ^ 64 - 2 ^ 63.

Definition in_int64 (z : Z) : Prop := min_int64 <= z <= max_int64.

Definition in_int64b (z : Z) : bool := (min_int64 <=? z) && (z <=? max_int64).

(** ** Bytes and the [strconv] functions the handlers use *)

Definition isDigit (c : ascii) : bool :=
  let n := nat_of_ascii c in (Nat.leb 48 n) && (Nat.leb n 57).

Definition isUpper (c : ascii) : bool :=
  let n := nat_of_ascii c in (Nat.leb 65 n) && (Nat.leb n 90).

Definition isLower (c : ascii) : bool :=
  let n := nat_of_ascii c in (Nat.leb 97 n) && (Nat.leb n 122).

(** The character class [[A-Za-z0-9]]. *)
Definition isAlnum (c : ascii) : bool := isUpper c || isLower c || isDigit c.

Definition digitVal (c : ascii) : Z := Z.of_nat (nat_of_ascii c) - 48.

(** The value of a run of decimal digits, most significant first. *)
Fixpoint digitsValueFrom (acc : Z) (ds : list ascii) : Z :=
  match ds with
  | [] => acc
  | d :: ds' => digitsValueFrom (acc * 10 + digitVal d) ds'
  end.

Definition digitsValue (ds : list ascii) : Z := digitsValueFrom 0 ds.

(** [strconv.ParseInt(s, 10, 64)]: an optional sign, then one or more decimal
    digits; the value must fit in an int64.  The result is Go's pair: the
    value and whether [err] is nil.  On a syntax error the value is 0, on a
    range error it is the int64 of largest magnitude with the sign read. *)
Definition parseSigned (neg : bool) (body : list ascii) : Z * bool :=
  match body with
  | [] => (0, false)
  | _ :: _ =>
      if forallb isDigit body then
        let v := digitsValue body in
        let n := if neg then - v else v in
        if in_int64b n then (n, true)
        else (if neg then min_int64 else max_int64, false)
      else (0, false)
  end.

Definition ParseIntBytes (s : list ascii) : Z * bool :=
  match s with
  | [] => (0, false)
  | c :: r =>
      if Ascii.eqb c "+" then parseSigned false r
      else if Ascii.eqb c "-" then parseSigned true r
      else parseSigned false s
  end.

(** The same call seen as a partial function: [None] is a non-nil [err]. *)
Definition ParseInt (s : string) : option Z :=
  let '(n, ok) := ParseIntBytes (list_ascii_of_string s) in
  if ok then Some n else None.

(** [strconv.Atoi]: [ParseInt(s, 10, 0)] at the platform's 64-bit [int]. *)
Definition Atoi (s : string) : option Z := ParseInt s.

(** [n, _ = strconv.Atoi(s)]: the value alone, the error dropped. *)
Definition AtoiValue (s : string) : Z :=
  fst (ParseIntBytes (list_ascii_of_string s)).

(** [strconv.FormatInt(n, 10)]: decimal digits, a leading [-] when negative. *)
Definition FormatInt (n : Z) : string := NilZero.string_of_int (Z.to_int n).

(** ** Slot ranges (package [api], [getSlotRange]) *)

Definition getSlotRange (slot : Z) : string :=
  let rangeSize := 1000000 in
  let rangeStart := wrap64 (wrap64 (Z.quot slot rangeSize) * rangeSize) in
  let rangeEnd := wrap64 (rangeStart + rangeSize) in
  if rangeStart =? 0 then "< 1M"
  else FormatInt (Z.quot rangeStart 1000000) +:+ "M-"
       +:+ FormatInt (Z.quot rangeEnd 1000000) +:+ "M".

(** ** The [strings] functions the handlers use *)

(** [strings.ToLower] on the ASCII letters.  Go also lowers the letters of
    other scripts; bytes outside [A-Z] are left as they are here. *)
Definition lowerByte (c : ascii) : ascii :=
  if isUpper c then ascii_of_nat (nat_of_ascii c + 32) else c.

Fixpoint ToLower (s : string) : string :=
  match s with
  | EmptyString => EmptyString
  | String c s' => String (lowerByte c) (ToLower s')
  end.

(** [strings.Contains(s, substr)]: [substr] occurs at some offset of [s]. *)
Fixpoint Contains (s substr : string) : bool :=
  if String.prefix substr s then true
  else match s with
       | EmptyString => false
       | String _ s' => Contains s' substr
       end.

(** [strings.HasSuffix(s, suffix)]: some tail of [s] is [suffix]. *)
Fixpoint HasSuffix (s suffix : string) : bool :=
  if String.eqb s suffix then true
  else match s with
       | EmptyString => false
       | String _ s' => HasSuffix s' suffix
       end.

(** [strings.Split(s, sep)] for a one-byte separator: the pieces between the
    separators, always at least one piece. *)
Fixpoint splitBytes (sep : ascii) (s : list ascii) : list (list ascii) :=
  match s with
  | [] => [[]]
  | c :: s' =>
      if Ascii.eqb c sep then [] :: splitBytes sep s'
      else match splitBytes sep s' with
           | [] => [[c]]
           | w :: ws => (c :: w) :: ws
           end
  end.

Definition Split (s : string) (sep : ascii) : list string :=
  map string_of_list_ascii (splitBytes sep (list_ascii_of_string s)).

(** The longest prefix of bytes in a class, and what follows it: how a
    greedy [c+] of the regexp engine consumes its input when the byte after
    the run is outside the class. *)
Fixpoint span (p : ascii -> bool) (s : list ascii) : list ascii * list ascii :=
  match s with
  | [] => ([], [])
  | c :: s' =>
      if p c then let '(run, rest) := span p s' in (c :: run, rest)
      else ([], s)
  end.

(** Drop a literal from the front of the input, if it is there. *)
Fixpoint stripPrefix (lit s : list ascii) : option (list ascii) :=
  match lit, s with
  | [] , _ => Some s
  | _ :: _, [] => None
  | a :: lit', c :: s' => if Ascii.eqb a c then stripPrefix lit' s' else None
  end.

(** ** The sidecar naming convention (package [api]) *)

Definition bytesOf (s : string) : list ascii := list_ascii_of_string s.

(** [snapshotRegex = snapshot-(\d+)-([A-Za-z0-9]+)\.json$], tried at the front
    of the input.  The byte after [\d+] must be [-] and the byte after
    [[A-Za-z0-9]+] must be [.], both outside the class before them, so the
    only run the engine can keep is the longest one; [$] is the end of the
    text.  The result is the pair of capture groups. *)
Definition snapshotRegex_matchHere (s : list ascii)
  : option (list ascii * list ascii) :=
  match stripPrefix (bytesOf "snapshot-") s with
  | None => None
  | Some r0 =>
      let '(ds, r1) := span isDigit r0 in
      match ds, r1 with
      | _ :: _, "-"%char :: r2 =>
          let '(nd, r3) := span isAlnum r2 in
          match nd, stripPrefix (bytesOf ".json") r3 with
          | _ :: _, Some [] => Some (ds, nd)
          | _, _ => None
          end
      | _, _ => None
      end
  end.

(** The pattern has no [^]: the engine tries every offset, leftmost first.
    The result is Go's [matches] slice: the whole match and the two groups,
    or nil. *)
Fixpoint findSubmatchBytes (s : list ascii) : list (list ascii) :=
  match snapshotRegex_matchHere s with
  | Some (ds, nd) => [s; ds; nd]
  | None =>
      match s with
      | [] => []
      | _ :: s' => findSubmatchBytes s'
      end
  end.

Definition snapshotRegex_FindStringSubmatch (key : string) : list string :=
  map string_of_list_ascii (findSubmatchBytes (bytesOf key)).

Definition snapshotRegex_MatchString (key : string) : bool :=
  match findSubmatchBytes (bytesOf key) with
  | [] => false
  | _ :: _ => true
  end.

Definition isSnapshotMetadataFile (key : string) : bool :=
  snapshotRegex_MatchString key.

Definition extractSlotAndNode (key : string) : Z * string :=
  let matches := snapshotRegex_FindStringSubmatch key in
  if (length matches <? 3)%nat then (0, "")
  else
    match ParseInt (nth 1 matches "") with
    | None => (0, "")
    | Some slot => (slot, nth 2 matches "")
    end.

(** ** Bucket objects (package [s3], service.go) *)

Definition Time : Type := Z.

Definition IsZero (t : Time) : bool := t =? 0.
Definition After (t u : Time) : bool := u <? t.
Definition Before (t u : Time) : bool := t <? u.

(** [time.Unix(sec, 0)]: the Unix epoch is 62135596800 seconds after the
    zero instant. *)
Definition Unix (sec : Z) : Time := wrap64 (sec + 62135596800) * 1000000000.

Record Object := mkObject {
  Key : string;
  Size : Z;
  LastModified : Time;
  ETag : string;
  IsMetadata : bool;
  IsTarGz : bool
}.

Definition IsTarGzFile (key : string) : bool := HasSuffix key ".tar.gz".

(** The entry [ListObjects] builds for one listed key. *)
Definition listedObject (key : string) (size : Z) (modified : Time)
    (etag : string) : Object :=
  {| Key := key; Size := size; LastModified := modified; ETag := etag;
     IsTarGz := IsTarGzFile key;
     IsMetadata := HasSuffix key ".json" |}.

(** The test [indexMetadata] applies to a listed object before it indexes
    it as a sidecar. *)
Definition isMetadataCandidate (obj : Object) : bool :=
  IsMetadata obj && isSnapshotMetadataFile (Key obj).

(** ** Metadata records and filters (package [models]) *)

Record Metadata := mkMetadata {
  SolanaVersion : string;
  SolanaFeatureSet : Z;
  Slot : Z;
  Timestamp : Time;
  Hash : string;
  Status : string;
  UploadedBy : string;
  UploadedAt : Time;
  FileSize : Z;
  FileName : string;
  Node : string;
  SlotRange : string
}.

Record MetadataFilter := mkMetadataFilter {
  fSolanaVersion : string;
  fSolanaFeatureSet : Z;
  fStatus : string;
  fUploadedBy : string;
  fNode : string;
  fSlotRange : string;
  fStartTime : Time;
  fEndTime : Time;
  fMinSlot : Z;
  fMaxSlot : Z;
  fSearchTerm : string;
  fPage : Z;
  fPageSize : Z
}.

(** Go's [a != b] on strings. *)
Definition strNe (a b : string) : bool := negb (String.eqb a b).

Definition matchesFilter (metadata : Metadata) (filter : MetadataFilter) : bool :=
  if strNe (fSolanaVersion filter) "" && strNe (SolanaVersion metadata) (fSolanaVersion filter) then false
  else if strNe (fStatus filter) "" && strNe (Status metadata) (fStatus filter) then false
  else if strNe (fUploadedBy filter) "" && strNe (UploadedBy metadata) (fUploadedBy filter) then false
  else if strNe (fNode filter) "" && strNe (Node metadata) (fNode filter) then false
  else if strNe (fSlotRange filter) "" && strNe (SlotRange metadata) (fSlotRange filter) then false
  else if (0 <? fMinSlot filter) && (Slot metadata <? fMinSlot filter) then false
  else if (0 <? fMaxSlot filter) && (fMaxSlot filter <? Slot metadata) then false
  else if negb (IsZero (fStartTime filter)) && Before (Timestamp metadata) (fStartTime filter) then false
  else if negb (IsZero (fEndTime filter)) && After (Timestamp metadata) (fEndTime filter) then false
  else if strNe (fSearchTerm filter) "" then
    let searchTerm := ToLower (fSearchTerm filter) in
    if negb (Contains (ToLower (SolanaVersion metadata)) searchTerm) &&
       negb (Contains (ToLower (Status metadata)) searchTerm) &&
       negb (Contains (ToLower (UploadedBy metadata)) searchTerm) &&
       negb (Contains (ToLower (Node metadata)) searchTerm) &&
       negb (Contains (ToLower (Hash metadata)) searchTerm) &&
       negb (Contains (ToLower (FileName metadata)) searchTerm)
    then false
    else true
  else true.

(** ** Sorting ([sort.Slice], [sort.Strings]) *)

(** What [sort.Slice(data, less)] runs on a slice of at most 12 elements (Go
    1.23, [insertionSortLessFunc]): each element in turn moves left past the
    neighbours it is [less] than.  [acc] is the part already placed, last
    element first.  On longer slices the runtime switches to a
    pattern-defeating quicksort, which returns a permutation ordered the same
    way whenever [less] is a strict weak order. *)
Section Sort.
Context {A : Type} (less : A -> A -> bool).

Fixpoint insertBack (x : A) (acc : list A) : list A :=
  match acc with
  | [] => [x]
  | y :: acc' => if less x y then y :: insertBack x acc' else x :: acc
  end.

Definition sort_Slice (data : list A) : list A :=
  rev (fold_left (fun acc x => insertBack x acc) data []).

(** In the part already placed, kept last element first, no element is
    [less] than one placed before it. *)
Definition placed (acc : list A) : Prop :=
  StronglySorted (fun later earlier => less later earlier = false) acc.
End Sort.

Definition sort_Strings (l : list string) : list string :=
  sort_Slice String.ltb l.

(** The comparator of [ListMetadata]. *)
Definition timestampLess (a b : Metadata) : bool :=
  if IsZero (Timestamp a) || IsZero (Timestamp b) then Slot b <? Slot a
  else After (Timestamp a) (Timestamp b).

(** Component [k] of both versions, when both have one and both parse. *)
Definition numericPair (vI vJ : list string) (k : nat) : option (Z * Z) :=
  match vI !! k, vJ !! k with
  | Some x, Some y =>
      match Atoi x, Atoi y with
      | Some m, Some n => Some (m, n)
      | _, _ => None
      end
  | _, _ => None
  end.

(** The comparator [indexMetadata] sorts the versions with. *)
Definition versionLess (a b : string) : bool :=
  let vI := Split a "." in
  let vJ := Split b "." in
  let patch :=
    match numericPair vI vJ 2 with
    | Some (patchI, patchJ) => patchI <? patchJ
    | None => String.ltb a b
    end in
  let minor :=
    match numericPair vI vJ 1 with
    | Some (minorI, minorJ) =>
        if negb (minorI =? minorJ) then minorI <? minorJ else patch
    | None => patch
    end in
  match numericPair vI vJ 0 with
  | Some (majorI, majorJ) =>
      if negb (majorI =? majorJ) then majorI <? majorJ else minor
  | None => minor
  end.

(** [^(\d+)M] applied to a slot-range label: the number in front, or 0. *)
Definition leadingNumber (s : string) : Z :=
  let '(ds, rest) := span isDigit (bytesOf s) in
  match ds, rest with
  | _ :: _, "M"%char :: _ => AtoiValue (string_of_list_ascii ds)
  | _, _ => 0
  end.

(** The comparator [indexMetadata] sorts the slot ranges with. *)
Definition slotRangeLess (a b : string) : bool :=
  if String.eqb a "< 1M" then true
  else if String.eqb b "< 1M" then false
  else leadingNumber a <? leadingNumber b.

(** ** Pagination (package [api]) *)

Definition defaultPageSize : Z := 20.
Definition maxPageSize : Z := 100.

(** The arguments are the [page] and [page_size] query parameters, [""] when
    absent. *)
Definition getPaginationParams (pageStr pageSizeStr : string) : Z * Z :=
  let page :=
    if strNe pageStr "" then
      match Atoi pageStr with
      | Some pageInt => if 0 <? pageInt then pageInt else 1
      | None => 1
      end
    else 1 in
  let pageSize :=
    if strNe pageSizeStr "" then
      match Atoi pageSizeStr with
      | Some pageSizeInt =>
          if 0 <? pageSizeInt then
            (if maxPageSize <? pageSizeInt then maxPageSize else pageSizeInt)
          else defaultPageSize
      | None => defaultPageSize
      end
    else defaultPageSize in
  (page, pageSize).

Definition calculatePaginationBounds (page pageSize totalItems : Z) : Z * Z :=
  let start := wrap64 (wrap64 (page - 1) * pageSize) in
  let end_ := wrap64 (start + pageSize) in
  if totalItems <=? start then (0, 0)
  else if totalItems <? end_ then (start, totalItems)
  else (start, end_).

(** The slice expression [l[lo:hi]]; [None] is the run-time panic on bounds
    out of range.  The handlers never slice past the length. *)
Definition sliceRange {A : Type} (l : list A) (lo hi : Z) : option (list A) :=
  if (0 <=? lo) && (lo <=? hi) && (hi <=? Z.of_nat (length l))
  then Some (take (Z.to_nat (hi - lo)) (drop (Z.to_nat lo) l))
  else None.

(** The pagination step at the end of [ListMetadata]. *)
Definition paginate (metadataList : list Metadata) (page pageSize : Z)
  : option (list Metadata) :=
  let totalCount := Z.of_nat (length metadataList) in
  let '(start, end_) := calculatePaginationBounds page pageSize totalCount in
  if start <? totalCount then
    let end_ := if totalCount <? end_ then totalCount else end_ in
    sliceRange metadataList start end_
  else Some [].

(** The query over the records built from the sidecars: keep the matching
    ones, sort, count, cut the page.  The result is the [items] and [total]
    of the response, [None] when the handler panics. *)
Definition queryMetadata (records : list Metadata) (flt : MetadataFilter)
    (page pageSize : Z) : option (list Metadata * Z) :=
  let metadataList := List.filter (fun m => matchesFilter m flt) records in
  let metadataList := sort_Slice timestampLess metadataList in
  let totalCount := Z.of_nat (length metadataList) in
  match paginate metadataList page pageSize with
  | Some items => Some (items, totalCount)
  | None => None
  end.

(** ** The storage accessor as the handlers see it *)

(** A decoded JSON value as the handlers inspect it: a string, a number
    (carried as the [int64] the handler converts it to), or anything else. *)
Inductive JValue : Type :=
  | JString (s : string)
  | JNumber (n : Z)
  | JOther.

Record SimpleMetadata := mkSimpleMetadata {
  smSolanaVersion : string;
  smStatus : string;
  smUploadedBy : string
}.

(** The two [json.Unmarshal] attempts on a sidecar body: the strict struct
    decodes; or it fails and the generic map decodes; or both fail. *)
Inductive Decoded : Type :=
  | DecodedStruct (sm : SimpleMetadata)
  | DecodedMap (rawData : gmap string JValue)
  | Undecodable.

(** [GetObject] followed by [io.ReadAll]. *)
Inductive Fetched : Type :=
  | GetFailed
  | ReadFailed
  | Body (contentLength : Z) (d : Decoded).

(** What the bucket answers during one handler call; [None] is the error of
    [ListObjects]. *)
Record Storage := mkStorage {
  ListObjects : option (list Object);
  GetObject : string -> Fetched
}.

(** [v, ok := rawData[k].(string)] *)
Definition asString (v : option JValue) : option string :=
  match v with
  | Some (JString s) => Some s
  | _ => None
  end.

(** [v, ok := rawData[k].(float64)] *)
Definition asNumber (v : option JValue) : option Z :=
  match v with
  | Some (JNumber n) => Some n
  | _ => None
  end.

(** The record [ListMetadata] builds on the generic-map path. *)
Definition metadataFromMap (key : string) (contentLength : Z)
    (rawData : gmap string JValue) : Metadata :=
  let version := default "" (asString (rawData !! "solana_version")) in
  let status := default "" (asString (rawData !! "status")) in
  let uploader := default "" (asString (rawData !! "uploaded_by")) in
  let slot0 := default 0 (asNumber (rawData !! "slot")) in
  let hash := default "" (asString (rawData !! "hash")) in
  let timestamp :=
    match asNumber (rawData !! "timestamp") with
    | Some t => Unix t
    | None => 0
    end in
  let '(slot1, node1, slotRange1) :=
    if isSnapshotMetadataFile key then
      let '(slot, node) := extractSlotAndNode key in
      let slot' := if (slot0 =? 0) && (0 <? slot) then slot else slot0 in
      (slot', node, getSlotRange slot')
    else (slot0, "", "") in
  {| SolanaVersion := version; SolanaFeatureSet := 0; Slot := slot1;
     Timestamp := timestamp; Hash := hash; Status := status;
     UploadedBy := uploader; UploadedAt := 0; FileSize := contentLength;
     FileName := key; Node := node1; SlotRange := slotRange1 |}.

(** The record [ListMetadata] builds on the strict path. *)
Definition metadataFromStruct (key : string) (contentLength : Z)
    (sm : SimpleMetadata) : Metadata :=
  let '(slot1, node1, slotRange1) :=
    if isSnapshotMetadataFile key then
      let '(slot, node) := extractSlotAndNode key in
      (slot, node, getSlotRange slot)
    else (0, "", "") in
  {| SolanaVersion := smSolanaVersion sm; SolanaFeatureSet := 0; Slot := slot1;
     Timestamp := 0; Hash := ""; Status := smStatus sm;
     UploadedBy := smUploadedBy sm; UploadedAt := 0; FileSize := contentLength;
     FileName := key; Node := node1; SlotRange := slotRange1 |}.

(** One turn of the loop over the sidecars in [ListMetadata]: [None] when
    the file is skipped. *)
Definition metadataOfObject (st : Storage) (obj : Object) : option Metadata :=
  match GetObject st (Key obj) with
  | GetFailed => None
  | ReadFailed => None
  | Body len Undecodable => None
  | Body len (DecodedMap rawData) => Some (metadataFromMap (Key obj) len rawData)
  | Body len (DecodedStruct sm) => Some (metadataFromStruct (Key obj) len sm)
  end.

Inductive Response : Type :=
  | RespError (code : Z) (message : string)
  | RespItems (items : list Metadata) (total : Z)
  | RespPanic.

(** [ListMetadata]: the filter comes from [parseMetadataFilter], the page
    parameters from the query string.  [RespItems] is the payload the
    handler hands to [respondWithJSON]; what that call answers when the
    payload does not marshal is modelled by [respondWithJSON] below. *)
Definition ListMetadata (st : Storage) (flt : MetadataFilter)
    (pageStr pageSizeStr : string) : Response :=
  let '(page, pageSize) := getPaginationParams pageStr pageSizeStr in
  match ListObjects st with
  | None => RespError 500 "Failed to list objects"
  | Some objects =>
      let metadataFiles :=
        List.filter (fun obj => isSnapshotMetadataFile (Key obj)) objects in
      match metadataFiles with
      | [] => RespItems [] 0
      | _ :: _ =>
          match queryMetadata (omap (metadataOfObject st) metadataFiles)
                  flt page pageSize with
          | Some (items, total) => RespItems items total
          | None => RespPanic
          end
      end
  end.

(** ** The cache port (package [cache]) and the facet indexer (package [api]) *)

Record FilterOptions := mkFilterOptions {
  foSolanaVersions : list string;
  foStatuses : list string;
  foUploadedBy : list string;
  foNodes : list string;
  foSlotRanges : list string
}.

Definition emptyOptions : FilterOptions :=
  {| foSolanaVersions := []; foStatuses := []; foUploadedBy := [];
     foNodes := []; foSlotRanges := [] |}.

(** One Redis entry: the stored value and the expiration it was set with
    (a [time.Duration], in nanoseconds). *)
Record CacheEntry := mkCacheEntry {
  entryValue : FilterOptions;
  entryExpiration : Z
}.

Definition cacheExpiration : Z := 5 * (60 * 1000000000).
Definition metadataOptionsKey : string := "metadata:options".

(** [RedisCache.Get]: [None] is the error returned on a missing key. *)
Definition cacheGet (c : gmap string CacheEntry) (key : string)
  : option FilterOptions :=
  entryValue <$> c !! key.

(** [RedisCache.Set] *)
Definition cacheSet (c : gmap string CacheEntry) (key : string)
    (value : FilterOptions) (expiration : Z) : gmap string CacheEntry :=
  <[key := {| entryValue := value; entryExpiration := expiration |}]> c.

(** [RedisCache.Delete] *)
Definition cacheDelete (c : gmap string CacheEntry) (key : string)
  : gmap string CacheEntry :=
  delete key c.

(** The state a handler call reads and writes: the handler's [cacheService]
    ([None] for the nil pointer, otherwise the content of the Redis
    instance behind it) and [filterOptions], and the number of [ListObjects]
    calls made on the bucket so far. *)
Record World := mkWorld {
  cacheService : option (gmap string CacheEntry);
  filterOptions : FilterOptions;
  listCalls : nat
}.

(** The state [NewHandler] starts from. *)
Definition NewHandler (cache : option (gmap string CacheEntry)) : World :=
  {| cacheService := cache; filterOptions := emptyOptions; listCalls := 0 |}.

(** The five sets an indexing pass accumulates into. *)
Record Facets := mkFacets {
  versions : gset string;
  statuses : gset string;
  uploaders : gset string;
  nodes : gset string;
  slotRanges : gset string
}.

Definition emptyFacets : Facets :=
  {| versions := ∅; statuses := ∅; uploaders := ∅; nodes := ∅;
     slotRanges := ∅ |}.

(** [if v != "" && v != "unknown" { set[v] = true }] *)
Definition addKnown (v : string) (set : gset string) : gset string :=
  if strNe v "" && strNe v "unknown" then {[ v ]} ∪ set else set.

(** The same behind the type assertion of the generic-map path. *)
Definition addKnownField (v : option JValue) (set : gset string) : gset string :=
  match asString v with
  | Some s => addKnown s set
  | None => set
  end.

(** What a worker does with one file taken from the channel. *)
Definition indexFile (st : Storage) (acc : Facets) (obj : Object) : Facets :=
  let '(slot, node) := extractSlotAndNode (Key obj) in
  let acc :=
    if (0 <? slot) && strNe node "" then
      {| versions := versions acc; statuses := statuses acc;
         uploaders := uploaders acc;
         nodes := {[ node ]} ∪ nodes acc;
         slotRanges := {[ getSlotRange slot ]} ∪ slotRanges acc |}
    else acc in
  match GetObject st (Key obj) with
  | GetFailed => acc
  | ReadFailed => acc
  | Body _ Undecodable => acc
  | Body _ (DecodedMap rawData) =>
      {| versions := addKnownField (rawData !! "solana_version") (versions acc);
         statuses := addKnownField (rawData !! "status") (statuses acc);
         uploaders := addKnownField (rawData !! "uploaded_by") (uploaders acc);
         nodes := nodes acc; slotRanges := slotRanges acc |}
  | Body _ (DecodedStruct sm) =>
      {| versions := addKnown (smSolanaVersion sm) (versions acc);
         statuses := addKnown (smStatus sm) (statuses acc);
         uploaders := addKnown (smUploadedBy sm) (uploaders acc);
         nodes := nodes acc; slotRanges := slotRanges acc |}
  end.

(** The worker pool: every file of the channel is handled once, each under
    the mutex, in the order the workers happen to take them. *)
Definition indexFiles (st : Storage) (files : list Object) : Facets :=
  fold_left (indexFile st) files emptyFacets.

(** The sets turned into sorted slices.  [elements] stands for the order in
    which Go ranges over the map, which changes from one loop to the next;
    [facetListsIn] below takes that order as a parameter. *)
Definition facetLists (acc : Facets) : FilterOptions :=
  {| foSolanaVersions := sort_Slice versionLess (elements (versions acc));
     foStatuses := sort_Strings (elements (statuses acc));
     foUploadedBy := sort_Strings (elements (uploaders acc));
     foNodes := sort_Strings (elements (nodes acc));
     foSlotRanges := sort_Slice slotRangeLess (elements (slotRanges acc)) |}.

Definition setOptions (w : World) (options : FilterOptions) : World :=
  {| cacheService := cacheService w; filterOptions := options;
     listCalls := listCalls w |}.

Definition countListing (w : World) : World :=
  {| cacheService := cacheService w; filterOptions := filterOptions w;
     listCalls := S (listCalls w) |}.

(** The cache lookup at the head of [indexMetadata]: a miss when there is
    no cache service or the key is not there. *)
Definition cachedOptions (w : World) : option FilterOptions :=
  match cacheService w with
  | Some c => cacheGet c metadataOptionsKey
  | None => None
  end.

(** [indexMetadata]: adopt the cached facets if there are any; otherwise list
    the bucket, index the candidates and publish the sorted facets.  The
    log lines, and the fetch of the first file that only feeds them, change
    nothing and are left out. *)
Definition indexMetadata (st : Storage) (w : World) : World :=
  match cachedOptions w with
  | Some options => setOptions w options
  | None =>
      let w := countListing w in
      match ListObjects st with
      | None => w
      | Some objects =>
          let metadataFiles := List.filter isMetadataCandidate objects in
          match metadataFiles with
          | [] => setOptions w emptyOptions
          | _ :: _ => setOptions w (facetLists (indexFiles st metadataFiles))
          end
      end
  end.

(** [DebugReindex]: drop the cached facets, then index. *)
Definition DebugReindex (st : Storage) (w : World) : World :=
  indexMetadata st
    {| cacheService := (fun c => cacheDelete c metadataOptionsKey) <$> cacheService w;
       filterOptions := filterOptions w; listCalls := listCalls w |}.

(** ** The push hub (package [api], [Hub]) *)

(** The outcome of a piece of the hub's loop: it ran to a new state, it
    panicked, or it is blocked on a channel operation. *)
Inductive Result (A : Type) : Type :=
  | Ok (a : A)
  | Panic
  | Blocked.
Arguments Ok {A} a.
Arguments Panic {A}.
Arguments Blocked {A}.

(** A message is the JSON of an object listing; it is carried as the
    listing. *)
Definition Message : Type := list Object.

(** The [send] channel of a client: [make(chan []byte, 256)]. *)
Record Chan := mkChan {
  buf : list Message;
  closed : bool
}.

Definition sendCap : nat := 256.

(** A client is known by its pointer, a number here.  [chans] holds the
    [send] channel of every client [ServeWs] has created; [clients] is the
    key set of the hub's map. *)
Record Hub := mkHub {
  clients : gset nat;
  chans : gmap nat Chan;
  lastFiles : list Object
}.

Definition NewHub : Hub := {| clients := ∅; chans := ∅; lastFiles := [] |}.

Definition isFull (ch : Chan) : bool := (sendCap <=? length (buf ch))%nat.

(** The body of the broadcast loop for one client:
    [select { case client.send <- message: default: close; delete }].
    A send on a closed channel panics; a nil channel is never ready, and
    closing it panics. *)
Definition broadcastTo (message : Message) (h : Hub) (client : nat) : Result Hub :=
  match chans h !! client with
  | None => Panic
  | Some ch =>
      if closed ch then Panic
      else if isFull ch then
        Ok {| clients := clients h ∖ {[ client ]};
              chans := <[client := {| buf := buf ch; closed := true |}]> (chans h);
              lastFiles := lastFiles h |}
      else
        Ok {| clients := clients h;
              chans := <[client := {| buf := buf ch ++ [message]; closed := false |}]> (chans h);
              lastFiles := lastFiles h |}
  end.

(** [for client := range h.clients]: [order] is the order in which the
    range happens to visit the clients. *)
Fixpoint broadcastLoop (message : Message) (order : list nat) (h : Hub)
  : Result Hub :=
  match order with
  | [] => Ok h
  | client :: rest =>
      match broadcastTo message h client with
      | Ok h' => broadcastLoop message rest h'
      | Panic => Panic
      | Blocked => Blocked
      end
  end.

(** The events of [Hub.Run]'s select. *)
Inductive Event : Type :=
  | Register (client : nat)
  | Unregister (client : nat)
  | Broadcast (message : Message) (order : list nat).

(** [ServeWs] makes the client and its channel before it registers it. *)
Definition newClient (client : nat) (h : Hub) : Hub :=
  {| clients := clients h;
     chans := <[client := {| buf := []; closed := false |}]> (chans h);
     lastFiles := lastFiles h |}.

Definition hubStep (e : Event) (h : Hub) : Result Hub :=
  match e with
  | Register client =>
      let h1 := {| clients := {[ client ]} ∪ clients h; chans := chans h;
                   lastFiles := lastFiles h |} in
      match lastFiles h with
      | [] => Ok h1
      | _ :: _ =>
          match chans h !! client with
          | None => Blocked
          | Some ch =>
              if closed ch then Panic
              else if isFull ch then Blocked
              else Ok {| clients := clients h1;
                         chans := <[client := {| buf := buf ch ++ [lastFiles h];
                                                 closed := false |}]> (chans h);
                         lastFiles := lastFiles h |}
          end
      end
  | Unregister client =>
      if decide (client ∈ clients h) then
        match chans h !! client with
        | None => Panic
        | Some ch =>
            if closed ch then Panic
            else Ok {| clients := clients h ∖ {[ client ]};
                       chans := <[client := {| buf := buf ch; closed := true |}]> (chans h);
                       lastFiles := lastFiles h |}
        end
      else Ok h
  | Broadcast message order => broadcastLoop message order h
  end.

(** The client's [writePump] takes the next message off its channel. *)
Definition clientReceive (client : nat) (h : Hub) : Hub :=
  match chans h !! client with
  | Some ch =>
      {| clients := clients h;
         chans := <[client := {| buf := tail (buf ch); closed := closed ch |}]> (chans h);
         lastFiles := lastFiles h |}
  | None => h
  end.

(** [order] is a way to range over the client map: every registered client
    once. *)
Definition rangesOver (order : list nat) (h : Hub) : Prop :=
  NoDup order ∧ ∀ c, c ∈ order ↔ c ∈ clients h.

(** Every registered client has a channel, and it is open. *)
Definition hubOk (h : Hub) : Prop :=
  ∀ c, c ∈ clients h → ∃ ch, chans h !! c = Some ch ∧ closed ch = false.

(** ** Zero values *)

(** [models.Metadata{}] *)
Definition zeroMetadata : Metadata :=
  {| SolanaVersion := ""; SolanaFeatureSet := 0; Slot := 0; Timestamp := 0;
     Hash := ""; Status := ""; UploadedBy := ""; UploadedAt := 0;
     FileSize := 0; FileName := ""; Node := ""; SlotRange := "" |}.

(** [models.MetadataFilter{}]: what [parseMetadataFilter] returns for a
    request without filter parameters. *)
Definition zeroFilter : MetadataFilter :=
  {| fSolanaVersion := ""; fSolanaFeatureSet := 0; fStatus := "";
     fUploadedBy := ""; fNode := ""; fSlotRange := ""; fStartTime := 0;
     fEndTime := 0; fMinSlot := 0; fMaxSlot := 0; fSearchTerm := "";
     fPage := 0; fPageSize := 0 |}.

(** The records that pass the filter, in listing order. *)
Definition matching (records : list Metadata) (flt : MetadataFilter)
  : list Metadata :=
  List.filter (fun m => matchesFilter m flt) records.

(** The matching records in the order [ListMetadata] returns them. *)
Definition sortedMatching (records : list Metadata) (flt : MetadataFilter)
  : list Metadata :=
  sort_Slice timestampLess (matching records flt).

(** ** The shape of a sidecar key, for the statements below *)

(** A non-empty string of decimal digits, and its value. *)
Definition allDigits (s : string) : Prop :=
  s <> "" /\ forallb isDigit (bytesOf s) = true.

Definition decimal (s : string) : Z := digitsValue (bytesOf s).

(** A non-empty string of ASCII letters and digits. *)
Definition allAlnum (s : string) : Prop :=
  s <> "" /\ forallb isAlnum (bytesOf s) = true.

(** [snapshot-<N>-<node>.json] *)
Definition sidecarName (N node : string) : string :=
  "snapshot-" +:+ N +:+ "-" +:+ node +:+ ".json".

(** The keys the pattern accepts: a sidecar name, after any prefix. *)
Definition endsInSidecarName (key : string) : Prop :=
  exists pre N node,
    allDigits N /\ allAlnum node /\ key = pre +:+ sidecarName N node.

(** The same shape on bytes. *)
Definition sidecarBytes (ds nd : list ascii) : list ascii :=
  (bytesOf "snapshot-" ++ ds ++ "-"%char :: nd ++ bytesOf ".json")%list.

(** The two groups read from the end of the key: the run of letters and
    digits before [.json], and the run of digits before the [-] in front
    of it. *)
Definition groupsFromEnd (s : list ascii) : option (list ascii * list ascii) :=
  match stripPrefix (rev (bytesOf ".json")) (rev s) with
  | Some r =>
      let '(rnd, r1) := span isAlnum r in
      match r1 with
      | c :: r2 =>
          if Ascii.eqb c "-" then
            let '(rds, _) := span isDigit r2 in Some (rev rds, rev rnd)
          else None
      | [] => None
      end
  | None => None
  end.

(** ** What it means to pass a filter, for the statements below *)

(** A string field of the filter: unset, or equal to the record's field. *)
Definition passesString (want have : string) : Prop :=
  want = "" \/ have = want.

(** The search term: unset, or found, letter case aside, in one of the six
    fields. *)
Definition passesSearch (m : Metadata) (f : MetadataFilter) : Prop :=
  fSearchTerm f = "" \/
  exists field,
    field ∈ [SolanaVersion m; Status m; UploadedBy m; Node m; Hash m; FileName m] /\
    Contains (ToLower field) (ToLower (fSearchTerm f)) = true.

(** The claim's reading of the filter: the five string fields, the slot
    bounds ignored when zero, the search term. *)
Definition passesAsClaimed (m : Metadata) (f : MetadataFilter) : Prop :=
  passesString (fSolanaVersion f) (SolanaVersion m) /\
  passesString (fStatus f) (Status m) /\
  passesString (fUploadedBy f) (UploadedBy m) /\
  passesString (fNode f) (Node m) /\
  passesString (fSlotRange f) (SlotRange m) /\
  (fMinSlot f = 0 \/ fMinSlot f <= Slot m) /\
  (fMaxSlot f = 0 \/ Slot m <= fMaxSlot f) /\
  passesSearch m f.

(** The filter as the handler applies it: the slot bounds count only when
    positive, and the two time bounds count when they are not the zero
    instant. *)
Definition passesEveryField (m : Metadata) (f : MetadataFilter) : Prop :=
  passesString (fSolanaVersion f) (SolanaVersion m) /\
  passesString (fStatus f) (Status m) /\
  passesString (fUploadedBy f) (UploadedBy m) /\
  passesString (fNode f) (Node m) /\
  passesString (fSlotRange f) (SlotRange m) /\
  (fMinSlot f <= 0 \/ fMinSlot f <= Slot m) /\
  (fMaxSlot f <= 0 \/ Slot m <= fMaxSlot f) /\
  (fStartTime f = 0 \/ fStartTime f <= Timestamp m) /\
  (fEndTime f = 0 \/ Timestamp m <= fEndTime f) /\
  passesSearch m f.

(** The request [?maxSlot=-1], as [parseMetadataFilter] reads it. *)
Definition negativeMaxSlotFilter : MetadataFilter :=
  {| fSolanaVersion := ""; fSolanaFeatureSet := 0; fStatus := "";
     fUploadedBy := ""; fNode := ""; fSlotRange := ""; fStartTime := 0;
     fEndTime := 0; fMinSlot := 0; fMaxSlot := -1; fSearchTerm := "";
     fPage := 0; fPageSize := 0 |}.

(** A request with a [startTime] and nothing else: the instant 86400
    seconds after the Unix epoch. *)
Definition startTimeFilter : MetadataFilter :=
  {| fSolanaVersion := ""; fSolanaFeatureSet := 0; fStatus := "";
     fUploadedBy := ""; fNode := ""; fSlotRange := ""; fStartTime := Unix 86400;
     fEndTime := 0; fMinSlot := 0; fMaxSlot := 0; fSearchTerm := "";
     fPage := 0; fPageSize := 0 |}.

(** ** Version order, for the statements below *)

(** Major before minor before patch. *)
Definition tripleLess (a b : Z * Z * Z) : bool :=
  let '(majorI, minorI, patchI) := a in
  let '(majorJ, minorJ, patchJ) := b in
  (majorI <? majorJ)
  || (majorI =? majorJ) && ((minorI <? minorJ)
                            || (minorI =? minorJ) && (patchI <? patchJ)).

(** Component [k] of the two versions does not settle the comparison:
    it is missing or not a number on one side, or equal on both. *)
Definition undecidedAt (a b : string) (k : nat) : Prop :=
  match numericPair (Split a ".") (Split b ".") k with
  | Some (x, y) => x = y
  | None => True
  end.

(** The comparator as the claim words it: major, then minor, then patch
    as numbers when the three components are numbers on both sides, and the
    plain order of the strings as soon as a component is not a number. *)
Definition versionLessAsClaimed (a b : string) : bool :=
  match numericPair (Split a ".") (Split b ".") 0,
        numericPair (Split a ".") (Split b ".") 1,
        numericPair (Split a ".") (Split b ".") 2 with
  | Some (majorI, majorJ), Some (minorI, minorJ), Some (patchI, patchJ) =>
      tripleLess (majorI, minorI, patchI) (majorJ, minorJ, patchJ)
  | _, _, _ => String.ltb a b
  end.

(** ** Runs of the hub, for the statements below *)

(** Any number of broadcast events handled one after the other, each
    ranging over the clients registered at that time. *)
Inductive broadcasts : Hub -> Hub -> Prop :=
  | broadcasts_none h : broadcasts h h
  | broadcasts_more h h1 h2 message order :
      rangesOver order h ->
      hubStep (Broadcast message order) h = Ok h1 ->
      broadcasts h1 h2 ->
      broadcasts h h2.

(** Two registered clients: the queue of client 1 holds 256 messages, the
    queue of client 2 is empty. *)
Definition twoClients : Hub :=
  {| clients := {[ 1%nat; 2%nat ]};
     chans := <[1%nat := {| buf := replicate 256 []; closed := false |}]>
                (<[2%nat := {| buf := []; closed := false |}]> ∅);
     lastFiles := [] |}.

(** ** Indexing passes, for the statements below *)

(** What one file adds to the five sets. *)
Definition contribution (st : Storage) (obj : Object) : Facets :=
  indexFile st emptyFacets obj.

(** The file could not be fetched or read, or neither decoding worked. *)
Definition skipped (st : Storage) (obj : Object) : Prop :=
  match GetObject st (Key obj) with
  | GetFailed | ReadFailed | Body _ Undecodable => True
  | Body _ (DecodedStruct _) | Body _ (DecodedMap _) => False
  end.

(** A facet list that offers neither the empty string nor ["unknown"]. *)
Definition offersKnown (l : list string) : Prop :=
  ("" ∉ l) /\ ("unknown" ∉ l).

Definition knownFacets (options : FilterOptions) : Prop :=
  offersKnown (foSolanaVersions options) /\
  offersKnown (foStatuses options) /\
  offersKnown (foUploadedBy options).

(** ** Sample buckets *)

(** A bucket without objects. *)
Definition emptyBucket : Storage :=
  {| ListObjects := Some []; GetObject := fun _ => GetFailed |}.

(** A bucket that cannot be listed. *)
Definition unreachableBucket : Storage :=
  {| ListObjects := None; GetObject := fun _ => GetFailed |}.

(** A bucket whose only sidecar has an empty version, the status
    ["unknown"] and a named uploader. *)
Definition unknownBucket : Storage :=
  {| ListObjects := Some [ listedObject "snapshot-7-n.json" 40 0 "" ];
     GetObject := fun _ =>
       Body 40 (DecodedStruct {| smSolanaVersion := ""; smStatus := "unknown";
                                 smUploadedBy := "ci" |}) |}.

(** A record with a slot and a timestamp and nothing else. *)
Definition stamped (slot : Z) (timestamp : Time) : Metadata :=
  {| SolanaVersion := ""; SolanaFeatureSet := 0; Slot := slot;
     Timestamp := timestamp; Hash := ""; Status := ""; UploadedBy := "";
     UploadedAt := 0; FileSize := 0; FileName := ""; Node := "";
     SlotRange := "" |}.

(** Three sidecars, in listing order.  The first and the third have a
    numeric [status], so the strict decoding fails and the generic map
    supplies their timestamps; the second decodes strictly and has none. *)
Definition mixedBucket : Storage :=
  {| ListObjects := Some
       [ listedObject "a/snapshot-9-x.json" 40 0 "";
         listedObject "b/snapshot-5-x.json" 40 0 "";
         listedObject "c/snapshot-1-x.json" 40 0 "" ];
     GetObject := fun key =>
       if String.eqb key "a/snapshot-9-x.json" then
         Body 40 (DecodedMap {[ "status" := JNumber 5; "timestamp" := JNumber 100 ]})
       else if String.eqb key "b/snapshot-5-x.json" then
         Body 40 (DecodedStruct {| smSolanaVersion := "1.18.0"; smStatus := "ok";
                                   smUploadedBy := "ci" |})
       else if String.eqb key "c/snapshot-1-x.json" then
         Body 40 (DecodedMap {[ "status" := JNumber 5; "timestamp" := JNumber 200 ]})
       else GetFailed |}.

(** ** Object retrieval (package [s3] and the handlers [GetFile], [GetMetadata]) *)

(** [strings.TrimSuffix(s, suffix)]: [s] without the suffix when it has it. *)
Definition TrimSuffix (s suffix : string) : string :=
  if HasSuffix s suffix then
    string_of_list_ascii
      (take (String.length s - String.length suffix) (bytesOf s))
  else s.

Definition GetMetadataFileKey (tarGzKey : string) : string :=
  TrimSuffix tarGzKey ".tar.gz" +:+ ".json".

(** What [GetFile] answers: an error status, or the object streamed with
    its content length. *)
Inductive FileResponse : Type :=
  | FileError (code : Z)
  | FileStream (contentLength : Z).

Definition GetFile (st : Storage) (key : string) : FileResponse :=
  if IsTarGzFile key then FileError 403
  else
    match GetObject st key with
    | GetFailed => FileError 500
    | ReadFailed => FileError 500
    | Body contentLength _ => FileStream contentLength
    end.

(** What [GetMetadata] answers: an error, the record as JSON, or the body of
    the object as it is (status 200, content type sniffed).  [MetaRecord]
    is the record handed to [respondWithJSON]; what that call answers when
    the record does not marshal is modelled by [respondWithMetadata]
    below. *)
Inductive MetadataResponse : Type :=
  | MetaError (code : Z) (message : string)
  | MetaRecord (metadata : Metadata)
  | MetaRaw.

Definition GetMetadata (st : Storage) (key : string) : MetadataResponse :=
  if String.eqb key "" then MetaError 400 "Missing key parameter"
  else
    match GetObject st key with
    | GetFailed => MetaError 404 "Metadata not found"
    | ReadFailed => MetaError 500 "Failed to read metadata"
    | Body contentLength d =>
        if HasSuffix key ".json" then
          match d with
          | DecodedStruct sm => MetaRecord (metadataFromStruct key contentLength sm)
          | DecodedMap rawData => MetaRecord (metadataFromMap key contentLength rawData)
          | Undecodable => MetaRaw
          end
        else MetaRaw
    end.

(** ** Serving the facets ([GetMetadataOptions]) *)

(** [len(options.SolanaVersions) == 0 && len(options.Statuses) == 0]: the
    handler's test for facets that are not there yet. *)
Definition looksUnindexed (options : FilterOptions) : bool :=
  (length (foSolanaVersions options) =? 0)%nat
  && (length (foStatuses options) =? 0)%nat.

(** [GetMetadataOptions]: the options sent, the state left behind, and
    whether an indexing pass was started in the background. *)
Definition GetMetadataOptions (w : World) : FilterOptions * World * bool :=
  let options := filterOptions w in
  let '(options, w) :=
    if looksUnindexed options then
      match cachedOptions w with
      | Some cached => (cached, setOptions w cached)
      | None => (options, w)
      end
    else (options, w) in
  if looksUnindexed options then (emptyOptions, w, true)
  else (options, w, false).

(** ** Listings and archive names, for the statements below *)

(** The flags of every object are the ones [ListObjects] computes from the
    key. *)
Definition wellListed (objects : list Object) : Prop :=
  forall obj, obj ∈ objects ->
    IsMetadata obj = HasSuffix (Key obj) ".json" /\
    IsTarGz obj = IsTarGzFile (Key obj).

(** [snapshot-<N>-<node>.tar.gz] *)
Definition archiveName (N node : string) : string :=
  "snapshot-" +:+ N +:+ "-" +:+ node +:+ ".tar.gz".

(** ** Pages, for the statements below *)

(** The items of one page of a query; no items when the handler panics. *)
Definition pageItems (records : list Metadata) (flt : MetadataFilter)
    (pageSize : Z) (page : nat) : list Metadata :=
  match queryMetadata records flt (Z.of_nat page) pageSize with
  | Some (items, _) => items
  | None => []
  end.

(** The largest [page] parameter for which no start or end index of a page
    of at most 100 items leaves the int range. *)
Definition lastSafePage : Z := 92233720368547758.

(** A bucket whose only sidecar cannot be fetched. *)
Definition unreadableBucket : Storage :=
  {| ListObjects := Some [ listedObject "snapshot-7-n.json" 40 0 "" ];
     GetObject := fun _ => GetFailed |}.

(** ** The hub and the poller as two goroutines *)

(** Where the goroutine of [Hub.Run] stands: at its [select]; in the
    register case with the client already in the map, at [h.mutex.Lock()];
    or returned. *)
Inductive HubPc : Type :=
  | AtSelect
  | Locking (client : nat)
  | HubReturned.

(** Where [pollForNewFiles] stands: at its [select]; holding the mutex at
    [h.broadcast <- data]; holding the mutex after the send, at
    [h.lastFiles = objects]; or returned. *)
Inductive PollerPc : Type :=
  | AtTicker
  | Sending (objects : list Object)
  | Updating (objects : list Object)
  | PollerReturned.

Record System := mkSystem {
  hub : Hub;
  hubPc : HubPc;
  pollerPc : PollerPc
}.

(** [NewHub] followed by [go hub.Run(ctx)]. *)
Definition Start : System :=
  {| hub := NewHub; hubPc := AtSelect; pollerPc := AtTicker |}.

(** The poller holds [h.mutex] from its [Lock] to its [Unlock]. *)
Definition mutexHeld (s : System) : bool :=
  match pollerPc s with
  | Sending _ | Updating _ => true
  | AtTicker | PollerReturned => false
  end.

(** [h.clients[client] = true] *)
Definition addClient (client : nat) (h : Hub) : Hub :=
  {| clients := {[ client ]} ∪ clients h; chans := chans h;
     lastFiles := lastFiles h |}.

(** The rest of the register case, under the mutex:
    [if len(h.lastFiles) > 0 { client.send <- data }], a plain send, which
    waits while the queue is full. *)
Definition greet (client : nat) (h : Hub) : Result Hub :=
  match lastFiles h with
  | [] => Ok h
  | _ :: _ =>
      match chans h !! client with
      | None => Blocked
      | Some ch =>
          if closed ch then Panic
          else if isFull ch then Blocked
          else Ok {| clients := clients h;
                     chans := <[client := {| buf := buf ch ++ [lastFiles h];
                                             closed := false |}]> (chans h);
                     lastFiles := lastFiles h |}
      end
  end.

(** [h.lastFiles = objects] *)
Definition setLastFiles (objects : list Object) (h : Hub) : Hub :=
  {| clients := clients h; chans := chans h; lastFiles := objects |}.

(** The moves of the two goroutines and of what surrounds them: [ServeWs]
    hands a new client to the register case; the hub takes the mutex and
    greets the client; a [readPump] ends and the hub takes its client off
    the unregister channel; the ticker fires and the poller lists the
    bucket, takes the mutex and compares; the hub takes the poller's message
    off the broadcast channel and ranges over the clients in [order]; the
    poller records the listing and releases the mutex; a [writePump] takes
    a message off its queue; either goroutine sees the context done. *)
Inductive Move : Type :=
  | ServeWs (client : nat)
  | LockAndGreet
  | ReadPumpEnds (client : nat)
  | Tick (listing : option (list Object))
  | Deliver (order : list nat)
  | Update
  | WritePump (client : nat)
  | HubDone
  | PollerDone.

Definition hubMoves (s : System) (r : Result Hub) (hpc : HubPc) (ppc : PollerPc)
  : Result System :=
  match r with
  | Ok h => Ok {| hub := h; hubPc := hpc; pollerPc := ppc |}
  | Panic => Panic
  | Blocked => Blocked
  end.

(** One move: the state after it, a panic, or [Blocked] when the goroutine
    that would make the move is not there or has to wait. *)
Definition step (m : Move) (s : System) : Result System :=
  match m with
  | ServeWs client =>
      match hubPc s with
      | AtSelect =>
          Ok {| hub := addClient client (newClient client (hub s));
                hubPc := Locking client; pollerPc := pollerPc s |}
      | _ => Blocked
      end
  | LockAndGreet =>
      match hubPc s with
      | Locking client =>
          if mutexHeld s then Blocked
          else hubMoves s (greet client (hub s)) AtSelect (pollerPc s)
      | _ => Blocked
      end
  | ReadPumpEnds client =>
      match hubPc s with
      | AtSelect =>
          hubMoves s (hubStep (Unregister client) (hub s)) AtSelect (pollerPc s)
      | _ => Blocked
      end
  | Tick listing =>
      match pollerPc s with
      | AtTicker =>
          match listing with
          | None => Ok s
          | Some objects =>
              if (length (lastFiles (hub s)) <? length objects)%nat then
                Ok {| hub := hub s; hubPc := hubPc s; pollerPc := Sending objects |}
              else Ok s
          end
      | _ => Blocked
      end
  | Deliver order =>
      match hubPc s, pollerPc s with
      | AtSelect, Sending objects =>
          hubMoves s (hubStep (Broadcast objects order) (hub s)) AtSelect
            (Updating objects)
      | _, _ => Blocked
      end
  | Update =>
      match pollerPc s with
      | Updating objects =>
          Ok {| hub := setLastFiles objects (hub s); hubPc := hubPc s;
                pollerPc := AtTicker |}
      | _ => Blocked
      end
  | WritePump client =>
      Ok {| hub := clientReceive client (hub s); hubPc := hubPc s;
            pollerPc := pollerPc s |}
  | HubDone =>
      match hubPc s with
      | AtSelect => Ok {| hub := hub s; hubPc := HubReturned; pollerPc := pollerPc s |}
      | _ => Blocked
      end
  | PollerDone =>
      match pollerPc s with
      | AtTicker => Ok {| hub := hub s; hubPc := hubPc s; pollerPc := PollerReturned |}
      | _ => Blocked
      end
  end.

(** What the code around a move guarantees: [ServeWs] allocates its client,
    so no channel is known under its pointer yet, and the range of a
    broadcast visits every registered client once. *)
Definition feasible (m : Move) (s : System) : Prop :=
  match m with
  | ServeWs client => chans (hub s) !! client = None
  | Deliver order => rangesOver order (hub s)
  | _ => True
  end.

(** Any number of feasible moves, one after the other. *)
Inductive reaches : System -> System -> Prop :=
  | reaches_here s : reaches s s
  | reaches_move s m s1 s2 :
      feasible m s -> step m s = Ok s1 -> reaches s1 s2 -> reaches s s2.

(** The queue of a client the hub is about to greet is still empty, and a
    listing the poller is about to publish is longer than the last one. *)
Definition systemOk (s : System) : Prop :=
  hubOk (hub s) /\
  (forall client, hubPc s = Locking client ->
     client ∈ clients (hub s) /\
     chans (hub s) !! client = Some {| buf := []; closed := false |}) /\
  (forall objects, pollerPc s = Sending objects \/ pollerPc s = Updating objects ->
     (length (lastFiles (hub s)) < length objects)%nat).

(** ** Configuration (package [config]) *)

Record S3Config := mkS3Config {
  Region : string;
  Bucket : string;
  AccessKeyID : string;
  SecretAccessKey : string;
  Endpoint : string
}.

(** [Host] and [Port] of [RedisConfig] and of [ServerConfig] carry the
    name of their struct in front. *)
Record RedisConfig := mkRedisConfig {
  RedisHost : string;
  RedisPort : Z;
  Password : string;
  DB : Z
}.

Record ServerConfig := mkServerConfig {
  ServerPort : Z;
  ServerHost : string
}.

Record Config := mkConfig {
  S3 : S3Config;
  Redis : RedisConfig;
  Server : ServerConfig
}.

(** The configuration [LoadConfig] starts from. *)
Definition defaultConfig : Config :=
  {| S3 := {| Region := "us-east-1"; Bucket := ""; AccessKeyID := "";
              SecretAccessKey := ""; Endpoint := "" |};
     Redis := {| RedisHost := "localhost"; RedisPort := 6379; Password := "";
                 DB := 0 |};
     Server := {| ServerPort := 8080; ServerHost := "0.0.0.0" |} |}.

(** What a configuration file that decodes holds: for every field the
    value of its key, [None] when the key is absent or null. *)
Record ConfigJSON := mkConfigJSON {
  jRegion : option string;
  jBucket : option string;
  jAccessKeyID : option string;
  jSecretAccessKey : option string;
  jEndpoint : option string;
  jRedisHost : option string;
  jRedisPort : option Z;
  jPassword : option string;
  jDB : option Z;
  jServerPort : option Z;
  jServerHost : option string
}.

(** The file at the path: [os.Stat] fails; [os.Open] fails; the decoder
    fails; or the file decodes. *)
Inductive ConfigFile : Type :=
  | FileMissing
  | FileUnreadable
  | FileMalformed
  | FileHolds (content : ConfigJSON).

(** [decoder.Decode(&config)]: the keys present replace the values the
    struct holds, the others stay. *)
Definition decodeInto (j : ConfigJSON) (c : Config) : Config :=
  {| S3 := {| Region := default (Region (S3 c)) (jRegion j);
              Bucket := default (Bucket (S3 c)) (jBucket j);
              AccessKeyID := default (AccessKeyID (S3 c)) (jAccessKeyID j);
              SecretAccessKey := default (SecretAccessKey (S3 c)) (jSecretAccessKey j);
              Endpoint := default (Endpoint (S3 c)) (jEndpoint j) |};
     Redis := {| RedisHost := default (RedisHost (Redis c)) (jRedisHost j);
                 RedisPort := default (RedisPort (Redis c)) (jRedisPort j);
                 Password := default (Password (Redis c)) (jPassword j);
                 DB := default (DB (Redis c)) (jDB j) |};
     Server := {| ServerPort := default (ServerPort (Server c)) (jServerPort j);
                  ServerHost := default (ServerHost (Server c)) (jServerHost j) |} |}.

(** [os.Getenv]: the value, [""] when the variable is not set. *)
Definition Getenv (env : gmap string string) (key : string) : string :=
  default "" (env !! key).

(** [if v := os.Getenv(key); v != "" { field = v }] *)
Definition envString (env : gmap string string) (key : string) (current : string)
  : string :=
  let v := Getenv env key in
  if strNe v "" then v else current.

(** [if v := os.Getenv(key); v != "" { if n, err := strconv.Atoi(v); err == nil { field = n } }] *)
Definition envInt (env : gmap string string) (key : string) (current : Z) : Z :=
  let v := Getenv env key in
  if strNe v "" then
    match Atoi v with
    | Some n => n
    | None => current
    end
  else current.

Definition overrideWithEnv (env : gmap string string) (c : Config) : Config :=
  {| S3 := {| Region := envString env "S3_REGION" (Region (S3 c));
              Bucket := envString env "S3_BUCKET" (Bucket (S3 c));
              AccessKeyID := envString env "S3_ACCESS_KEY_ID" (AccessKeyID (S3 c));
              SecretAccessKey :=
                envString env "S3_SECRET_ACCESS_KEY" (SecretAccessKey (S3 c));
              Endpoint := envString env "S3_ENDPOINT" (Endpoint (S3 c)) |};
     Redis := {| RedisHost := envString env "REDIS_HOST" (RedisHost (Redis c));
                 RedisPort := envInt env "REDIS_PORT" (RedisPort (Redis c));
                 Password := envString env "REDIS_PASSWORD" (Password (Redis c));
                 DB := envInt env "REDIS_DB" (DB (Redis c)) |};
     Server := {| ServerPort := envInt env "SERVER_PORT" (ServerPort (Server c));
                  ServerHost := envString env "SERVER_HOST" (ServerHost (Server c)) |} |}.

(** [LoadError] carries the text of the error up to the cause the code
    wraps into it with [%w]. *)
Inductive LoadResult : Type :=
  | LoadError (message : string)
  | Loaded (config : Config).

Definition validated (c : Config) : LoadResult :=
  if String.eqb (Bucket (S3 c)) "" then LoadError "S3 bucket name is required"
  else Loaded c.

Definition LoadConfig (file : ConfigFile) (env : gmap string string) : LoadResult :=
  match file with
  | FileUnreadable => LoadError "failed to open config file"
  | FileMalformed => LoadError "failed to decode config file"
  | FileMissing => validated (overrideWithEnv env defaultConfig)
  | FileHolds content =>
      validated (overrideWithEnv env (decodeInto content defaultConfig))
  end.

(** [RedisConfig.Address]: [fmt.Sprintf("%s:%d", r.Host, r.Port)] *)
Definition Address (r : RedisConfig) : string :=
  RedisHost r +:+ ":" +:+ FormatInt (RedisPort r).

(** The configuration before the environment is applied. *)
Definition fromFile (file : ConfigFile) : Config :=
  match file with
  | FileHolds content => decodeInto content defaultConfig
  | _ => defaultConfig
  end.

(** ** The file list of the frontend ([FileList.vue]) *)

(** The numbers of the component are array lengths and page numbers; they
    are [Z] values. *)
Definition itemsPerPage : Z := 15.

(** How [Array.prototype.slice] reads an index: from the end when it is
    negative, and never outside the array. *)
Definition relativeIndex (len i : Z) : Z :=
  if i <? 0 then Z.max (len + i) 0 else Z.min i len.

(** [l.slice(start, end)] *)
Definition slice {A : Type} (l : list A) (start end_ : Z) : list A :=
  let len := Z.of_nat (length l) in
  let k := relativeIndex len start in
  let final := relativeIndex len end_ in
  take (Z.to_nat (final - k)) (drop (Z.to_nat k) l).

Definition paginatedFiles {A : Type} (sortedFiles : list A) (currentPage : Z)
  : list A :=
  let start := (currentPage - 1) * itemsPerPage in
  let end_ := start + itemsPerPage in
  slice sortedFiles start end_.

(** [Math.ceil(props.files.length / itemsPerPage.value) || 1] *)
Definition totalPages (filesLength : nat) : Z :=
  let pages := - ((- Z.of_nat filesLength) / itemsPerPage) in
  if pages =? 0 then 1 else pages.

(** An entry of the page bar: a page number or the string ['...']. *)
Inductive PageEntry : Type :=
  | PageNumber (page : Z)
  | Ellipsis.

(** [for (let i = a; i <= b; i++)] *)
Definition pageRange (a b : Z) : list Z := seqZ a (b - a + 1).

Definition displayedPages (totalPagesCount current : Z) : list PageEntry :=
  let delta := 2 in
  if totalPagesCount <=? 5 then map PageNumber (pageRange 1 totalPagesCount)
  else
    let leftBound := Z.max 2 (current - delta) in
    let rightBound := Z.min (totalPagesCount - 1) (current + delta) in
    [PageNumber 1]
    ++ (if 2 <? leftBound then [Ellipsis] else [])
    ++ map PageNumber (pageRange leftBound rightBound)
    ++ (if rightBound <? totalPagesCount - 1 then [Ellipsis] else [])
    ++ (if 1 <? totalPagesCount then [PageNumber totalPagesCount] else []).

(** [changePage]: only a number changes the current page. *)
Definition changePage (page : PageEntry) (currentPage : Z) : Z :=
  match page with
  | PageNumber n => n
  | Ellipsis => currentPage
  end.

(** The page numbers of a bar, in order. *)
Definition pageNumbers (bar : list PageEntry) : list Z :=
  omap (fun entry => match entry with
                     | PageNumber n => Some n
                     | Ellipsis => None
                     end) bar.

(** ** The query string of [ListMetadata] ([parseMetadataFilter]) *)

Section Query.

(** The calendar of package [time] is a parameter:
    [time.Parse("2006-01-02", s)], [None] for an error, and
    [time.Date(t.Year(), t.Month(), t.Day(), 23, 59, 59, 999999999, t.Location())],
    the last nanosecond of the day of an instant. *)
Variable time_Parse : string -> option Time.
Variable endOfDay : Time -> Time.

(** [query.Get(key)]: the first value of the key, [""] without one. *)
Definition queryGet (query : gmap string string) (key : string) : string :=
  default "" (query !! key).

(** [if v := query.Get(key); v != "" { if val, err := parse(v); err == nil { field = val } }]
    on a field that starts as the zero value. *)
Definition parsedField (parse : string -> option Z) (v : string) : Z :=
  if strNe v "" then
    match parse v with
    | Some val => val
    | None => 0
    end
  else 0.

Definition parseMetadataFilter (query : gmap string string) : MetadataFilter :=
  {| fSolanaVersion := queryGet query "solanaVersion";
     fSolanaFeatureSet := 0;
     fStatus := queryGet query "status";
     fUploadedBy := queryGet query "uploadedBy";
     fNode := queryGet query "node";
     fSlotRange := queryGet query "slotRange";
     fStartTime := parsedField time_Parse (queryGet query "startTime");
     fEndTime :=
       parsedField (fun v => endOfDay <$> time_Parse v) (queryGet query "endTime");
     fMinSlot := parsedField ParseInt (queryGet query "minSlot");
     fMaxSlot := parsedField ParseInt (queryGet query "maxSlot");
     fSearchTerm := queryGet query "searchTerm";
     fPage := 0;
     fPageSize := 0 |}.

(** Whether [json.Marshal] accepts an instant: [Time.MarshalJSON] fails
    when the year of the instant, in its location, is outside 0..9999.
    The calendar is a parameter here too. *)
Variable marshalsTime : Time -> bool.

(** The other fields of a record are strings and integers, which always
    marshal. *)
Definition marshalsMetadata (m : Metadata) : bool :=
  marshalsTime (Timestamp m) && marshalsTime (UploadedAt m).

(** [respondWithJSON(w, http.StatusOK, result)] on the payload
    [ListMetadata] ends with: when [json.Marshal] fails the answer is the
    status 500 with the text below. *)
Definition respondWithJSON (r : Response) : Response :=
  match r with
  | RespItems items _ =>
      if forallb marshalsMetadata items then r
      else RespError 500 "Failed to marshal JSON response"
  | _ => r
  end.

(** The same on the record [GetMetadata] ends with; the raw body is
    written as it is. *)
Definition respondWithMetadata (r : MetadataResponse) : MetadataResponse :=
  match r with
  | MetaRecord metadata =>
      if marshalsMetadata metadata then r
      else MetaError 500 "Failed to marshal JSON response"
  | _ => r
  end.

(** [ListMetadata] on a request, up to the bytes written: the filter and
    the page parameters come from the query string, the payload goes
    through [respondWithJSON]. *)
Definition ListMetadataRequest (st : Storage) (query : gmap string string)
  : Response :=
  respondWithJSON
    (ListMetadata st (parseMetadataFilter query)
       (queryGet query "page") (queryGet query "page_size")).

(** [GetMetadata] on a request, up to the bytes written. *)
Definition GetMetadataRequest (st : Storage) (key : string) : MetadataResponse :=
  respondWithMetadata (GetMetadata st key).

End Query.

(** ** Map iteration order, for the statements below *)

(** [order] is a way to range over a set kept as a map: every element
    once. *)
Definition rangeOf (order : list string) (set : gset string) : Prop :=
  order ≡ₚ elements set.

(** The orders in which the five loops [for v := range ...] at the end of
    an indexing pass visit their maps. *)
Record RangeOrders := mkRangeOrders {
  overVersions : list string;
  overStatuses : list string;
  overUploaders : list string;
  overNodes : list string;
  overSlotRanges : list string
}.

Definition rangesFacets (o : RangeOrders) (acc : Facets) : Prop :=
  rangeOf (overVersions o) (versions acc) /\
  rangeOf (overStatuses o) (statuses acc) /\
  rangeOf (overUploaders o) (uploaders acc) /\
  rangeOf (overNodes o) (nodes acc) /\
  rangeOf (overSlotRanges o) (slotRanges acc).

(** The lists a pass publishes when its maps are ranged over in the orders
    [o]; [facetLists] is the case of the orders [elements] gives. *)
Definition facetListsIn (o : RangeOrders) : FilterOptions :=
  {| foSolanaVersions := sort_Slice versionLess (overVersions o);
     foStatuses := sort_Strings (overStatuses o);
     foUploadedBy := sort_Strings (overUploaders o);
     foNodes := sort_Strings (overNodes o);
     foSlotRanges := sort_Slice slotRangeLess (overSlotRanges o) |}.

Definition elementsOrders (acc : Facets) : RangeOrders :=
  {| overVersions := elements (versions acc);
     overStatuses := elements (statuses acc);
     overUploaders := elements (uploaders acc);
     overNodes := elements (nodes acc);
     overSlotRanges := elements (slotRanges acc) |}.

(** ** A cache entry written from outside, for the statements below *)

(** A handler whose cache holds, under the facets key, lists with the empty
    string and ["unknown"]. *)
Definition foreignCache : World :=
  NewHandler (Some {[ metadataOptionsKey :=
    {| entryValue := {| foSolanaVersions := [""]; foStatuses := ["unknown"];
                        foUploadedBy := []; foNodes := []; foSlotRanges := [] |};
       entryExpiration := cacheExpiration |} ]}).


(** * Properties *)

(** ** Machine integers *)

Lemma wrap64_id z : in_int64 z -> wrap64 z = z.
Proof.
  unfold in_int64, min_int64, max_int64, wrap64. intros H.
  rewrite Z.mod_small; lia.
Qed.

Lemma in_int64b_spec z : in_int64b z = true <-> in_int64 z.
Proof. unfold in_int64b, in_int64. rewrite andb_true_iff, !Z.leb_le. tauto. Qed.

(** A quotient by one million, with its remainder made explicit for [lia]. *)
Lemma quot_million slot :
  0 <= slot ->
  exists r, slot = Z.quot slot 1000000 * 1000000 + r /\ 0 <= r < 1000000
            /\ 0 <= Z.quot slot 1000000.
Proof.
  intros H. exists (Z.rem slot 1000000).
  pose proof (Z.quot_rem' slot 1000000) as E.
  pose proof (Z.rem_bound_pos slot 1000000 H ltac:(lia)).
  pose proof (Z.quot_pos slot 1000000 H ltac:(lia)). lia.
Qed.

(** ** Slot ranges *)

Example getSlotRange_0 : getSlotRange 0 = "< 1M".
Proof. reflexivity. Qed.

Example getSlotRange_999999 : getSlotRange 999999 = "< 1M".
Proof. reflexivity. Qed.

Example getSlotRange_1000000 : getSlotRange 1000000 = "1M-2M".
Proof. reflexivity. Qed.

Example getSlotRange_2500000 : getSlotRange 2500000 = "2M-3M".
Proof. reflexivity. Qed.

(** Every slot of the first window gets the sentinel. *)
Lemma getSlotRange_first_window slot :
  0 <= slot < 1000000 -> getSlotRange slot = "< 1M".
Proof.
  intros H. unfold getSlotRange.
  rewrite (Z.quot_small slot 1000000) by lia. reflexivity.
Qed.

(** From one million up to the start of the last window an int64 can hold,
    the label is the window's start and end in millions. *)
Lemma getSlotRange_window slot :
  1000000 <= slot < 9223372036854000000 ->
  getSlotRange slot =
    FormatInt (Z.quot slot 1000000) +:+ "M-"
    +:+ FormatInt (Z.quot slot 1000000 + 1) +:+ "M".
Proof.
  intros H. unfold getSlotRange.
  destruct (quot_million slot) as (r & E & Hr & Hq); [lia|].
  set (q := Z.quot slot 1000000) in *.
  assert (1 <= q <= 9223372036853) by lia.
  rewrite (wrap64_id q) by (unfold in_int64, min_int64, max_int64; lia).
  rewrite (wrap64_id (q * 1000000)) by (unfold in_int64, min_int64, max_int64; lia).
  rewrite (wrap64_id (q * 1000000 + 1000000)) by (unfold in_int64, min_int64, max_int64; lia).
  destruct (Z.eqb_spec (q * 1000000) 0) as [E0|_]; [lia|].
  rewrite Z.quot_mul by lia.
  replace (q * 1000000 + 1000000) with ((q + 1) * 1000000) by lia.
  rewrite Z.quot_mul by lia. reflexivity.
Qed.

(** C7. [getSlotRange] gives every slot of the first window the sentinel
    and labels the windows from one million on by their start and end in
    millions, as the claim says, up to the last window that fits an int64.
    In that last window [rangeStart + rangeSize] wraps around: for the
    largest slot a file name can carry the end of the label is negative,
    where the claim has ["9223372036854M-9223372036855M"]. *)
Theorem getSlotRange_last_window_wraps :
  in_int64 9223372036854775807 /\
  extractSlotAndNode "snapshot-9223372036854775807-a.json"
    = (9223372036854775807, "a") /\
  getSlotRange 9223372036854775807 = "9223372036854M--9223372036854M" /\
  getSlotRange 9223372036854775807 <>
    FormatInt (Z.quot 9223372036854775807 1000000) +:+ "M-"
    +:+ FormatInt (Z.quot 9223372036854775807 1000000 + 1) +:+ "M".
Proof.
  split; [unfold in_int64, min_int64, max_int64; lia|].
  split; [vm_compute; reflexivity|].
  split; [vm_compute; reflexivity|].
  vm_compute. discriminate.
Qed.

(** ** Sorting *)

Section SortFacts.
Context {A : Type} (less : A -> A -> bool).

Lemma insertBack_perm x acc : insertBack less x acc ≡ₚ x :: acc.
Proof.
  induction acc as [|y acc IH]; simpl; [reflexivity|].
  destruct (less x y); [|reflexivity].
  rewrite IH. apply perm_swap.
Qed.

Lemma fold_insertBack_perm l acc :
  fold_left (fun acc x => insertBack less x acc) l acc ≡ₚ l ++ acc.
Proof.
  revert acc. induction l as [|x l IH]; intros acc; simpl; [reflexivity|].
  rewrite IH, insertBack_perm. symmetry. apply Permutation_middle.
Qed.

Lemma sort_Slice_perm l : sort_Slice less l ≡ₚ l.
Proof.
  unfold sort_Slice. rewrite <- Permutation_rev, fold_insertBack_perm.
  now rewrite app_nil_r.
Qed.

Lemma sort_Slice_length l : length (sort_Slice less l) = length l.
Proof. apply Permutation_length, sort_Slice_perm. Qed.

Lemma sort_Slice_elem x l : x ∈ sort_Slice less l ↔ x ∈ l.
Proof. now rewrite sort_Slice_perm. Qed.

Hypothesis less_asym : forall a b, less a b = true -> less b a = false.
Hypothesis less_negtrans :
  forall a b c, less a b = false -> less b c = false -> less a c = false.

Lemma insertBack_placed x acc :
  placed less acc -> placed less (insertBack less x acc).
Proof.
  unfold placed. induction 1 as [|y acc Hs IH Hall]; simpl.
  - repeat constructor.
  - rewrite Forall_forall in Hall.
    destruct (less x y) eqn:E.
    + constructor; [exact IH|].
      apply Forall_forall. intros z Hz.
      rewrite insertBack_perm in Hz.
      apply elem_of_cons in Hz as [->|Hz]; [now apply less_asym|].
      now apply Hall.
    + constructor; [now constructor; [|apply Forall_forall]|].
      constructor; [exact E|].
      apply Forall_forall. intros z Hz.
      apply less_negtrans with y; [exact E|now apply Hall].
Qed.

Lemma fold_insertBack_placed l acc :
  placed less acc ->
  placed less (fold_left (fun acc x => insertBack less x acc) l acc).
Proof.
  revert acc. induction l as [|x l IH]; intros acc H; simpl; [exact H|].
  apply IH, insertBack_placed, H.
Qed.

Lemma placed_rev acc :
  placed less acc -> StronglySorted (fun a b => less b a = false) (rev acc).
Proof.
  unfold placed. induction 1 as [|y acc Hs IH Hall]; simpl; [constructor|].
  rewrite Forall_forall in Hall.
  apply StronglySorted_app_2; [|exact IH|repeat constructor].
  intros a b Ha Hb. apply list_elem_of_singleton in Hb as ->.
  apply Hall. apply list_elem_of_In, in_rev, list_elem_of_In, Ha.
Qed.

(** Under a strict weak order the result is sorted: no element is [less]
    than one before it. *)
Lemma sort_Slice_sorted l :
  StronglySorted (fun a b => less b a = false) (sort_Slice less l).
Proof. apply placed_rev, fold_insertBack_placed. constructor. Qed.
End SortFacts.

(** Two comparators that agree on the elements of the slice sort it the
    same way. *)
Lemma insertBack_ext {A} (less less' : A -> A -> bool) x acc :
  (forall b, b ∈ acc -> less x b = less' x b) ->
  insertBack less x acc = insertBack less' x acc.
Proof.
  induction acc as [|y acc IH]; intros H; simpl; [reflexivity|].
  rewrite <- (H y) by left.
  destruct (less x y); [|reflexivity].
  f_equal. apply IH. intros b Hb. apply H. now right.
Qed.

Lemma sort_Slice_ext {A} (less less' : A -> A -> bool) l :
  (forall a b, a ∈ l -> b ∈ l -> less a b = less' a b) ->
  sort_Slice less l = sort_Slice less' l.
Proof.
  intros H. unfold sort_Slice. f_equal.
  assert (G : forall acc,
    (forall a b, a ∈ (l ++ acc)%list -> b ∈ (l ++ acc)%list -> less a b = less' a b) ->
    fold_left (fun acc x => insertBack less x acc) l acc =
    fold_left (fun acc x => insertBack less' x acc) l acc).
  { clear H. induction l as [|x l IH]; intros acc H; simpl; [reflexivity|].
    rewrite (insertBack_ext less less' x acc).
    - assert (M : forall a, a ∈ (l ++ insertBack less' x acc)%list ->
                              a ∈ ((x :: l) ++ acc)%list).
      { intros a. rewrite !elem_of_app, insertBack_perm, !elem_of_cons. tauto. }
      apply IH. intros a b Ha Hb. apply H; now apply M.
    - intros b Hb. apply H; simpl; rewrite elem_of_cons, elem_of_app; tauto. }
  apply G. intros a b. rewrite app_nil_r. apply H.
Qed.

(** ** Pagination *)

Lemma sliceRange_empty {A} (l : list A) : sliceRange l 0 0 = Some [].
Proof.
  unfold sliceRange. simpl.
  destruct (Z.leb_spec 0 (Z.of_nat (length l))); [reflexivity|lia].
Qed.

(** A page whose start index is at or past the total is empty. *)
Lemma paginate_out_of_range l page pageSize :
  in_int64 (page - 1) -> in_int64 ((page - 1) * pageSize) ->
  Z.of_nat (length l) <= (page - 1) * pageSize ->
  paginate l page pageSize = Some [].
Proof.
  intros H1 H2 H. unfold paginate, calculatePaginationBounds.
  rewrite (wrap64_id (page - 1)) by assumption.
  rewrite (wrap64_id ((page - 1) * pageSize)) by assumption.
  destruct (Z.leb_spec (Z.of_nat (length l)) ((page - 1) * pageSize)); [|lia].
  destruct (Z.ltb_spec 0 (Z.of_nat (length l))); [|reflexivity].
  destruct (Z.ltb_spec (Z.of_nat (length l)) 0); [lia|].
  apply sliceRange_empty.
Qed.

(** A page whose start index is below the total holds the records from
    there on, [pageSize] of them or as many as are left. *)
Lemma paginate_in_range l page pageSize :
  1 <= page -> 1 <= pageSize ->
  (page - 1) * pageSize < Z.of_nat (length l) ->
  in_int64 ((page - 1) * pageSize + pageSize) ->
  paginate l page pageSize =
    Some (take (Z.to_nat pageSize) (drop (Z.to_nat ((page - 1) * pageSize)) l)).
Proof.
  intros Hp Hs Hlt Hin. unfold paginate, calculatePaginationBounds.
  assert (0 <= (page - 1) * pageSize) by nia.
  unfold in_int64, min_int64, max_int64 in Hin.
  rewrite (wrap64_id (page - 1)) by (unfold in_int64, min_int64, max_int64; nia).
  rewrite (wrap64_id ((page - 1) * pageSize))
    by (unfold in_int64, min_int64, max_int64; lia).
  rewrite (wrap64_id ((page - 1) * pageSize + pageSize))
    by (unfold in_int64, min_int64, max_int64; lia).
  set (start := (page - 1) * pageSize) in *.
  set (total := Z.of_nat (length l)) in *.
  destruct (Z.leb_spec total start); [lia|].
  destruct (Z.ltb_spec total (start + pageSize)).
  - destruct (Z.ltb_spec start total); [|lia].
    rewrite Z.ltb_irrefl. unfold sliceRange. fold total.
    destruct (Z.leb_spec 0 start); [|lia].
    destruct (Z.leb_spec start total); [|lia].
    rewrite Z.leb_refl. simpl. f_equal.
    rewrite !take_ge; [reflexivity| |]; rewrite length_drop; lia.
  - destruct (Z.ltb_spec start total); [|lia].
    destruct (Z.ltb_spec total (start + pageSize)); [lia|].
    unfold sliceRange. fold total.
    destruct (Z.leb_spec 0 start); [|lia].
    destruct (Z.leb_spec start (start + pageSize)); [|lia].
    destruct (Z.leb_spec (start + pageSize) total); [|lia].
    simpl. do 2 f_equal. lia.
Qed.

Lemma getPaginationParams_absent : getPaginationParams "" "" = (1, 20).
Proof. reflexivity. Qed.

Lemma parseSigned_in_int64 neg body n :
  parseSigned neg body = (n, true) -> in_int64 n.
Proof.
  unfold parseSigned. destruct body as [|c r]; [discriminate|].
  destruct (forallb isDigit (c :: r)); [|discriminate].
  destruct (in_int64b _) eqn:E; [|discriminate].
  intros [= <-]. now apply in_int64b_spec.
Qed.

Lemma ParseInt_in_int64 s n : ParseInt s = Some n -> in_int64 n.
Proof.
  unfold ParseInt, ParseIntBytes.
  destruct (list_ascii_of_string s) as [|c r]; [discriminate|].
  destruct (Ascii.eqb c "+"); [|destruct (Ascii.eqb c "-")];
    (destruct (parseSigned _ _) as [n0 []] eqn:E; [|discriminate]);
    intros [= <-]; eapply parseSigned_in_int64, E.
Qed.

Lemma getPaginationParams_bounds pageStr pageSizeStr :
  1 <= fst (getPaginationParams pageStr pageSizeStr) <= max_int64 /\
  1 <= snd (getPaginationParams pageStr pageSizeStr) <= maxPageSize.
Proof.
  unfold getPaginationParams, maxPageSize, defaultPageSize, Atoi, max_int64. simpl.
  split.
  - destruct (strNe pageStr ""); [|lia].
    destruct (ParseInt pageStr) as [n|] eqn:E; [|lia].
    apply ParseInt_in_int64 in E. unfold in_int64, max_int64 in E.
    destruct (Z.ltb_spec 0 n); lia.
  - destruct (strNe pageSizeStr ""); [|lia].
    destruct (ParseInt pageSizeStr) as [n|]; [|lia].
    destruct (Z.ltb_spec 0 n); [|lia].
    destruct (Z.ltb_spec 100 n); lia.
Qed.

Lemma Atoi_empty : Atoi "" = None.
Proof. reflexivity. Qed.

Lemma strNe_empty s : strNe s "" = false -> s = "".
Proof.
  unfold strNe. intros H. apply negb_false_iff in H. now apply String.eqb_eq.
Qed.

(** A positive [page_size] is used, cut down to 100. *)
Lemma getPaginationParams_pageSize pageStr pageSizeStr n :
  Atoi pageSizeStr = Some n -> 0 < n ->
  snd (getPaginationParams pageStr pageSizeStr) = Z.min n maxPageSize.
Proof.
  intros E Hn. unfold getPaginationParams, maxPageSize. simpl.
  destruct (strNe pageSizeStr "") eqn:Es.
  - rewrite E. destruct (Z.ltb_spec 0 n); [|lia].
    destruct (Z.ltb_spec 100 n); lia.
  - apply strNe_empty in Es. subst. discriminate.
Qed.

(** An absent, malformed or non-positive [page_size] gives 20. *)
Lemma getPaginationParams_pageSize_default pageStr pageSizeStr :
  (forall n, Atoi pageSizeStr = Some n -> n <= 0) ->
  snd (getPaginationParams pageStr pageSizeStr) = defaultPageSize.
Proof.
  intros H. unfold getPaginationParams. simpl.
  destruct (strNe pageSizeStr ""); [|reflexivity].
  destruct (Atoi pageSizeStr) as [n|]; [|reflexivity].
  specialize (H n eq_refl). destruct (Z.ltb_spec 0 n); [lia|reflexivity].
Qed.

(** A positive [page] is used as it is; anything else gives page 1. *)
Lemma getPaginationParams_page pageStr pageSizeStr n :
  Atoi pageStr = Some n -> 0 < n ->
  fst (getPaginationParams pageStr pageSizeStr) = n.
Proof.
  intros E Hn. unfold getPaginationParams. simpl.
  destruct (strNe pageStr "") eqn:Es.
  - rewrite E. destruct (Z.ltb_spec 0 n); [reflexivity|lia].
  - apply strNe_empty in Es. subst. discriminate.
Qed.

Lemma queryMetadata_total records flt page pageSize items total :
  queryMetadata records flt page pageSize = Some (items, total) ->
  total = Z.of_nat (length (matching records flt)).
Proof.
  unfold queryMetadata. fold (matching records flt).
  destruct (paginate _ _ _); [|discriminate].
  intros [= _ <-]. now rewrite sort_Slice_length.
Qed.

Lemma queryMetadata_out_of_range records flt page pageSize :
  in_int64 (page - 1) -> in_int64 ((page - 1) * pageSize) ->
  Z.of_nat (length (matching records flt)) <= (page - 1) * pageSize ->
  queryMetadata records flt page pageSize
    = Some ([], Z.of_nat (length (matching records flt))).
Proof.
  intros H1 H2 H. unfold queryMetadata. fold (matching records flt).
  rewrite paginate_out_of_range; rewrite ?sort_Slice_length; auto.
Qed.

Lemma queryMetadata_in_range records flt page pageSize :
  1 <= page -> 1 <= pageSize ->
  (page - 1) * pageSize < Z.of_nat (length (matching records flt)) ->
  in_int64 ((page - 1) * pageSize + pageSize) ->
  queryMetadata records flt page pageSize =
    Some (take (Z.to_nat pageSize)
            (drop (Z.to_nat ((page - 1) * pageSize)) (sortedMatching records flt)),
          Z.of_nat (length (matching records flt))).
Proof.
  intros Hp Hs Hlt Hin. unfold queryMetadata.
  fold (matching records flt). fold (sortedMatching records flt).
  rewrite paginate_in_range; auto.
  - unfold sortedMatching. now rewrite sort_Slice_length.
  - unfold sortedMatching. now rewrite sort_Slice_length.
Qed.

(** C2 (amended). Pages are numbered from 1; the page size is 20 when
    [page_size] is absent or not a positive number, and a positive one is
    cut down to 100.  For every record list, a page whose start index
    [(page-1)*pageSize] (within the int range) is at or past the number of
    matching records comes back empty with the total unchanged.  With 45
    matching records and a page size of 20, page 1 holds the first 20,
    page 3 the last 5 (records 41 to 45), page 10 none, total 45 each
    time. *)
Theorem pagination_pages :
  getPaginationParams "" "" = (1, 20) /\
  (forall pageStr pageSizeStr,
     1 <= fst (getPaginationParams pageStr pageSizeStr) /\
     1 <= snd (getPaginationParams pageStr pageSizeStr) <= 100) /\
  (forall pageStr pageSizeStr n,
     Atoi pageSizeStr = Some n -> 0 < n ->
     snd (getPaginationParams pageStr pageSizeStr) = Z.min n 100) /\
  (forall pageStr pageSizeStr,
     (forall n, Atoi pageSizeStr = Some n -> n <= 0) ->
     snd (getPaginationParams pageStr pageSizeStr) = 20) /\
  (forall records flt page pageSize,
     in_int64 (page - 1) -> in_int64 ((page - 1) * pageSize) ->
     Z.of_nat (length (matching records flt)) <= (page - 1) * pageSize ->
     queryMetadata records flt page pageSize
       = Some ([], Z.of_nat (length (matching records flt)))) /\
  (forall records flt,
     length (matching records flt) = 45%nat ->
     queryMetadata records flt 1 20
       = Some (take 20 (sortedMatching records flt), 45) /\
     length (take 20 (sortedMatching records flt)) = 20%nat /\
     queryMetadata records flt 3 20
       = Some (drop 40 (sortedMatching records flt), 45) /\
     length (drop 40 (sortedMatching records flt)) = 5%nat /\
     queryMetadata records flt 10 20 = Some ([], 45)).
Proof.
  split; [reflexivity|].
  split.
  { intros a b. pose proof (getPaginationParams_bounds a b) as H.
    unfold maxPageSize in H. lia. }
  split; [exact getPaginationParams_pageSize|].
  split; [exact getPaginationParams_pageSize_default|].
  split; [exact queryMetadata_out_of_range|].
  intros records flt H.
  assert (Hs : length (sortedMatching records flt) = 45%nat)
    by (unfold sortedMatching; now rewrite sort_Slice_length).
  split; [|split; [|split; [|split]]].
  - rewrite queryMetadata_in_range; rewrite ?H;
      try (unfold in_int64, min_int64, max_int64; lia).
    reflexivity.
  - rewrite length_take, Hs. reflexivity.
  - rewrite queryMetadata_in_range; rewrite ?H;
      try (unfold in_int64, min_int64, max_int64; lia).
    change (Z.to_nat ((3 - 1) * 20)) with 40%nat.
    change (Z.to_nat 20) with 20%nat.
    rewrite take_ge; [reflexivity|]. rewrite length_drop, Hs. lia.
  - rewrite length_drop, Hs. reflexivity.
  - rewrite queryMetadata_out_of_range; rewrite ?H;
      try (unfold in_int64, min_int64, max_int64; lia).
    reflexivity.
Qed.

(** The theorem at work: a page size of 500 is cut to 100, page 2 of a
    single record is empty, and the third page of 45 records has five. *)
Lemma pagination_pages_witness :
  snd (getPaginationParams "2" "500") = 100 /\
  snd (getPaginationParams "2" "abc") = 20 /\
  queryMetadata [zeroMetadata] zeroFilter 2 20 = Some ([], 1) /\
  length (drop 40 (sortedMatching (replicate 45 zeroMetadata) zeroFilter)) = 5%nat.
Proof.
  destruct pagination_pages as (_ & _ & Hclamp & Hdef & Hout & H45).
  split; [|split; [|split]].
  - apply (Hclamp "2" "500" 500); [reflexivity|lia].
  - apply (Hdef "2" "abc"). intros n E. vm_compute in E. discriminate E.
  - apply (Hout [zeroMetadata] zeroFilter 2 20).
    + unfold in_int64, min_int64, max_int64. lia.
    + unfold in_int64, min_int64, max_int64. lia.
    + simpl. lia.
  - apply (H45 (replicate 45 zeroMetadata) zeroFilter). reflexivity.
Defined.

(** C2, as stated, fails on page 3: with 45 matching records and a page
    size of 20 the start index 40 is below 45, and the page holds the five
    records left, it is not empty. *)
Lemma page_three_of_45_is_not_empty :
  calculatePaginationBounds 3 20 45 = (40, 45) /\
  queryMetadata (replicate 45 zeroMetadata) zeroFilter 3 20
    = Some (replicate 5 zeroMetadata, 45) /\
  queryMetadata (replicate 45 zeroMetadata) zeroFilter 3 20 <> Some ([], 45).
Proof.
  split; [reflexivity|].
  split; [vm_compute; reflexivity|].
  vm_compute. discriminate.
Qed.

(** The largest page number wraps the start index around, and the slice
    expression panics. *)
Example queryMetadata_last_page_panics :
  calculatePaginationBounds 9223372036854775807 20 1 = (-40, -20) /\
  queryMetadata [zeroMetadata] zeroFilter 9223372036854775807 20 = None.
Proof. split; reflexivity. Qed.

(** ** The sidecar naming convention *)

Lemma bytesOf_app a b : bytesOf (a +:+ b) = (bytesOf a ++ bytesOf b)%list.
Proof. unfold bytesOf. induction a as [|c a IH]; simpl; [reflexivity|now rewrite IH]. Qed.

Lemma bytesOf_inj a b : bytesOf a = bytesOf b -> a = b.
Proof.
  unfold bytesOf. intros H.
  rewrite <- (string_of_list_ascii_of_string a), H.
  apply string_of_list_ascii_of_string.
Qed.

Lemma span_run p run rest :
  forallb p run = true ->
  match rest with [] => True | c :: _ => p c = false end ->
  span p (run ++ rest) = (run, rest).
Proof.
  intros Hrun Hrest. induction run as [|c run IH]; simpl.
  - destruct rest as [|c r]; [reflexivity|]. simpl. now rewrite Hrest.
  - simpl in Hrun. apply andb_true_iff in Hrun as [Hc Hrun].
    rewrite Hc, IH by assumption. reflexivity.
Qed.

Lemma span_inv p s run rest :
  span p s = (run, rest) ->
  s = (run ++ rest)%list /\ forallb p run = true /\
  match rest with [] => True | c :: _ => p c = false end.
Proof.
  revert run rest. induction s as [|c s IH]; intros run rest; simpl.
  - intros [= <- <-]. auto.
  - destruct (p c) eqn:Hc.
    + destruct (span p s) as [run' rest'].
      intros [= <- <-]. destruct (IH _ _ eq_refl) as (-> & Hr & Ht).
      simpl. rewrite Hc. auto.
    + intros [= <- <-]. simpl. auto.
Qed.

Lemma stripPrefix_app lit s : stripPrefix lit (lit ++ s) = Some s.
Proof.
  induction lit as [|a lit IH]; simpl; [now destruct s|].
  now rewrite Ascii.eqb_refl.
Qed.

Lemma stripPrefix_inv lit s r : stripPrefix lit s = Some r -> s = (lit ++ r)%list.
Proof.
  revert s. induction lit as [|a lit IH]; intros s; simpl.
  - destruct s; now intros [= <-].
  - destruct s as [|c s]; [discriminate|].
    destruct (Ascii.eqb_spec a c) as [->|]; [|discriminate].
    intros H. now rewrite (IH _ H).
Qed.

Lemma matchHere_complete ds nd :
  ds <> [] -> forallb isDigit ds = true ->
  nd <> [] -> forallb isAlnum nd = true ->
  snapshotRegex_matchHere (sidecarBytes ds nd) = Some (ds, nd).
Proof.
  intros Hds Hd Hnd Ha. unfold snapshotRegex_matchHere, sidecarBytes.
  rewrite stripPrefix_app.
  rewrite (span_run isDigit ds) by (auto; reflexivity).
  destruct ds as [|d ds]; [congruence|].
  rewrite (span_run isAlnum nd) by (auto; reflexivity).
  destruct nd as [|n nd]; [congruence|].
  reflexivity.
Qed.

Lemma matchHere_sound s ds nd :
  snapshotRegex_matchHere s = Some (ds, nd) ->
  s = sidecarBytes ds nd /\
  ds <> [] /\ forallb isDigit ds = true /\
  nd <> [] /\ forallb isAlnum nd = true.
Proof.
  unfold snapshotRegex_matchHere, sidecarBytes.
  destruct (stripPrefix (bytesOf "snapshot-") s) as [r0|] eqn:E0; [|discriminate].
  apply stripPrefix_inv in E0 as ->.
  destruct (span isDigit r0) as [ds' r1] eqn:E1.
  apply span_inv in E1 as (-> & Hd & _).
  destruct ds' as [|d ds']; [discriminate|].
  destruct r1 as [|c r2]; [discriminate|].
  destruct (Ascii.eqb_spec c "-") as [->|N].
  2:{ destruct c as [[] [] [] [] [] [] [] []]; try discriminate. congruence. }
  cbv match beta.
  destruct (span isAlnum r2) as [nd' r3] eqn:E2.
  apply span_inv in E2 as (-> & Ha & _).
  destruct nd' as [|n nd']; [discriminate|].
  destruct (stripPrefix (bytesOf ".json") r3) as [[|]|] eqn:E3; try discriminate.
  apply stripPrefix_inv in E3 as ->. rewrite app_nil_r.
  intros [= <- <-]. repeat split; auto; discriminate.
Qed.

Lemma forallb_rev_true {A} (p : A -> bool) l :
  forallb p l = true -> forallb p (rev l) = true.
Proof.
  rewrite !forallb_forall. intros H x Hx. apply H. now apply in_rev.
Qed.

Lemma rev_sidecarBytes pre ds nd :
  rev (pre ++ sidecarBytes ds nd) =
  (rev (bytesOf ".json") ++ rev nd ++
     "-"%char :: rev ds ++ rev (bytesOf "snapshot-") ++ rev pre)%list.
Proof.
  unfold sidecarBytes.
  generalize (bytesOf "snapshot-") (bytesOf ".json"). intros a b.
  change ("-"%char :: nd ++ b)%list with (["-"%char] ++ nd ++ b)%list.
  rewrite !rev_app_distr, <- !app_assoc. reflexivity.
Qed.

(** However much comes before it, a sidecar name fixes its two groups. *)
Lemma groupsFromEnd_shape pre ds nd :
  forallb isDigit ds = true -> forallb isAlnum nd = true ->
  groupsFromEnd (pre ++ sidecarBytes ds nd) = Some (ds, nd).
Proof.
  intros Hd Ha. unfold groupsFromEnd.
  rewrite rev_sidecarBytes, stripPrefix_app.
  rewrite (span_run isAlnum (rev nd))
    by (auto using forallb_rev_true; reflexivity).
  rewrite Ascii.eqb_refl.
  rewrite (span_run isDigit (rev ds))
    by (auto using forallb_rev_true; reflexivity).
  now rewrite !rev_involutive.
Qed.

Lemma findSubmatchBytes_complete pre ds nd :
  ds <> [] -> forallb isDigit ds = true ->
  nd <> [] -> forallb isAlnum nd = true ->
  exists whole, findSubmatchBytes (pre ++ sidecarBytes ds nd) = [whole; ds; nd].
Proof.
  intros Hds Hd Hnd Ha. induction pre as [|c pre IH].
  - simpl app. exists (sidecarBytes ds nd).
    destruct (sidecarBytes ds nd) as [|c s] eqn:E; [discriminate|].
    simpl. rewrite <- E, matchHere_complete by assumption. now rewrite E.
  - simpl app. simpl findSubmatchBytes.
    destruct (snapshotRegex_matchHere (c :: pre ++ sidecarBytes ds nd))
      as [[ds' nd']|] eqn:E; [|exact IH].
    exists (c :: pre ++ sidecarBytes ds nd)%list.
    apply matchHere_sound in E as (E & _ & Hd' & _ & Ha').
    pose proof (groupsFromEnd_shape [] ds' nd' Hd' Ha') as G1.
    pose proof (groupsFromEnd_shape (c :: pre) ds nd Hd Ha) as G2.
    simpl app in G1, G2. rewrite <- E, G2 in G1. now inversion G1.
Qed.

Lemma findSubmatchBytes_sound s :
  findSubmatchBytes s = [] \/
  exists pre ds nd,
    s = (pre ++ sidecarBytes ds nd)%list /\
    ds <> [] /\ forallb isDigit ds = true /\
    nd <> [] /\ forallb isAlnum nd = true /\
    findSubmatchBytes s = [sidecarBytes ds nd; ds; nd].
Proof.
  induction s as [|c s IH].
  - left. reflexivity.
  - simpl findSubmatchBytes.
    destruct (snapshotRegex_matchHere (c :: s)) as [[ds nd]|] eqn:E.
    + right. exists [], ds, nd.
      apply matchHere_sound in E as (E & H).
      simpl app. rewrite <- E. intuition.
    + destruct IH as [IH|(pre & ds & nd & -> & H)]; [now left|].
      right. exists (c :: pre), ds, nd. simpl app. intuition.
Qed.

(** ** Decimal numbers *)

Lemma isDigit_digitVal c : isDigit c = true -> 0 <= digitVal c <= 9.
Proof.
  unfold isDigit, digitVal. intros H.
  apply andb_true_iff in H as [H1 H2].
  apply Nat.leb_le in H1, H2. lia.
Qed.

Lemma digitsValueFrom_nonneg ds acc :
  forallb isDigit ds = true -> 0 <= acc -> acc <= digitsValueFrom acc ds.
Proof.
  revert acc. induction ds as [|d ds IH]; intros acc H Hacc; simpl; [lia|].
  simpl in H. apply andb_true_iff in H as [Hd H].
  pose proof (isDigit_digitVal d Hd).
  specialize (IH (acc * 10 + digitVal d) H ltac:(lia)). lia.
Qed.

Lemma isDigit_not_sign c : isDigit c = true ->
  Ascii.eqb c "+" = false /\ Ascii.eqb c "-" = false.
Proof.
  intros H. split; destruct (Ascii.eqb_spec c "+"), (Ascii.eqb_spec c "-");
    subst; auto; discriminate.
Qed.

(** [ParseInt] on a run of digits: its value, unless that is past the
    largest int64. *)
Lemma ParseInt_digits N :
  allDigits N ->
  ParseInt N = if decimal N <=? max_int64 then Some (decimal N) else None.
Proof.
  intros [HN Hd]. unfold ParseInt, ParseIntBytes, decimal.
  fold (bytesOf N). destruct (bytesOf N) as [|c r] eqn:E.
  { exfalso. apply HN. apply bytesOf_inj. now rewrite E. }
  pose proof Hd as Hd'. simpl in Hd'. apply andb_true_iff in Hd' as [Hc _].
  destruct (isDigit_not_sign c Hc) as [-> ->].
  unfold parseSigned. rewrite Hd.
  pose proof (digitsValueFrom_nonneg (c :: r) 0 Hd ltac:(lia)) as Hn.
  fold (digitsValue (c :: r)) in Hn.
  unfold in_int64b.
  destruct (Z.leb_spec min_int64 (digitsValue (c :: r))) as [_|Hm];
    [|unfold min_int64 in Hm; lia].
  simpl. now destruct (digitsValue (c :: r) <=? max_int64).
Qed.

(** ** Decoding sidecar keys *)

Lemma bytesOf_nonempty s : s <> "" -> bytesOf s <> [].
Proof. intros H E. apply H. apply bytesOf_inj. now rewrite E. Qed.

Lemma bytesOf_sidecar pre N node :
  bytesOf (pre +:+ sidecarName N node)
  = (bytesOf pre ++ sidecarBytes (bytesOf N) (bytesOf node))%list.
Proof.
  unfold sidecarName, sidecarBytes. now rewrite !bytesOf_app.
Qed.

Lemma FindStringSubmatch_sidecar pre N node :
  allDigits N -> allAlnum node ->
  exists whole,
    snapshotRegex_FindStringSubmatch (pre +:+ sidecarName N node)
    = [whole; N; node].
Proof.
  intros [HN Hd] [Hn Ha]. unfold snapshotRegex_FindStringSubmatch.
  rewrite bytesOf_sidecar.
  destruct (findSubmatchBytes_complete (bytesOf pre) (bytesOf N) (bytesOf node))
    as [whole E]; auto using bytesOf_nonempty.
  rewrite E. exists (string_of_list_ascii whole). simpl.
  unfold bytesOf. now rewrite !string_of_list_ascii_of_string.
Qed.

Lemma endsInSidecarName_bytes key pre ds nd :
  bytesOf key = (pre ++ sidecarBytes ds nd)%list ->
  ds <> [] -> forallb isDigit ds = true ->
  nd <> [] -> forallb isAlnum nd = true ->
  endsInSidecarName key.
Proof.
  intros E Hds Hd Hnd Ha.
  exists (string_of_list_ascii pre), (string_of_list_ascii ds),
         (string_of_list_ascii nd).
  assert (B : forall l, bytesOf (string_of_list_ascii l) = l)
    by (intros; apply list_ascii_of_string_of_list_ascii).
  repeat split.
  - intros H. apply Hds. rewrite <- (B ds), H. reflexivity.
  - now rewrite B.
  - intros H. apply Hnd. rewrite <- (B nd), H. reflexivity.
  - now rewrite B.
  - apply bytesOf_inj. now rewrite bytesOf_sidecar, !B.
Qed.

(** The pattern accepts exactly the keys that end in a sidecar name. *)
Lemma isSnapshotMetadataFile_iff key :
  isSnapshotMetadataFile key = true <-> endsInSidecarName key.
Proof.
  unfold isSnapshotMetadataFile, snapshotRegex_MatchString. split.
  - destruct (findSubmatchBytes_sound (bytesOf key))
      as [->|(pre & ds & nd & E & Hds & Hd & Hnd & Ha & _)]; [discriminate|].
    intros _. eapply endsInSidecarName_bytes; eauto.
  - intros (pre & N & node & [HN Hd] & [Hn Ha] & ->).
    rewrite bytesOf_sidecar.
    destruct (findSubmatchBytes_complete (bytesOf pre) (bytesOf N) (bytesOf node))
      as [whole ->]; auto using bytesOf_nonempty.
Qed.

Lemma extractSlotAndNode_sidecar pre N node :
  allDigits N -> allAlnum node ->
  extractSlotAndNode (pre +:+ sidecarName N node)
  = if decimal N <=? max_int64 then (decimal N, node) else (0, "").
Proof.
  intros HN Hn. unfold extractSlotAndNode.
  destruct (FindStringSubmatch_sidecar pre N node HN Hn) as [whole ->].
  simpl. rewrite (ParseInt_digits N HN).
  now destruct (decimal N <=? max_int64).
Qed.

Lemma extractSlotAndNode_other key :
  ~ endsInSidecarName key -> extractSlotAndNode key = (0, "").
Proof.
  intros H. unfold extractSlotAndNode, snapshotRegex_FindStringSubmatch.
  destruct (findSubmatchBytes_sound (bytesOf key))
    as [->|(pre & ds & nd & E & Hds & Hd & Hnd & Ha & _)]; [reflexivity|].
  exfalso. apply H. eapply endsInSidecarName_bytes; eauto.
Qed.

Lemma HasSuffix_cons c s suffix :
  HasSuffix (String c s) suffix
  = if String.eqb (String c s) suffix then true else HasSuffix s suffix.
Proof. reflexivity. Qed.

Lemma HasSuffix_app a b suffix :
  HasSuffix b suffix = true -> HasSuffix (a +:+ b) suffix = true.
Proof.
  intros H. induction a as [|c a IH]; [exact H|].
  change (String c a +:+ b) with (String c (a +:+ b)).
  rewrite HasSuffix_cons, IH. now destruct (String.eqb _ _).
Qed.

Lemma HasSuffix_sidecar pre N node :
  HasSuffix (pre +:+ sidecarName N node) ".json" = true.
Proof.
  unfold sidecarName. do 5 apply HasSuffix_app. reflexivity.
Qed.

(** C3 (amended). Every key that ends in [snapshot-<N>-<node>.json], [N]
    a digit string and [node] alphanumeric, whatever comes before it, is a
    metadata candidate; [extractSlotAndNode] returns exactly ([N] as an
    integer, [node]) when [N] is at most the largest int64, and [(0, "")]
    when [N] is larger.  For every key that does not end in such a name
    (wrong delimiter, missing node, [.tar.gz] suffix, unrelated [.json])
    it returns [(0, "")]. *)
Theorem sidecar_key_decoding :
  (forall pre N node size modified etag,
     allDigits N -> allAlnum node ->
     isSnapshotMetadataFile (pre +:+ sidecarName N node) = true /\
     isMetadataCandidate
       (listedObject (pre +:+ sidecarName N node) size modified etag) = true /\
     (decimal N <= max_int64 ->
      extractSlotAndNode (pre +:+ sidecarName N node) = (decimal N, node)) /\
     (max_int64 < decimal N ->
      extractSlotAndNode (pre +:+ sidecarName N node) = (0, ""))) /\
  (forall key,
     ~ endsInSidecarName key ->
     isSnapshotMetadataFile key = false /\ extractSlotAndNode key = (0, "")) /\
  extractSlotAndNode "snapshot_123456789_Node.json" = (0, "") /\
  extractSlotAndNode "snapshot-123456789.json" = (0, "") /\
  extractSlotAndNode "snapshot-123456789-Node.tar.gz" = (0, "") /\
  extractSlotAndNode "metadata.json" = (0, "").
Proof.
  split; [|split].
  - intros pre N node size modified etag HN Hn.
    assert (M : isSnapshotMetadataFile (pre +:+ sidecarName N node) = true).
    { apply isSnapshotMetadataFile_iff. now exists pre, N, node. }
    split; [exact M|]. split.
    { unfold isMetadataCandidate, listedObject. simpl.
      now rewrite HasSuffix_sidecar, M. }
    rewrite extractSlotAndNode_sidecar by assumption.
    split; intros H.
    + destruct (Z.leb_spec (decimal N) max_int64); [reflexivity|lia].
    + destruct (Z.leb_spec (decimal N) max_int64); [lia|reflexivity].
  - intros key H. split; [|now apply extractSlotAndNode_other].
    destruct (isSnapshotMetadataFile key) eqn:E; [|reflexivity].
    exfalso. now apply H, isSnapshotMetadataFile_iff.
  - repeat split; vm_compute; reflexivity.
Qed.

(** The theorem at work on the key of the repository's own test, and on a
    key with the wrong delimiter. *)
Lemma sidecar_key_decoding_witness :
  extractSlotAndNode
    ("" +:+ sidecarName "123456789" "AutUwEtGwA2wXfH4VqvpoY87d6vQzLkG1V6EugKx8t96")
  = (123456789, "AutUwEtGwA2wXfH4VqvpoY87d6vQzLkG1V6EugKx8t96") /\
  extractSlotAndNode "snapshot_123456789_Node.json" = (0, "").
Proof.
  destruct sidecar_key_decoding as (Hshape & Hother & _).
  split.
  - apply (Hshape "" "123456789" "AutUwEtGwA2wXfH4VqvpoY87d6vQzLkG1V6EugKx8t96"
             0 0 "").
    + split; [discriminate|reflexivity].
    + split; [discriminate|reflexivity].
    + vm_compute. discriminate.
  - apply (Hother "snapshot_123456789_Node.json").
    intros H. apply isSnapshotMetadataFile_iff in H. vm_compute in H.
    discriminate H.
Defined.

(** C3, as stated, fails when [N] does not fit an int64: the key below has
    the sidecar shape, with [N] the digit string of 2^63, and the result is
    [(0, "")], not ([2^63], ["a"]). *)
Lemma sidecar_slot_past_int64 :
  allDigits "9223372036854775808" /\ allAlnum "a" /\
  sidecarName "9223372036854775808" "a" = "snapshot-9223372036854775808-a.json" /\
  decimal "9223372036854775808" = 9223372036854775808 /\
  extractSlotAndNode "snapshot-9223372036854775808-a.json" = (0, "") /\
  extractSlotAndNode "snapshot-9223372036854775808-a.json"
    <> (decimal "9223372036854775808", "a").
Proof.
  split; [split; [discriminate|reflexivity]|].
  split; [split; [discriminate|reflexivity]|].
  split; [reflexivity|].
  split; [reflexivity|].
  split; [vm_compute; reflexivity|].
  vm_compute. discriminate.
Qed.

(** ** The order of the returned records *)

Lemma StronglySorted_impl {A} (R R' : A -> A -> Prop) l :
  (forall a b, R a b -> R' a b) -> StronglySorted R l -> StronglySorted R' l.
Proof.
  intros H. induction 1 as [|x l Hs IH Hall]; constructor; [exact IH|].
  eapply Forall_impl; [exact Hall|]. auto.
Qed.

Lemma timestampLess_stamped a b :
  IsZero (Timestamp a) = false -> IsZero (Timestamp b) = false ->
  timestampLess a b = After (Timestamp a) (Timestamp b).
Proof. unfold timestampLess. now intros -> ->. Qed.

Lemma timestampLess_unstamped a b :
  IsZero (Timestamp a) = true \/ IsZero (Timestamp b) = true ->
  timestampLess a b = (Slot b <? Slot a).
Proof.
  unfold timestampLess. intros [-> | ->]; [reflexivity|].
  now rewrite orb_true_r.
Qed.

(** When every record has a timestamp, the slice comes out newest first. *)
Lemma sort_all_stamped l :
  (forall m, m ∈ l -> IsZero (Timestamp m) = false) ->
  StronglySorted (fun a b => Timestamp b <= Timestamp a)
    (sort_Slice timestampLess l).
Proof.
  intros H.
  rewrite (sort_Slice_ext timestampLess
             (fun a b => Timestamp b <? Timestamp a)).
  - eapply StronglySorted_impl; [|apply sort_Slice_sorted].
    + intros a b E. simpl in E. apply Z.ltb_ge in E. exact E.
    + intros a b E. apply Z.ltb_lt in E. apply Z.ltb_ge. lia.
    + intros a b c E1 E2. apply Z.ltb_ge in E1, E2. apply Z.ltb_ge. lia.
  - intros a b Ha Hb. now rewrite timestampLess_stamped by auto.
Qed.

(** When none has, it comes out highest slot first. *)
Lemma sort_none_stamped l :
  (forall m, m ∈ l -> IsZero (Timestamp m) = true) ->
  StronglySorted (fun a b => Slot b <= Slot a) (sort_Slice timestampLess l).
Proof.
  intros H.
  rewrite (sort_Slice_ext timestampLess (fun a b => Slot b <? Slot a)).
  - eapply StronglySorted_impl; [|apply sort_Slice_sorted].
    + intros a b E. simpl in E. apply Z.ltb_ge in E. exact E.
    + intros a b E. apply Z.ltb_lt in E. apply Z.ltb_ge. lia.
    + intros a b c E1 E2. apply Z.ltb_ge in E1, E2. apply Z.ltb_ge. lia.
  - intros a b Ha Hb. rewrite timestampLess_unstamped by auto. reflexivity.
Qed.

(** A page is a stretch of the sorted list. *)
Lemma paginate_stretch l page pageSize items :
  paginate l page pageSize = Some items ->
  exists before after, l = (before ++ items ++ after)%list.
Proof.
  unfold paginate.
  destruct (calculatePaginationBounds _ _ _) as [start end_].
  destruct (start <? Z.of_nat (length l)).
  - unfold sliceRange. destruct (_ && _)%bool; [|discriminate].
    intros [= <-].
    exists (take (Z.to_nat start) l).
    eexists (drop _ (drop (Z.to_nat start) l)).
    now rewrite !take_drop.
  - intros [= <-]. exists [], l. reflexivity.
Qed.

Lemma queryMetadata_stretch records flt page pageSize items total :
  queryMetadata records flt page pageSize = Some (items, total) ->
  exists before after,
    sortedMatching records flt = (before ++ items ++ after)%list.
Proof.
  unfold queryMetadata. fold (matching records flt).
  fold (sortedMatching records flt).
  destruct (paginate _ _ _) as [items'|] eqn:E; [|discriminate].
  intros [= <- _]. eapply paginate_stretch, E.
Qed.

(** C4 (amended). The comparator puts the later of two records first when
    both carry a non-zero timestamp, and orders a pair by slot descending
    when at least one timestamp is zero.  When every matching record
    carries a non-zero timestamp the returned list is timestamp descending,
    and when none does it is slot descending.  In a mixed set the place of
    two timestamped records is not fixed by their timestamps alone. *)
Theorem returned_order :
  (forall a b,
     IsZero (Timestamp a) = false -> IsZero (Timestamp b) = false ->
     timestampLess a b = After (Timestamp a) (Timestamp b)) /\
  (forall a b,
     IsZero (Timestamp a) = true \/ IsZero (Timestamp b) = true ->
     timestampLess a b = (Slot b <? Slot a)) /\
  (forall records flt page pageSize items total,
     queryMetadata records flt page pageSize = Some (items, total) ->
     (forall m, m ∈ matching records flt -> IsZero (Timestamp m) = false) ->
     StronglySorted (fun a b => Timestamp b <= Timestamp a) items) /\
  (forall records flt page pageSize items total,
     queryMetadata records flt page pageSize = Some (items, total) ->
     (forall m, m ∈ matching records flt -> IsZero (Timestamp m) = true) ->
     StronglySorted (fun a b => Slot b <= Slot a) items).
Proof.
  split; [exact timestampLess_stamped|].
  split; [exact timestampLess_unstamped|].
  split.
  - intros records flt page pageSize items total E H.
    apply queryMetadata_stretch in E as (before & after & E).
    pose proof (sort_all_stamped (matching records flt) H) as S.
    fold (sortedMatching records flt) in S. rewrite E in S.
    eapply StronglySorted_app_1_l, StronglySorted_app_1_r, S.
  - intros records flt page pageSize items total E H.
    apply queryMetadata_stretch in E as (before & after & E).
    pose proof (sort_none_stamped (matching records flt) H) as S.
    fold (sortedMatching records flt) in S. rewrite E in S.
    eapply StronglySorted_app_1_l, StronglySorted_app_1_r, S.
Qed.

(** The theorem at work: two timestamped records listed oldest first come
    back newest first. *)
Lemma returned_order_witness :
  timestampLess (stamped 1 (Unix 200)) (stamped 2 (Unix 100)) = true /\
  StronglySorted (fun a b => Timestamp b <= Timestamp a)
    [stamped 2 (Unix 200); stamped 1 (Unix 100)].
Proof.
  destruct returned_order as (Hcmp & _ & Hsorted & _).
  split.
  - rewrite (Hcmp (stamped 1 (Unix 200)) (stamped 2 (Unix 100)));
      reflexivity.
  - apply (Hsorted [stamped 1 (Unix 100); stamped 2 (Unix 200)] zeroFilter
             1 20 [stamped 2 (Unix 200); stamped 1 (Unix 100)] 2).
    + reflexivity.
    + intros m Hm. change (matching _ _)
        with [stamped 1 (Unix 100); stamped 2 (Unix 200)] in Hm.
      apply elem_of_cons in Hm as [->|Hm]; [reflexivity|].
      apply elem_of_cons in Hm as [->|Hm]; [reflexivity|].
      now apply elem_of_nil in Hm.
Defined.

(** C4, as stated, fails on a mixed set.  The three sidecars of
    [mixedBucket] come back in listing order: the first and the third both
    carry a timestamp, the third the later one, and the third is last.  The
    record between them has no timestamp and a slot between theirs, and the
    comparator never compares the two timestamps. *)
Lemma mixed_set_later_timestamp_last :
  (exists a z b,
     ListMetadata mixedBucket zeroFilter "" "" = RespItems [a; z; b] 3 /\
     IsZero (Timestamp a) = false /\ IsZero (Timestamp b) = false /\
     After (Timestamp b) (Timestamp a) = true) /\
  queryMetadata [stamped 9 1; stamped 5 0; stamped 1 2] zeroFilter 1 20
    = Some ([stamped 9 1; stamped 5 0; stamped 1 2], 3).
Proof.
  split; [|vm_compute; reflexivity].
  eexists _, _, _. split; [vm_compute; reflexivity|].
  repeat split.
Qed.

(** ** Filtering *)

Lemma strNe_true a b : strNe a b = true <-> a <> b.
Proof. unfold strNe. rewrite negb_true_iff. apply String.eqb_neq. Qed.

Lemma strNe_false a b : strNe a b = false <-> a = b.
Proof. unfold strNe. rewrite negb_false_iff. apply String.eqb_eq. Qed.

Lemma stringCheck want have :
  strNe want "" && strNe have want = false <-> passesString want have.
Proof.
  unfold passesString. rewrite andb_false_iff, !strNe_false. tauto.
Qed.

Lemma searchCheck m f :
  (if strNe (fSearchTerm f) "" then
     if negb (Contains (ToLower (SolanaVersion m)) (ToLower (fSearchTerm f))) &&
        negb (Contains (ToLower (Status m)) (ToLower (fSearchTerm f))) &&
        negb (Contains (ToLower (UploadedBy m)) (ToLower (fSearchTerm f))) &&
        negb (Contains (ToLower (Node m)) (ToLower (fSearchTerm f))) &&
        negb (Contains (ToLower (Hash m)) (ToLower (fSearchTerm f))) &&
        negb (Contains (ToLower (FileName m)) (ToLower (fSearchTerm f)))
     then false else true
   else true) = true <-> passesSearch m f.
Proof.
  unfold passesSearch.
  destruct (strNe (fSearchTerm f) "") eqn:E.
  - apply strNe_true in E.
    set (t := ToLower (fSearchTerm f)).
    split.
    + intros H. right.
      destruct (Contains (ToLower (SolanaVersion m)) t) eqn:C1;
        [eexists; split; [|exact C1]; repeat constructor|].
      destruct (Contains (ToLower (Status m)) t) eqn:C2;
        [eexists; split; [|exact C2]; repeat constructor|].
      destruct (Contains (ToLower (UploadedBy m)) t) eqn:C3;
        [eexists; split; [|exact C3]; repeat constructor|].
      destruct (Contains (ToLower (Node m)) t) eqn:C4;
        [eexists; split; [|exact C4]; repeat constructor|].
      destruct (Contains (ToLower (Hash m)) t) eqn:C5;
        [eexists; split; [|exact C5]; repeat constructor|].
      destruct (Contains (ToLower (FileName m)) t) eqn:C6;
        [eexists; split; [|exact C6]; repeat constructor|].
      discriminate H.
    + intros [H|(field & Hin & Hc)]; [contradiction|].
      repeat (apply elem_of_cons in Hin as [->|Hin];
              [rewrite Hc; simpl; rewrite ?andb_false_r; reflexivity|]).
      now apply elem_of_nil in Hin.
  - apply strNe_false in E. tauto.
Qed.

Lemma if_reject (c r : bool) :
  (if c then false else r) = true <-> c = false /\ r = true.
Proof. destruct c; intuition discriminate. Qed.

Lemma minSlotCheck lo slot :
  (0 <? lo) && (slot <? lo) = false <-> lo <= 0 \/ lo <= slot.
Proof. rewrite andb_false_iff, !Z.ltb_ge. tauto. Qed.

Lemma maxSlotCheck hi slot :
  (0 <? hi) && (hi <? slot) = false <-> hi <= 0 \/ slot <= hi.
Proof. rewrite andb_false_iff, !Z.ltb_ge. tauto. Qed.

Lemma startTimeCheck start t :
  negb (IsZero start) && Before t start = false <-> start = 0 \/ start <= t.
Proof.
  unfold IsZero, Before.
  rewrite andb_false_iff, negb_false_iff, Z.eqb_eq, Z.ltb_ge. tauto.
Qed.

Lemma endTimeCheck stop t :
  negb (IsZero stop) && After t stop = false <-> stop = 0 \/ t <= stop.
Proof.
  unfold IsZero, After.
  rewrite andb_false_iff, negb_false_iff, Z.eqb_eq, Z.ltb_ge. tauto.
Qed.

(** A record is kept exactly when it passes every field of the filter. *)
Lemma matchesFilter_iff m f :
  matchesFilter m f = true <-> passesEveryField m f.
Proof.
  unfold matchesFilter, passesEveryField.
  rewrite !if_reject, !stringCheck, minSlotCheck, maxSlotCheck,
    startTimeCheck, endTimeCheck, searchCheck.
  tauto.
Qed.

Lemma matchesFilter_zero m : matchesFilter m zeroFilter = true.
Proof. reflexivity. Qed.

Lemma matching_idempotent records f :
  matching (matching records f) f = matching records f.
Proof.
  unfold matching. induction records as [|m records IH]; simpl; [reflexivity|].
  destruct (matchesFilter m f) eqn:E; simpl; rewrite ?E, IH; reflexivity.
Qed.

Lemma matching_zero records : matching records zeroFilter = records.
Proof.
  unfold matching. induction records as [|m records IH]; simpl; [reflexivity|].
  now rewrite IH.
Qed.

Lemma matching_elem m records f :
  m ∈ matching records f <-> m ∈ records /\ passesEveryField m f.
Proof.
  unfold matching. rewrite <- matchesFilter_iff.
  rewrite !list_elem_of_In, filter_In. tauto.
Qed.

(** C5 (amended). Filtering is conjunctive and idempotent: a record is kept
    if and only if it passes every field of the filter that is set: the
    non-empty string fields by exact equality, minSlot and maxSlot as
    inclusive bounds ignored when zero or negative, startTime and endTime
    as inclusive bounds ignored when they are the zero instant, the search
    term as a case-insensitive substring of version, status, uploader,
    node, hash or file name.  Applying a filter twice gives what applying
    it once gives, and the all-empty filter keeps every record. *)
Theorem filter_conjunctive_idempotent :
  (forall m f, matchesFilter m f = true <-> passesEveryField m f) /\
  (forall records f m,
     m ∈ matching records f <-> m ∈ records /\ passesEveryField m f) /\
  (forall records f, matching (matching records f) f = matching records f) /\
  (forall m, matchesFilter m zeroFilter = true) /\
  (forall records, matching records zeroFilter = records).
Proof.
  split; [exact matchesFilter_iff|].
  split; [intros; apply matching_elem|].
  split; [exact matching_idempotent|].
  split; [exact matchesFilter_zero|exact matching_zero].
Qed.

(** The theorem at work on the records of the mixed sample, filtered for a
    slot of at least 5. *)
Lemma filter_conjunctive_idempotent_witness :
  passesEveryField (stamped 9 1)
    {| fSolanaVersion := ""; fSolanaFeatureSet := 0; fStatus := "";
       fUploadedBy := ""; fNode := ""; fSlotRange := ""; fStartTime := 0;
       fEndTime := 0; fMinSlot := 5; fMaxSlot := 0; fSearchTerm := "";
       fPage := 0; fPageSize := 0 |} /\
  matching [stamped 9 1; stamped 5 0; stamped 1 2] zeroFilter
    = [stamped 9 1; stamped 5 0; stamped 1 2].
Proof.
  destruct filter_conjunctive_idempotent as (Hiff & _ & _ & _ & Hzero).
  split.
  - apply Hiff. reflexivity.
  - apply Hzero.
Defined.

(** C5, as stated, fails in two places.  A negative maxSlot is not zero,
    yet the handler ignores it: the record with slot 5 is kept though 5 is
    above the bound -1.  And the handler also applies the time bounds: a
    record without a timestamp passes every field the claim lists of a
    filter that only sets startTime, and is dropped. *)
Lemma filter_not_as_claimed :
  (matchesFilter (stamped 5 0) negativeMaxSlotFilter = true /\
   ~ passesAsClaimed (stamped 5 0) negativeMaxSlotFilter) /\
  (passesAsClaimed (stamped 5 0) startTimeFilter /\
   matchesFilter (stamped 5 0) startTimeFilter = false).
Proof.
  split; split.
  - reflexivity.
  - unfold passesAsClaimed. simpl. lia.
  - unfold passesAsClaimed, passesString, passesSearch. simpl.
    repeat split; auto; lia.
  - reflexivity.
Qed.

(** ** The order of the version facet *)

Lemma versionLess_numeric a b x1 x2 x3 ra y1 y2 y3 rb a1 a2 a3 b1 b2 b3 :
  Split a "." = x1 :: x2 :: x3 :: ra ->
  Split b "." = y1 :: y2 :: y3 :: rb ->
  Atoi x1 = Some a1 -> Atoi x2 = Some a2 -> Atoi x3 = Some a3 ->
  Atoi y1 = Some b1 -> Atoi y2 = Some b2 -> Atoi y3 = Some b3 ->
  versionLess a b = tripleLess (a1, a2, a3) (b1, b2, b3).
Proof.
  intros Ea Eb X1 X2 X3 Y1 Y2 Y3.
  unfold versionLess, numericPair, tripleLess. rewrite Ea, Eb. simpl.
  rewrite X1, X2, X3, Y1, Y2, Y3.
  destruct (Z.eqb_spec a1 b1), (Z.eqb_spec a2 b2); simpl;
    repeat match goal with
           | |- context [?x <? ?y] => destruct (Z.ltb_spec x y); simpl
           end; try reflexivity; lia.
Qed.

Lemma versionLess_fallback a b :
  undecidedAt a b 0 -> undecidedAt a b 1 ->
  numericPair (Split a ".") (Split b ".") 2 = None ->
  versionLess a b = String.ltb a b.
Proof.
  unfold undecidedAt, versionLess. intros H0 H1 ->.
  destruct (numericPair _ _ 0) as [[x0 y0]|];
    destruct (numericPair _ _ 1) as [[x1 y1]|]; subst;
    rewrite ?Z.eqb_refl; reflexivity.
Qed.

Lemma three_versions_orders (l : list string) :
  l ≡ₚ ["1.10.0"; "1.9.0"; "1.2.0"] ->
  l = ["1.10.0"; "1.9.0"; "1.2.0"] \/ l = ["1.10.0"; "1.2.0"; "1.9.0"] \/
  l = ["1.9.0"; "1.10.0"; "1.2.0"] \/ l = ["1.9.0"; "1.2.0"; "1.10.0"] \/
  l = ["1.2.0"; "1.10.0"; "1.9.0"] \/ l = ["1.2.0"; "1.9.0"; "1.10.0"].
Proof.
  intros P.
  pose proof (Permutation_length P) as L.
  destruct l as [|x [|y [|z [|w l]]]]; try discriminate L.
  assert (ND : NoDup [x; y; z]).
  { rewrite P. repeat constructor; rewrite ?elem_of_cons, ?elem_of_nil;
      intuition discriminate. }
  assert (Hx : x ∈ ["1.10.0"; "1.9.0"; "1.2.0"]) by (rewrite <- P; repeat constructor).
  assert (Hy : y ∈ ["1.10.0"; "1.9.0"; "1.2.0"]) by (rewrite <- P; repeat constructor).
  assert (Hz : z ∈ ["1.10.0"; "1.9.0"; "1.2.0"]) by (rewrite <- P; repeat constructor).
  rewrite !elem_of_cons, elem_of_nil in Hx, Hy, Hz.
  rewrite !NoDup_cons, !elem_of_cons, !elem_of_nil in ND.
  destruct Hx as [->|[->|[->|[]]]], Hy as [->|[->|[->|[]]]],
    Hz as [->|[->|[->|[]]]]; tauto.
Qed.

Lemma sort_three_versions (l : list string) :
  l ≡ₚ ["1.10.0"; "1.9.0"; "1.2.0"] ->
  sort_Slice versionLess l = ["1.2.0"; "1.9.0"; "1.10.0"].
Proof.
  intros P.
  destruct (three_versions_orders l P) as [->|[->|[->|[->|[->| ->]]]]];
    vm_compute; reflexivity.
Qed.

Lemma elements_three (a b c : string) :
  a <> b -> a <> c -> b <> c ->
  elements ({[ a; b; c ]} : gset string) ≡ₚ [a; b; c].
Proof.
  intros Hab Hac Hbc. apply NoDup_Permutation.
  - apply NoDup_elements.
  - repeat constructor; rewrite ?elem_of_cons, ?elem_of_nil; intuition.
  - intros x. rewrite elem_of_elements, !elem_of_union, !elem_of_singleton,
      !elem_of_cons, elem_of_nil. tauto.
Qed.

Lemma versionLess_major a b x y :
  numericPair (Split a ".") (Split b ".") 0 = Some (x, y) -> x <> y ->
  versionLess a b = (x <? y).
Proof.
  intros E N. unfold versionLess. rewrite E.
  destruct (Z.eqb_spec x y); [contradiction|reflexivity].
Qed.

Lemma versionLess_minor a b x y :
  undecidedAt a b 0 ->
  numericPair (Split a ".") (Split b ".") 1 = Some (x, y) -> x <> y ->
  versionLess a b = (x <? y).
Proof.
  unfold undecidedAt, versionLess. intros H0 E N. rewrite E.
  destruct (numericPair _ _ 0) as [[x0 y0]|]; subst; rewrite ?Z.eqb_refl;
    cbn [negb]; destruct (Z.eqb_spec x y); try contradiction; reflexivity.
Qed.

Lemma versionLess_patch a b x y :
  undecidedAt a b 0 -> undecidedAt a b 1 ->
  numericPair (Split a ".") (Split b ".") 2 = Some (x, y) ->
  versionLess a b = (x <? y).
Proof.
  unfold undecidedAt, versionLess. intros H0 H1 ->.
  destruct (numericPair _ _ 0) as [[x0 y0]|];
    destruct (numericPair _ _ 1) as [[x1 y1]|]; subst;
    rewrite ?Z.eqb_refl; reflexivity.
Qed.

(** C6. The comparator of the version facet looks at major, then minor,
    then patch.  A major or minor component settles the comparison when it
    is a number on both sides and the two numbers differ; otherwise, also
    when it is not a number, it is passed over and the next component is
    looked at.  The patch component settles the comparison whenever it is a
    number on both sides.  The plain order of the strings is used only when
    no component settles the comparison.  So versions whose three
    components are numbers are compared by major, then minor, then patch,
    and the set {1.10.0, 1.9.0, 1.2.0}, in whatever order the map is ranged
    over, sorts to 1.2.0, 1.9.0, 1.10.0, which is not the lexicographic
    order. *)
Theorem version_facet_order :
  (forall a b x1 x2 x3 ra y1 y2 y3 rb a1 a2 a3 b1 b2 b3,
     Split a "." = x1 :: x2 :: x3 :: ra ->
     Split b "." = y1 :: y2 :: y3 :: rb ->
     Atoi x1 = Some a1 -> Atoi x2 = Some a2 -> Atoi x3 = Some a3 ->
     Atoi y1 = Some b1 -> Atoi y2 = Some b2 -> Atoi y3 = Some b3 ->
     versionLess a b = tripleLess (a1, a2, a3) (b1, b2, b3)) /\
  (forall a b,
     undecidedAt a b 0 -> undecidedAt a b 1 ->
     numericPair (Split a ".") (Split b ".") 2 = None ->
     versionLess a b = String.ltb a b) /\
  (forall l : list string,
     l ≡ₚ ["1.10.0"; "1.9.0"; "1.2.0"] ->
     sort_Slice versionLess l = ["1.2.0"; "1.9.0"; "1.10.0"]) /\
  (forall acc,
     versions acc = {[ "1.10.0"; "1.9.0"; "1.2.0" ]} ->
     foSolanaVersions (facetLists acc) = ["1.2.0"; "1.9.0"; "1.10.0"]) /\
  sort_Strings ["1.10.0"; "1.9.0"; "1.2.0"] = ["1.10.0"; "1.2.0"; "1.9.0"] /\
  (forall a b x y,
     numericPair (Split a ".") (Split b ".") 0 = Some (x, y) -> x <> y ->
     versionLess a b = (x <? y)) /\
  (forall a b x y,
     undecidedAt a b 0 ->
     numericPair (Split a ".") (Split b ".") 1 = Some (x, y) -> x <> y ->
     versionLess a b = (x <? y)) /\
  (forall a b x y,
     undecidedAt a b 0 -> undecidedAt a b 1 ->
     numericPair (Split a ".") (Split b ".") 2 = Some (x, y) ->
     versionLess a b = (x <? y)).
Proof.
  split; [exact versionLess_numeric|].
  split; [exact versionLess_fallback|].
  split; [exact sort_three_versions|].
  split.
  { intros acc E. unfold facetLists. simpl. rewrite E.
    apply sort_three_versions, elements_three; discriminate. }
  split; [vm_compute; reflexivity|].
  split; [exact versionLess_major|].
  split; [exact versionLess_minor|exact versionLess_patch].
Qed.

(** The theorem at work: 1.9.0 is before 1.10.0 as a version though after
    it as a string; two versions without numbers compare as strings; the
    three versions sort the same from another starting order; and with a
    major component that is not a number the minor components decide. *)
Lemma version_facet_order_witness :
  versionLess "1.9.0" "1.10.0" = tripleLess (1, 9, 0) (1, 10, 0) /\
  versionLess "beta" "alpha" = String.ltb "beta" "alpha" /\
  sort_Slice versionLess ["1.9.0"; "1.2.0"; "1.10.0"]
    = ["1.2.0"; "1.9.0"; "1.10.0"] /\
  foSolanaVersions
    (facetLists {| versions := {[ "1.10.0"; "1.9.0"; "1.2.0" ]};
                   statuses := ∅; uploaders := ∅; nodes := ∅;
                   slotRanges := ∅ |})
    = ["1.2.0"; "1.9.0"; "1.10.0"] /\
  versionLess "v1.9.0" "v1.10.0" = (9 <? 10).
Proof.
  destruct version_facet_order
    as (Hnum & Hfall & Hsort & Hfacet & _ & _ & Hminor & _).
  split; [|split; [|split; [|split]]].
  - apply (Hnum "1.9.0" "1.10.0" "1" "9" "0" [] "1" "10" "0" []);
      reflexivity.
  - apply (Hfall "beta" "alpha"); [exact I|exact I|reflexivity].
  - apply (Hsort ["1.9.0"; "1.2.0"; "1.10.0"]).
    apply perm_trans with ["1.9.0"; "1.10.0"; "1.2.0"].
    + apply perm_skip, perm_swap.
    + apply perm_swap.
  - apply Hfacet. reflexivity.
  - apply (Hminor "v1.9.0" "v1.10.0" 9 10); [exact I|reflexivity|lia].
Defined.

(** C6, as stated, fails where a component is not a number: the comparator
    does not turn to the order of the strings there, it passes the
    component over.  With the major component [v1] the minor components
    decide, so v1.9.0 is before v1.10.0, against the order of the strings;
    and with the major components [v2] and [v1] passed over, v2.1.0 is
    before v1.2.0. *)
Lemma nonnumeric_component_is_passed_over :
  (numericPair (Split "v1.9.0" ".") (Split "v1.10.0" ".") 0 = None /\
   versionLess "v1.9.0" "v1.10.0" = true /\
   versionLessAsClaimed "v1.9.0" "v1.10.0" = false /\
   String.ltb "v1.9.0" "v1.10.0" = false) /\
  (versionLess "v2.1.0" "v1.2.0" = true /\
   versionLessAsClaimed "v2.1.0" "v1.2.0" = false /\
   sort_Slice versionLess ["v1.2.0"; "v2.1.0"] = ["v2.1.0"; "v1.2.0"]).
Proof. vm_compute. repeat split. Qed.

(** ** The push hub *)

Lemma NewHub_ok : hubOk NewHub.
Proof. intros c Hc. simpl in Hc. now apply not_elem_of_empty in Hc. Qed.

(** One turn of the broadcast loop, on a registered client. *)
Lemma broadcastTo_spec message h c ch :
  chans h !! c = Some ch -> closed ch = false ->
  exists h',
    broadcastTo message h c = Ok h' /\
    lastFiles h' = lastFiles h /\
    (forall c', c' <> c ->
       chans h' !! c' = chans h !! c' /\ (c' ∈ clients h' <-> c' ∈ clients h)) /\
    (if isFull ch
     then ((c ∉ clients h') /\
           chans h' !! c = Some {| buf := buf ch; closed := true |})
     else ((c ∈ clients h' <-> c ∈ clients h) /\
           chans h' !! c = Some {| buf := buf ch ++ [message]; closed := false |})).
Proof.
  intros E Ho. unfold broadcastTo. rewrite E, Ho.
  destruct (isFull ch); eexists; (split; [reflexivity|]); simpl;
    (split; [reflexivity|]); split.
  - intros c' N. rewrite lookup_insert_ne by congruence.
    rewrite elem_of_difference, elem_of_singleton. tauto.
  - rewrite lookup_insert_eq, elem_of_difference, elem_of_singleton. tauto.
  - intros c' N. rewrite lookup_insert_ne by congruence. tauto.
  - rewrite lookup_insert_eq. tauto.
Qed.

Lemma broadcastLoop_spec message order : forall h,
  NoDup order -> (forall c, c ∈ order -> c ∈ clients h) -> hubOk h ->
  exists h',
    broadcastLoop message order h = Ok h' /\
    lastFiles h' = lastFiles h /\
    (forall c, c ∉ order ->
       chans h' !! c = chans h !! c /\ (c ∈ clients h' <-> c ∈ clients h)) /\
    (forall c ch, c ∈ order -> chans h !! c = Some ch ->
       if isFull ch
       then ((c ∉ clients h') /\
             chans h' !! c = Some {| buf := buf ch; closed := true |})
       else (c ∈ clients h' /\
             chans h' !! c = Some {| buf := buf ch ++ [message]; closed := false |})) /\
    hubOk h'.
Proof.
  induction order as [|c rest IH]; intros h ND Hreg Hok.
  - exists h. simpl. repeat split; auto.
    intros c ch Hc. now apply elem_of_nil in Hc.
  - apply NoDup_cons in ND as [Hc ND].
    destruct (Hok c) as (ch & E & Ho); [apply Hreg; left|].
    destruct (broadcastTo_spec message h c ch E Ho)
      as (h1 & E1 & Hl1 & Hother1 & Hc1).
    simpl. rewrite E1.
    destruct (IH h1 ND) as (h' & E' & Hl' & Hout' & Hin' & Hok').
    { intros c' Hc'. assert (c' <> c) by (intros ->; contradiction).
      apply Hother1; [assumption|]. apply Hreg. now right. }
    { intros c' Hc'. destruct (decide (c' = c)) as [->|N].
      - destruct (isFull ch); destruct Hc1 as [H1 H2]; [contradiction|].
        eexists. split; [exact H2|reflexivity].
      - destruct (Hother1 c' N) as [H1 H2]. rewrite H1. apply Hok, H2, Hc'. }
    exists h'. split; [exact E'|]. split; [congruence|]. split; [|split].
    + intros c' Hc'. rewrite not_elem_of_cons in Hc'. destruct Hc' as [N Hc'].
      destruct (Hout' c' Hc') as [H1 H2]. destruct (Hother1 c' N) as [H3 H4].
      rewrite H1, H2. tauto.
    + intros c' ch' Hc' Ech'. apply elem_of_cons in Hc' as [->|Hc'].
      * rewrite E in Ech'. injection Ech' as <-.
        destruct (Hout' c Hc) as [H1 H2]. rewrite H1.
        destruct (isFull ch); destruct Hc1 as [H3 H4]; (split; [|exact H4]).
        -- intros X. apply H3, H2, X.
        -- apply H2, H3, Hreg. left.
      * assert (c' <> c) by (intros ->; contradiction).
        apply Hin'; [assumption|]. destruct (Hother1 c') as [-> _]; assumption.
    + exact Hok'.
Qed.

(** One broadcast: the hub gets through the loop, the clients with a full
    queue are out and their queue is closed, the others have the message
    at the end of their queue, nothing else changes. *)
Lemma broadcast_step message order h :
  hubOk h -> rangesOver order h ->
  exists h',
    hubStep (Broadcast message order) h = Ok h' /\
    (forall c ch, c ∈ clients h -> chans h !! c = Some ch -> isFull ch = true ->
       (c ∉ clients h') /\
       chans h' !! c = Some {| buf := buf ch; closed := true |}) /\
    (forall c ch, c ∈ clients h -> chans h !! c = Some ch -> isFull ch = false ->
       c ∈ clients h' /\
       chans h' !! c = Some {| buf := buf ch ++ [message]; closed := false |}) /\
    (forall c, c ∉ clients h ->
       (c ∉ clients h') /\ chans h' !! c = chans h !! c) /\
    hubOk h'.
Proof.
  intros Hok [ND Hrange]. simpl.
  destruct (broadcastLoop_spec message order h ND) as
    (h' & E & _ & Hout & Hin & Hok'); [apply Hrange|exact Hok|].
  exists h'. split; [exact E|]. split; [|split; [|split; [|exact Hok']]].
  - intros c ch Hc Ech Hfull.
    specialize (Hin c ch (proj2 (Hrange c) Hc) Ech). now rewrite Hfull in Hin.
  - intros c ch Hc Ech Hfull.
    specialize (Hin c ch (proj2 (Hrange c) Hc) Ech). now rewrite Hfull in Hin.
  - intros c Hc. destruct (Hout c) as [H1 H2].
    + intros X. apply Hc, Hrange, X.
    + split; [|exact H1]. intros X. apply Hc, H2, X.
Qed.

(** A client that is not registered gets nothing from any later
    broadcast. *)
Lemma broadcasts_leave_unregistered h h' c :
  broadcasts h h' -> hubOk h -> c ∉ clients h ->
  (c ∉ clients h') /\ chans h' !! c = chans h !! c.
Proof.
  induction 1 as [h|h h1 h2 message order Hr E _ IH]; intros Hok Hc; [auto|].
  destruct (broadcast_step message order h Hok Hr)
    as (h1' & E1 & _ & _ & Hout & Hok1).
  rewrite E in E1. injection E1 as <-.
  destruct (Hout c Hc) as [Hc1 Ech1].
  destruct (IH Hok1 Hc1) as [Hc2 Ech2]. split; [exact Hc2|congruence].
Qed.

Lemma isFull_room ch message :
  (length (buf ch) + 2 <= sendCap)%nat ->
  isFull ch = false /\
  isFull {| buf := buf ch ++ [message]; closed := false |} = false.
Proof.
  unfold isFull. cbn [buf]. rewrite length_app. cbn [length]. intros H.
  split; apply Nat.leb_gt; unfold sendCap in *; lia.
Qed.

(** C8. When the hub handles a broadcast, from any state in which the
    registered clients have an open queue and in whatever order the client
    map is ranged over, the loop runs to its end without blocking: every
    registered client whose queue is full is removed from the client set
    and its queue is closed, every other registered client has the message
    appended to its queue and stays registered.  No later broadcast puts
    anything in the queue of a removed client, and a client with room in
    its queue receives the next broadcast as well. *)
Theorem broadcast_evicts_full_clients :
  (forall message order h,
     hubOk h -> rangesOver order h ->
     exists h',
       hubStep (Broadcast message order) h = Ok h' /\
       (forall c ch,
          c ∈ clients h -> chans h !! c = Some ch -> isFull ch = true ->
          (c ∉ clients h') /\
          chans h' !! c = Some {| buf := buf ch; closed := true |}) /\
       (forall c ch,
          c ∈ clients h -> chans h !! c = Some ch -> isFull ch = false ->
          c ∈ clients h' /\
          chans h' !! c = Some {| buf := buf ch ++ [message]; closed := false |}) /\
       (forall c, c ∉ clients h ->
          (c ∉ clients h') /\ chans h' !! c = chans h !! c) /\
       hubOk h') /\
  (forall message order h h1 h2 c ch,
     hubOk h -> rangesOver order h ->
     c ∈ clients h -> chans h !! c = Some ch -> isFull ch = true ->
     hubStep (Broadcast message order) h = Ok h1 ->
     broadcasts h1 h2 ->
     (c ∉ clients h2) /\
     chans h2 !! c = Some {| buf := buf ch; closed := true |}) /\
  (forall m1 m2 o1 o2 h h1 c ch,
     hubOk h -> rangesOver o1 h ->
     c ∈ clients h -> chans h !! c = Some ch ->
     (length (buf ch) + 2 <= sendCap)%nat ->
     hubStep (Broadcast m1 o1) h = Ok h1 ->
     rangesOver o2 h1 ->
     exists h2,
       hubStep (Broadcast m2 o2) h1 = Ok h2 /\
       c ∈ clients h2 /\
       chans h2 !! c = Some {| buf := (buf ch ++ [m1]) ++ [m2]; closed := false |}).
Proof.
  split; [exact broadcast_step|]. split.
  - intros message order h h1 h2 c ch Hok Hr Hc Ech Hfull E Hrun.
    destruct (broadcast_step message order h Hok Hr)
      as (h1' & E1 & Hev & _ & _ & Hok1).
    rewrite E in E1. injection E1 as <-.
    destruct (Hev c ch Hc Ech Hfull) as [Hc1 Ech1].
    destruct (broadcasts_leave_unregistered h1 h2 c Hrun Hok1 Hc1) as [H1 H2].
    split; [exact H1|congruence].
  - intros m1 m2 o1 o2 h h1 c ch Hok Hr1 Hc Ech Hroom E Hr2.
    destruct (isFull_room ch m1 Hroom) as [F1 F2].
    destruct (broadcast_step m1 o1 h Hok Hr1)
      as (h1' & E1 & _ & Hkeep & _ & Hok1).
    rewrite E in E1. injection E1 as <-.
    destruct (Hkeep c ch Hc Ech F1) as [Hc1 Ech1].
    destruct (broadcast_step m2 o2 h1 Hok1 Hr2)
      as (h2 & E2 & _ & Hkeep2 & _ & _).
    exists h2. split; [exact E2|].
    exact (Hkeep2 c _ Hc1 Ech1 F2).
Qed.

(** The theorem at work on [twoClients]: client 1, whose queue is full, is
    out after a broadcast; client 2 has the message. *)
Lemma broadcast_evicts_full_clients_witness :
  hubOk twoClients /\ rangesOver [1%nat; 2%nat] twoClients /\
  exists h',
    hubStep (Broadcast [] [1%nat; 2%nat]) twoClients = Ok h' /\
    (1%nat ∉ clients h') /\
    2%nat ∈ clients h' /\
    chans h' !! 2%nat = Some {| buf := [[]]; closed := false |}.
Proof.
  assert (Hin : forall c, c ∈ clients twoClients <-> c = 1%nat \/ c = 2%nat).
  { intros c. unfold twoClients. cbn [clients].
    rewrite elem_of_union, !elem_of_singleton. tauto. }
  assert (Hok : hubOk twoClients).
  { intros c Hc. apply Hin in Hc as [-> | ->]; eexists; split; reflexivity. }
  assert (Hr : rangesOver [1%nat; 2%nat] twoClients).
  { split.
    - repeat constructor; rewrite ?elem_of_cons, ?elem_of_nil; lia.
    - intros c. rewrite Hin, !elem_of_cons, elem_of_nil. tauto. }
  split; [exact Hok|]. split; [exact Hr|].
  destruct (proj1 broadcast_evicts_full_clients [] [1%nat; 2%nat] twoClients Hok Hr)
    as (h' & E & Hev & Hkeep & _).
  exists h'. split; [exact E|].
  destruct (Hev 1%nat {| buf := replicate 256 []; closed := false |})
    as [H1 _]; [apply Hin; now left|reflexivity|reflexivity|].
  destruct (Hkeep 2%nat {| buf := []; closed := false |})
    as [H2 H3]; [apply Hin; now right|reflexivity|reflexivity|].
  split; [exact H1|]. split; [exact H2|exact H3].
Defined.

(** The invariant holds from the start and is kept by every step of the
    hub and of its clients. *)
Lemma hubStep_keeps_ok e h h' :
  hubOk h ->
  match e with
  | Register c => exists ch, chans h !! c = Some ch /\ closed ch = false
  | Unregister _ => True
  | Broadcast _ order => rangesOver order h
  end ->
  hubStep e h = Ok h' -> hubOk h'.
Proof.
  intros Hok Hpre E. destruct e as [c|c|message order].
  - destruct Hpre as (ch & Ech & Ho). simpl in E. rewrite Ech, Ho in E.
    destruct (lastFiles h) as [|o l].
    + injection E as <-. intros c' Hc'. cbn [clients chans] in *.
      apply elem_of_union in Hc' as [Hc'|Hc']; [|now apply Hok].
      apply elem_of_singleton in Hc' as ->. eauto.
    + destruct (isFull ch); [discriminate|]. injection E as <-.
      intros c' Hc'. cbn [clients chans] in *.
      destruct (decide (c' = c)) as [->|N].
      * rewrite lookup_insert_eq. eauto.
      * rewrite lookup_insert_ne by congruence.
        apply elem_of_union in Hc' as [Hc'|Hc']; [|now apply Hok].
        apply elem_of_singleton in Hc'. contradiction.
  - simpl in E. destruct (decide (c ∈ clients h)) as [Hc|Hc].
    + destruct (Hok c Hc) as (ch & Ech & Ho). rewrite Ech, Ho in E.
      injection E as <-. intros c' Hc'. cbn [clients chans] in *.
      apply elem_of_difference in Hc' as [Hc' N].
      rewrite elem_of_singleton in N.
      rewrite lookup_insert_ne by congruence. now apply Hok.
    + now injection E as <-.
  - destruct (broadcast_step message order h Hok Hpre) as (h1 & E1 & _ & _ & _ & H).
    rewrite E in E1. now injection E1 as <-.
Qed.

Lemma clientReceive_keeps_ok c h : hubOk h -> hubOk (clientReceive c h).
Proof.
  intros Hok c' Hc'. unfold clientReceive in *.
  destruct (chans h !! c) as [ch|] eqn:E; [|now apply Hok].
  cbn [clients chans] in *. destruct (Hok c' Hc') as (ch' & E' & Ho).
  destruct (decide (c' = c)) as [->|N].
  - rewrite lookup_insert_eq. rewrite E in E'. injection E' as <-. eauto.
  - rewrite lookup_insert_ne by congruence. eauto.
Qed.

(** ** The facet indexer *)

Lemma addKnown_elem v set x :
  x ∈ addKnown v set <-> (x = v /\ v <> "" /\ v <> "unknown") \/ x ∈ set.
Proof.
  unfold addKnown.
  destruct (strNe v "") eqn:E1; destruct (strNe v "unknown") eqn:E2; simpl;
    rewrite ?elem_of_union, ?elem_of_singleton;
    rewrite ?strNe_true in *; rewrite ?strNe_false in *; intuition congruence.
Qed.

Lemma addKnownField_elem v set x :
  x ∈ addKnownField v set <->
  (asString v = Some x /\ x <> "" /\ x <> "unknown") \/ x ∈ set.
Proof.
  unfold addKnownField. destruct (asString v) as [s|].
  - rewrite addKnown_elem. intuition congruence.
  - intuition congruence.
Qed.

(** Each of the five sets grows by what the file contributes, whatever
    was accumulated before. *)
Lemma indexFile_elem st acc obj x :
  (x ∈ versions (indexFile st acc obj)
     <-> x ∈ versions (contribution st obj) \/ x ∈ versions acc) /\
  (x ∈ statuses (indexFile st acc obj)
     <-> x ∈ statuses (contribution st obj) \/ x ∈ statuses acc) /\
  (x ∈ uploaders (indexFile st acc obj)
     <-> x ∈ uploaders (contribution st obj) \/ x ∈ uploaders acc) /\
  (x ∈ nodes (indexFile st acc obj)
     <-> x ∈ nodes (contribution st obj) \/ x ∈ nodes acc) /\
  (x ∈ slotRanges (indexFile st acc obj)
     <-> x ∈ slotRanges (contribution st obj) \/ x ∈ slotRanges acc).
Proof.
  unfold contribution, indexFile.
  destruct (extractSlotAndNode (Key obj)) as [slot node].
  destruct ((0 <? slot) && strNe node "");
    destruct (GetObject st (Key obj)) as [| |len [sm|rawData|]];
    cbn [versions statuses uploaders nodes slotRanges emptyFacets];
    rewrite ?addKnown_elem, ?addKnownField_elem, ?elem_of_union,
      ?elem_of_singleton, ?elem_of_empty;
    tauto.
Qed.

Section Accumulated.
Context (st : Storage) (proj : Facets -> gset string).
Hypothesis proj_indexFile : forall acc obj x,
  x ∈ proj (indexFile st acc obj)
    <-> x ∈ proj (contribution st obj) \/ x ∈ proj acc.

Lemma fold_indexFile_elem files acc x :
  x ∈ proj (fold_left (indexFile st) files acc) <->
  x ∈ proj acc \/ exists obj, obj ∈ files /\ x ∈ proj (contribution st obj).
Proof.
  revert acc. induction files as [|obj files IH]; intros acc; simpl.
  - split; [auto|]. intros [H|(obj & H & _)]; [exact H|].
    now apply elem_of_nil in H.
  - rewrite IH, proj_indexFile. split.
    + intros [[H|H]|(o & Ho & H)]; eauto using list_elem_of_here,
        list_elem_of_further.
    + intros [H|(o & Ho & H)]; [auto|].
      apply elem_of_cons in Ho as [->|Ho]; eauto.
Qed.
End Accumulated.

(** The sets of a pass hold what the files contribute, one by one: the
    order in which the workers take the files does not matter, and no file
    stands in the way of another. *)
Lemma indexFiles_elem st files x :
  (x ∈ versions (indexFiles st files)
     <-> exists obj, obj ∈ files /\ x ∈ versions (contribution st obj)) /\
  (x ∈ statuses (indexFiles st files)
     <-> exists obj, obj ∈ files /\ x ∈ statuses (contribution st obj)) /\
  (x ∈ uploaders (indexFiles st files)
     <-> exists obj, obj ∈ files /\ x ∈ uploaders (contribution st obj)) /\
  (x ∈ nodes (indexFiles st files)
     <-> exists obj, obj ∈ files /\ x ∈ nodes (contribution st obj)) /\
  (x ∈ slotRanges (indexFiles st files)
     <-> exists obj, obj ∈ files /\ x ∈ slotRanges (contribution st obj)).
Proof.
  unfold indexFiles.
  repeat split; intros H.
  all: try (apply fold_indexFile_elem in H;
            [destruct H as [H|H]; [now apply elem_of_empty in H|exact H]
            |intros; apply indexFile_elem]).
  all: apply fold_indexFile_elem; [intros; apply indexFile_elem|now right].
Qed.

(** A file that is skipped adds no version, status or uploader. *)
Lemma skipped_contribution st obj :
  skipped st obj ->
  versions (contribution st obj) = ∅ /\
  statuses (contribution st obj) = ∅ /\
  uploaders (contribution st obj) = ∅.
Proof.
  unfold skipped, contribution, indexFile.
  destruct (extractSlotAndNode (Key obj)) as [slot node].
  destruct ((0 <? slot) && strNe node "");
    destruct (GetObject st (Key obj)) as [| |len [sm|rawData|]];
    intros []; auto.
Qed.

(** What a file adds to the three content facets is never empty and never
    ["unknown"], on the strict path and on the generic-map path. *)
Lemma contribution_known st obj x :
  x ∈ versions (contribution st obj) \/ x ∈ statuses (contribution st obj)
  \/ x ∈ uploaders (contribution st obj) ->
  x <> "" /\ x <> "unknown".
Proof.
  unfold contribution, indexFile.
  destruct (extractSlotAndNode (Key obj)) as [slot node].
  destruct ((0 <? slot) && strNe node "");
    destruct (GetObject st (Key obj)) as [| |len [sm|rawData|]];
    cbn [versions statuses uploaders nodes slotRanges emptyFacets];
    rewrite ?addKnown_elem, ?addKnownField_elem, ?elem_of_empty;
    intuition congruence.
Qed.

Lemma facetLists_elem acc x :
  (x ∈ foSolanaVersions (facetLists acc) <-> x ∈ versions acc) /\
  (x ∈ foStatuses (facetLists acc) <-> x ∈ statuses acc) /\
  (x ∈ foUploadedBy (facetLists acc) <-> x ∈ uploaders acc) /\
  (x ∈ foNodes (facetLists acc) <-> x ∈ nodes acc) /\
  (x ∈ foSlotRanges (facetLists acc) <-> x ∈ slotRanges acc).
Proof.
  unfold facetLists, sort_Strings. simpl.
  rewrite !sort_Slice_elem, !elem_of_elements. tauto.
Qed.

Lemma knownFacets_empty : knownFacets emptyOptions.
Proof.
  unfold knownFacets, offersKnown. simpl.
  repeat split; apply not_elem_of_nil.
Qed.

Lemma knownFacets_indexFiles st files :
  knownFacets (facetLists (indexFiles st files)).
Proof.
  unfold knownFacets, offersKnown.
  repeat split; intros H; apply facetLists_elem in H;
    apply indexFiles_elem in H as (obj & _ & H);
    match type of H with
    | ?x ∈ _ => destruct (contribution_known st obj x ltac:(tauto)) as [N1 N2]
    end; congruence.
Qed.

(** ** Indexing passes *)

Lemma indexMetadata_cache st w :
  cacheService (indexMetadata st w) = cacheService w.
Proof.
  unfold indexMetadata.
  destruct (cachedOptions w); [reflexivity|].
  destruct (ListObjects st) as [objects|]; [|reflexivity].
  now destruct (List.filter isMetadataCandidate objects).
Qed.

(** On a cache hit the cached value is adopted and the bucket is not
    listed. *)
Lemma indexMetadata_hit st w options :
  cachedOptions w = Some options ->
  filterOptions (indexMetadata st w) = options /\
  listCalls (indexMetadata st w) = listCalls w.
Proof. unfold indexMetadata. now intros ->. Qed.

(** On a miss the bucket is listed once. *)
Lemma indexMetadata_miss st w :
  cachedOptions w = None ->
  listCalls (indexMetadata st w) = S (listCalls w).
Proof.
  unfold indexMetadata. intros ->.
  destruct (ListObjects st) as [objects|]; [|reflexivity].
  now destruct (List.filter isMetadataCandidate objects).
Qed.

Lemma indexMetadata_listing_failed st w :
  cachedOptions w = None -> ListObjects st = None ->
  filterOptions (indexMetadata st w) = filterOptions w.
Proof. unfold indexMetadata. now intros -> ->. Qed.

Lemma facetLists_empty : facetLists emptyFacets = emptyOptions.
Proof.
  unfold facetLists, emptyFacets, sort_Strings. simpl.
  now rewrite elements_empty.
Qed.

(** When the listing succeeds the pass runs to its end and publishes the
    facets of all the candidates. *)
Lemma indexMetadata_listed st w objects :
  cachedOptions w = None -> ListObjects st = Some objects ->
  filterOptions (indexMetadata st w)
  = facetLists (indexFiles st (List.filter isMetadataCandidate objects)).
Proof.
  unfold indexMetadata. intros -> ->.
  destruct (List.filter isMetadataCandidate objects); [|reflexivity].
  simpl. now rewrite <- facetLists_empty.
Qed.

(** A skipped file leaves the content facets as they are without it; its
    name still counts for the node and slot-range facets. *)
Lemma indexFiles_skipped st files1 f files2 :
  skipped st f ->
  versions (indexFiles st (files1 ++ f :: files2))
    = versions (indexFiles st (files1 ++ files2)) /\
  statuses (indexFiles st (files1 ++ f :: files2))
    = statuses (indexFiles st (files1 ++ files2)) /\
  uploaders (indexFiles st (files1 ++ f :: files2))
    = uploaders (indexFiles st (files1 ++ files2)) /\
  nodes (indexFiles st (files1 ++ f :: files2))
    = nodes (contribution st f) ∪ nodes (indexFiles st (files1 ++ files2)) /\
  slotRanges (indexFiles st (files1 ++ f :: files2))
    = slotRanges (contribution st f)
      ∪ slotRanges (indexFiles st (files1 ++ files2)).
Proof.
  intros Hs. destruct (skipped_contribution st f Hs) as (Ev & Es & Eu).
  assert (M : forall (P : Object -> Prop),
    (exists obj, obj ∈ (files1 ++ f :: files2)%list /\ P obj) <->
    P f \/ exists obj, obj ∈ (files1 ++ files2)%list /\ P obj).
  { intros P. split.
    - intros (obj & H & HP). rewrite elem_of_app, elem_of_cons in H.
      destruct H as [H|[->|H]]; [right|now left|right];
        exists obj; rewrite elem_of_app; auto.
    - intros [HP|(obj & H & HP)].
      + exists f. rewrite elem_of_app, elem_of_cons. auto.
      + exists obj. rewrite elem_of_app, elem_of_cons.
        rewrite elem_of_app in H. tauto. }
  repeat split; apply set_eq; intros x.
  - rewrite !(proj1 (indexFiles_elem st _ x)), M, Ev, elem_of_empty. tauto.
  - rewrite !(proj1 (proj2 (indexFiles_elem st _ x))), M, Es, elem_of_empty.
    tauto.
  - rewrite !(proj1 (proj2 (proj2 (indexFiles_elem st _ x)))), M, Eu,
      elem_of_empty. tauto.
  - rewrite elem_of_union.
    rewrite !(proj1 (proj2 (proj2 (proj2 (indexFiles_elem st _ x))))), M.
    tauto.
  - rewrite elem_of_union.
    rewrite !(proj2 (proj2 (proj2 (proj2 (indexFiles_elem st _ x))))), M.
    tauto.
Qed.

(** C9. If the listing at the start of a pass fails, the pass ends there:
    the published facets, all five lists, are what they were, and so is
    the cache.  If the listing succeeds the pass runs to its end and
    publishes the facets of all the candidates, whatever happens to single
    files: a sidecar that cannot be fetched, read or decoded is skipped,
    the version, status and uploader facets are what they are without it,
    and the other files count as before. *)
Theorem listing_failure_keeps_facets :
  (forall st w,
     cachedOptions w = None -> ListObjects st = None ->
     filterOptions (indexMetadata st w) = filterOptions w /\
     cacheService (indexMetadata st w) = cacheService w) /\
  (forall st w objects,
     cachedOptions w = None -> ListObjects st = Some objects ->
     filterOptions (indexMetadata st w)
     = facetLists (indexFiles st (List.filter isMetadataCandidate objects))) /\
  (forall st files1 f files2,
     skipped st f ->
     versions (indexFiles st (files1 ++ f :: files2))
       = versions (indexFiles st (files1 ++ files2)) /\
     statuses (indexFiles st (files1 ++ f :: files2))
       = statuses (indexFiles st (files1 ++ files2)) /\
     uploaders (indexFiles st (files1 ++ f :: files2))
       = uploaders (indexFiles st (files1 ++ files2))) /\
  (forall st files x,
     x ∈ versions (indexFiles st files)
       <-> exists obj, obj ∈ files /\ x ∈ versions (contribution st obj)).
Proof.
  split; [|split; [|split]].
  - intros st w Hc Hl. split; [now apply indexMetadata_listing_failed|].
    apply indexMetadata_cache.
  - exact indexMetadata_listed.
  - intros st files1 f files2 Hs.
    destruct (indexFiles_skipped st files1 f files2 Hs) as (H1 & H2 & H3 & _).
    auto.
  - intros st files x. apply indexFiles_elem.
Qed.

(** The theorem at work: facets found in the mixed sample survive a pass
    over a bucket that cannot be listed, and a file that cannot be fetched
    changes nothing in the version facet. *)
Lemma listing_failure_keeps_facets_witness :
  filterOptions
    (indexMetadata unreachableBucket (indexMetadata mixedBucket (NewHandler None)))
  = filterOptions (indexMetadata mixedBucket (NewHandler None)) /\
  versions (indexFiles emptyBucket
              ([] ++ listedObject "snapshot-7-n.json" 40 0 "" :: []))
  = versions (indexFiles emptyBucket ([] ++ [])).
Proof.
  destruct listing_failure_keeps_facets as (Hfail & _ & Hskip & _).
  split.
  - apply (Hfail unreachableBucket (indexMetadata mixedBucket (NewHandler None)));
      reflexivity.
  - apply (Hskip emptyBucket [] (listedObject "snapshot-7-n.json" 40 0 "") []).
    exact I.
Defined.

Lemma knownFacets_indexMetadata st w :
  knownFacets (filterOptions w) ->
  (forall options, cachedOptions w = Some options -> knownFacets options) ->
  knownFacets (filterOptions (indexMetadata st w)).
Proof.
  intros Hw Hc.
  destruct (cachedOptions w) as [options|] eqn:E.
  - destruct (indexMetadata_hit st w options E) as [-> _]. now apply Hc.
  - destruct (ListObjects st) as [objects|] eqn:El.
    + rewrite (indexMetadata_listed st w objects E El).
      apply knownFacets_indexFiles.
    + now rewrite (indexMetadata_listing_failed st w E El).
Qed.

(** C10. The version, status and uploader lists an indexing pass builds
    from the bucket never contain the empty string or ["unknown"]: a
    sidecar whose field is empty or ["unknown"], on the strict path or on
    the generic-map path, adds nothing to those facets, so the lists
    published by a pass that reads the bucket are free of both values.  A
    pass that finds facets in the cache publishes them as they are,
    unchecked; a published state that is free of the two values stays so
    over every pass as long as the cache holds no other kind of value. *)
Theorem facets_offer_known_values :
  (forall st obj x,
     x ∈ versions (contribution st obj) \/ x ∈ statuses (contribution st obj)
     \/ x ∈ uploaders (contribution st obj) ->
     x <> "" /\ x <> "unknown") /\
  (forall st files, knownFacets (facetLists (indexFiles st files))) /\
  (forall st w objects,
     cachedOptions w = None -> ListObjects st = Some objects ->
     knownFacets (filterOptions (indexMetadata st w))) /\
  (forall st w,
     knownFacets (filterOptions w) ->
     (forall options, cachedOptions w = Some options -> knownFacets options) ->
     knownFacets (filterOptions (indexMetadata st w))) /\
  (forall st w options,
     cachedOptions w = Some options ->
     filterOptions (indexMetadata st w) = options) /\
  (forall st files o,
     rangesFacets o (indexFiles st files) -> knownFacets (facetListsIn o)).
Proof.
  split; [exact contribution_known|].
  split; [exact knownFacets_indexFiles|].
  split.
  { intros st w objects Hc Hl.
    rewrite (indexMetadata_listed st w objects Hc Hl).
    apply knownFacets_indexFiles. }
  split; [exact knownFacets_indexMetadata|].
  split.
  { intros st w options E. now apply indexMetadata_hit. }
  intros st files o (Hv & Hs & Hu & _).
  unfold knownFacets, offersKnown, rangeOf in *. cbn [facetListsIn foSolanaVersions
    foStatuses foUploadedBy]. unfold sort_Strings.
  repeat split; intros H; rewrite sort_Slice_elem in H;
    first [rewrite Hv in H|rewrite Hs in H|rewrite Hu in H];
    apply elem_of_elements, indexFiles_elem in H as (obj & _ & H);
    match type of H with
    | ?x ∈ _ => destruct (contribution_known st obj x ltac:(tauto)) as [N1 N2]
    end; congruence.
Qed.

(** The theorem at work: the sidecar of [unknownBucket] has an empty
    version and the status ["unknown"]; only its uploader is offered. *)
Lemma facets_offer_known_values_witness :
  filterOptions (indexMetadata unknownBucket (NewHandler None))
  = {| foSolanaVersions := []; foStatuses := []; foUploadedBy := ["ci"];
       foNodes := ["n"]; foSlotRanges := ["< 1M"] |} /\
  knownFacets (filterOptions (indexMetadata unknownBucket (NewHandler None))).
Proof.
  destruct facets_offer_known_values as (_ & _ & Hpass & _).
  split; [vm_compute; reflexivity|].
  apply (Hpass unknownBucket (NewHandler None)
           [listedObject "snapshot-7-n.json" 40 0 ""]); reflexivity.
Defined.

(** C10, as stated for every pass, fails on a cache hit: the pass adopts
    the cached lists without looking at them.  With an entry under the
    facets key that holds the empty string as a version and ["unknown"] as
    a status, the pass offers both, whatever the bucket holds. *)
Lemma cached_facets_are_not_checked :
  cachedOptions foreignCache
  = Some {| foSolanaVersions := [""]; foStatuses := ["unknown"];
            foUploadedBy := []; foNodes := []; foSlotRanges := [] |} /\
  "" ∈ foSolanaVersions (filterOptions (indexMetadata emptyBucket foreignCache)) /\
  "unknown" ∈ foStatuses (filterOptions (indexMetadata emptyBucket foreignCache)) /\
  ~ knownFacets (filterOptions (indexMetadata emptyBucket foreignCache)).
Proof.
  assert (E : filterOptions (indexMetadata emptyBucket foreignCache)
              = {| foSolanaVersions := [""]; foStatuses := ["unknown"];
                   foUploadedBy := []; foNodes := []; foSlotRanges := [] |})
    by (vm_compute; reflexivity).
  split; [vm_compute; reflexivity|]. rewrite E. cbn [foSolanaVersions foStatuses].
  split; [left|]. split; [left|].
  intros ([H _] & _). apply H. left.
Qed.

(** C1. The claim has every pass store the facets it found under
    ["metadata:options"] with the five-minute expiration, so that the next
    pass hits the cache and does not list the bucket.  [indexMetadata] reads
    that key and never writes it: no pass changes the cache.  After a pass
    over an empty bucket, with a cache service in place, the facets are the
    five empty lists, the key is still missing, and the next pass lists the
    bucket again.  Had the entry been stored, that pass would not have
    listed. *)
Theorem indexMetadata_never_stores_facets :
  (forall st w, cacheService (indexMetadata st w) = cacheService w) /\
  (forall st w, cachedOptions w = None ->
     cachedOptions (indexMetadata st w) = None) /\
  filterOptions (indexMetadata emptyBucket (NewHandler (Some ∅))) = emptyOptions /\
  cacheService (indexMetadata emptyBucket (NewHandler (Some ∅)))
    <> Some (cacheSet ∅ metadataOptionsKey emptyOptions cacheExpiration) /\
  cachedOptions (indexMetadata emptyBucket (NewHandler (Some ∅))) = None /\
  listCalls (indexMetadata emptyBucket (NewHandler (Some ∅))) = 1%nat /\
  listCalls (indexMetadata emptyBucket
               (indexMetadata emptyBucket (NewHandler (Some ∅)))) = 2%nat /\
  listCalls (indexMetadata emptyBucket
               {| cacheService :=
                    Some (cacheSet ∅ metadataOptionsKey emptyOptions cacheExpiration);
                  filterOptions := emptyOptions; listCalls := 1 |}) = 1%nat.
Proof.
  split; [exact indexMetadata_cache|].
  split.
  { intros st w H. unfold cachedOptions in *.
    now rewrite indexMetadata_cache. }
  split; [reflexivity|].
  split.
  { rewrite indexMetadata_cache. intros H.
    pose proof (f_equal (fun o => match o with
                                  | Some c => cacheGet c metadataOptionsKey
                                  | None => None
                                  end) H) as G.
    vm_compute in G. discriminate G. }
  split; [reflexivity|].
  split; [reflexivity|].
  split; [reflexivity|].
  vm_compute. reflexivity.
Qed.

(** The theorem at work on a handler without a cache service: the pass
    over the mixed sample leaves the lookup a miss. *)
Lemma indexMetadata_never_stores_facets_witness :
  cachedOptions (indexMetadata mixedBucket (NewHandler None)) = None.
Proof.
  apply (proj1 (proj2 indexMetadata_never_stores_facets)
           mixedBucket (NewHandler None)).
  reflexivity.
Defined.


(** * Further properties of the code *)

(** ** Suffixes *)

Lemma append_assoc_bytes a b c : (a +:+ b) +:+ c = a +:+ (b +:+ c).
Proof. apply bytesOf_inj. now rewrite !bytesOf_app, app_assoc. Qed.

Lemma append_empty_r a : a +:+ "" = a.
Proof.
  induction a as [|c a IH]; [reflexivity|].
  change (String c a +:+ "") with (String c (a +:+ "")). now rewrite IH.
Qed.

Lemma HasSuffix_iff s suffix :
  HasSuffix s suffix = true <-> exists pre, s = pre +:+ suffix.
Proof.
  split.
  - induction s as [|c s IH].
    + destruct suffix; simpl; [intros _; now exists ""|discriminate].
    + rewrite HasSuffix_cons.
      destruct (String.eqb_spec (String c s) suffix) as [<-|_].
      * now exists "".
      * intros H. destruct (IH H) as [pre ->]. now exists (String c pre).
  - intros [pre ->]. apply HasSuffix_app.
    destruct suffix; simpl; now rewrite ?Ascii.eqb_refl, ?String.eqb_refl.
Qed.

Lemma HasSuffix_false s suffix :
  HasSuffix s suffix = false <-> ~ exists pre, s = pre +:+ suffix.
Proof.
  rewrite <- HasSuffix_iff. destruct (HasSuffix s suffix); intuition congruence.
Qed.

(** No key ends both in [.json] and in [.tar.gz]. *)
Lemma json_or_targz pre pre' : pre +:+ ".json" <> pre' +:+ ".tar.gz".
Proof.
  intros H. apply (f_equal (fun x => rev (bytesOf x))) in H.
  rewrite !bytesOf_app, !rev_app_distr in H. simpl in H. discriminate H.
Qed.

Lemma sidecar_ends_in_json key :
  isSnapshotMetadataFile key = true -> HasSuffix key ".json" = true.
Proof.
  intros H. apply isSnapshotMetadataFile_iff in H as (pre & N & node & _ & _ & ->).
  apply HasSuffix_sidecar.
Qed.

Lemma sidecar_not_archive key :
  isSnapshotMetadataFile key = true -> IsTarGzFile key = false.
Proof.
  intros H. apply sidecar_ends_in_json, HasSuffix_iff in H as [pre ->].
  apply HasSuffix_false. intros [pre' E]. exact (json_or_targz _ _ E).
Qed.

Lemma archive_not_json pre : HasSuffix (pre +:+ ".tar.gz") ".json" = false.
Proof.
  apply HasSuffix_false. intros [pre' E]. symmetry in E.
  exact (json_or_targz _ _ E).
Qed.

Lemma allDigits_decimal_nonneg N : allDigits N -> 0 <= decimal N.
Proof.
  intros [_ H]. unfold decimal, digitsValue.
  apply (digitsValueFrom_nonneg (bytesOf N) 0 H). lia.
Qed.

(** X1. Whatever the key, the slot [extractSlotAndNode] returns is between
    0 and the largest int64, and a positive slot always comes with a node:
    the node is empty only together with slot 0, and a node that is not
    empty is alphanumeric and comes from a key the pattern accepts. *)
Theorem extractSlotAndNode_result key :
  0 <= fst (extractSlotAndNode key) <= max_int64 /\
  (snd (extractSlotAndNode key) = "" -> fst (extractSlotAndNode key) = 0) /\
  (snd (extractSlotAndNode key) <> "" ->
   allAlnum (snd (extractSlotAndNode key)) /\
   isSnapshotMetadataFile key = true).
Proof.
  destruct (isSnapshotMetadataFile key) eqn:E.
  - apply isSnapshotMetadataFile_iff in E as (pre & N & node & HN & Hn & ->).
    rewrite (extractSlotAndNode_sidecar pre N node HN Hn).
    pose proof (allDigits_decimal_nonneg N HN).
    destruct (Z.leb_spec (decimal N) max_int64); simpl.
    + split; [lia|]. split; [|intros _; split; [exact Hn|reflexivity]].
      intros ->. now destruct Hn.
    + unfold max_int64. split; [lia|]. split; [reflexivity|congruence].
  - rewrite extractSlotAndNode_other.
    + simpl. unfold max_int64. split; [lia|]. split; [reflexivity|congruence].
    + intros H. apply isSnapshotMetadataFile_iff in H. congruence.
Qed.

(** X2. On a listing as [ListObjects] builds it, the test [indexMetadata]
    applies (the [.json] flag and the pattern) and the test [ListMetadata]
    applies (the pattern alone) keep the same objects, and none of them is
    flagged as an archive. *)
Theorem handlers_select_same_sidecars objects :
  wellListed objects ->
  List.filter isMetadataCandidate objects
    = List.filter (fun obj => isSnapshotMetadataFile (Key obj)) objects /\
  (forall obj, obj ∈ List.filter isMetadataCandidate objects ->
     IsTarGz obj = false).
Proof.
  intros Hw. split.
  - induction objects as [|obj objects IH]; [reflexivity|].
    assert (Hw' : wellListed objects).
    { intros o Ho. apply Hw. now right. }
    simpl. rewrite (IH Hw'). unfold isMetadataCandidate.
    destruct (Hw obj) as [-> _]; [left|].
    destruct (isSnapshotMetadataFile (Key obj)) eqn:E;
      [now rewrite (sidecar_ends_in_json _ E)|now rewrite andb_false_r].
  - intros obj Hobj. apply list_elem_of_In, filter_In in Hobj as [Hin Hc].
    apply list_elem_of_In in Hin. destruct (Hw obj Hin) as [_ ->].
    unfold isMetadataCandidate in Hc. apply andb_true_iff in Hc as [_ Hc].
    now apply sidecar_not_archive.
Qed.

(** The theorem at work on the listing of the mixed sample. *)
Lemma handlers_select_same_sidecars_witness :
  List.filter isMetadataCandidate
    [listedObject "a/snapshot-9-x.json" 40 0 "";
     listedObject "a/snapshot-9-x.tar.gz" 9000 0 ""]
  = List.filter (fun obj => isSnapshotMetadataFile (Key obj))
    [listedObject "a/snapshot-9-x.json" 40 0 "";
     listedObject "a/snapshot-9-x.tar.gz" 9000 0 ""].
Proof.
  apply handlers_select_same_sidecars.
  intros obj Hobj.
  apply elem_of_cons in Hobj as [->|Hobj]; [split; reflexivity|].
  apply elem_of_cons in Hobj as [->|Hobj]; [split; reflexivity|].
  now apply elem_of_nil in Hobj.
Defined.

(** The theorem at work on a key with slot 7. *)
Lemma extractSlotAndNode_result_witness :
  allAlnum (snd (extractSlotAndNode "snapshot-7-n.json")) /\
  isSnapshotMetadataFile "snapshot-7-n.json" = true.
Proof.
  apply (proj2 (proj2 (extractSlotAndNode_result "snapshot-7-n.json"))).
  vm_compute. discriminate.
Defined.

(** ** Object retrieval *)

Lemma length_bytesOf s : length (bytesOf s) = String.length s.
Proof. unfold bytesOf. induction s; simpl; auto. Qed.

Lemma TrimSuffix_app base suffix : TrimSuffix (base +:+ suffix) suffix = base.
Proof.
  unfold TrimSuffix.
  rewrite (proj2 (HasSuffix_iff _ _)) by now exists base.
  rewrite <- !length_bytesOf, bytesOf_app, length_app.
  replace (length (bytesOf base) + length (bytesOf suffix) - length (bytesOf suffix))%nat
    with (length (bytesOf base)) by lia.
  rewrite take_app_length. apply string_of_list_ascii_of_string.
Qed.

Lemma archiveName_split pre N node :
  pre +:+ archiveName N node
  = (pre +:+ "snapshot-" +:+ N +:+ "-" +:+ node) +:+ ".tar.gz".
Proof. unfold archiveName. now rewrite !append_assoc_bytes. Qed.

Lemma sidecarName_split pre N node :
  pre +:+ sidecarName N node
  = (pre +:+ "snapshot-" +:+ N +:+ "-" +:+ node) +:+ ".json".
Proof. unfold sidecarName. now rewrite !append_assoc_bytes. Qed.

(** X3. [GetFile] refuses a key with status 403 exactly when the key ends in
    [.tar.gz], whatever the bucket holds; a key the sidecar pattern accepts is
    never refused that way.  The guard is in [GetFile] only: for the same
    archive key, if the object can be read, [GetMetadata] answers 200 with
    the body of the archive as it is. *)
Theorem archives_refused_by_GetFile_only :
  (forall st key,
     GetFile st key = FileError 403 <-> exists pre, key = pre +:+ ".tar.gz") /\
  (forall st key,
     isSnapshotMetadataFile key = true -> GetFile st key <> FileError 403) /\
  (forall st pre contentLength d,
     GetObject st (pre +:+ ".tar.gz") = Body contentLength d ->
     GetFile st (pre +:+ ".tar.gz") = FileError 403 /\
     GetMetadata st (pre +:+ ".tar.gz") = MetaRaw).
Proof.
  assert (G : forall st key,
    GetFile st key = FileError 403 <-> exists pre, key = pre +:+ ".tar.gz").
  { intros st key. unfold GetFile, IsTarGzFile. rewrite <- HasSuffix_iff.
    destruct (HasSuffix key ".tar.gz"); [tauto|].
    destruct (GetObject st key); split; congruence. }
  split; [exact G|]. split.
  - intros st key H E. apply G in E. apply HasSuffix_iff in E.
    apply sidecar_not_archive in H. unfold IsTarGzFile in H. congruence.
  - intros st pre contentLength d E. split; [apply G; now exists pre|].
    unfold GetMetadata. rewrite E, archive_not_json.
    destruct (String.eqb_spec (pre +:+ ".tar.gz") "") as [E0|]; [|reflexivity].
    apply (f_equal bytesOf) in E0. rewrite bytesOf_app in E0.
    now destruct (bytesOf pre).
Qed.

(** The theorem at work: the sidecar of the mixed sample is served, and an
    archive that sits in a bucket is refused by one handler and handed out
    by the other. *)
Lemma archives_refused_by_GetFile_only_witness :
  GetFile mixedBucket "a/snapshot-9-x.json" <> FileError 403 /\
  GetMetadata unknownBucket ("snapshot-7-n" +:+ ".tar.gz") = MetaRaw.
Proof.
  destruct archives_refused_by_GetFile_only as (_ & Hside & Harch).
  split.
  - apply (Hside mixedBucket "a/snapshot-9-x.json"). reflexivity.
  - eapply (Harch unknownBucket "snapshot-7-n"). reflexivity.
Defined.

(** X4. [GetMetadataFileKey] turns the key of an archive into the key of its
    sidecar: [.tar.gz] at the end becomes [.json], and a key without that
    ending just gets [.json] appended.  For an archive named by the
    convention the result is a key the sidecar pattern accepts, and it
    decodes to the slot and node in the archive's name. *)
Theorem GetMetadataFileKey_sidecar :
  (forall base, GetMetadataFileKey (base +:+ ".tar.gz") = base +:+ ".json") /\
  (forall key, IsTarGzFile key = false ->
     GetMetadataFileKey key = key +:+ ".json") /\
  (forall key, HasSuffix (GetMetadataFileKey key) ".json" = true /\
               IsTarGzFile (GetMetadataFileKey key) = false) /\
  (forall pre N node,
     allDigits N -> allAlnum node -> decimal N <= max_int64 ->
     GetMetadataFileKey (pre +:+ archiveName N node) = pre +:+ sidecarName N node /\
     isSnapshotMetadataFile (GetMetadataFileKey (pre +:+ archiveName N node)) = true /\
     extractSlotAndNode (GetMetadataFileKey (pre +:+ archiveName N node))
       = (decimal N, node)).
Proof.
  assert (G1 : forall base,
    GetMetadataFileKey (base +:+ ".tar.gz") = base +:+ ".json").
  { intros base. unfold GetMetadataFileKey. now rewrite TrimSuffix_app. }
  split; [exact G1|]. split; [|split].
  - intros key H. unfold GetMetadataFileKey, TrimSuffix.
    unfold IsTarGzFile in H. now rewrite H.
  - intros key. assert (E : exists b, GetMetadataFileKey key = b +:+ ".json")
      by (unfold GetMetadataFileKey; eauto).
    destruct E as [b ->]. split; [apply HasSuffix_iff; eauto|].
    apply HasSuffix_false. intros [pre' E]. exact (json_or_targz _ _ E).
  - intros pre N node HN Hn Hmax.
    assert (E : GetMetadataFileKey (pre +:+ archiveName N node)
                = pre +:+ sidecarName N node).
    { now rewrite archiveName_split, G1, sidecarName_split. }
    rewrite E. split; [reflexivity|]. split.
    + apply isSnapshotMetadataFile_iff. now exists pre, N, node.
    + rewrite extractSlotAndNode_sidecar by assumption.
      destruct (Z.leb_spec (decimal N) max_int64); [reflexivity|lia].
Qed.

(** The theorem at work on the archive of the repository's test names. *)
Lemma GetMetadataFileKey_sidecar_witness :
  extractSlotAndNode
    (GetMetadataFileKey ("backups/" +:+ archiveName "123456789" "Node1"))
  = (123456789, "Node1").
Proof.
  apply (proj2 (proj2 (proj2 GetMetadataFileKey_sidecar)) "backups/" "123456789" "Node1").
  - split; [discriminate|reflexivity].
  - split; [discriminate|reflexivity].
  - vm_compute. discriminate.
Defined.

(** ** The records of a list response *)

Lemma sidecar_key_nonempty key :
  isSnapshotMetadataFile key = true -> String.eqb key "" = false.
Proof.
  intros H. destruct (String.eqb_spec key "") as [->|]; [|reflexivity].
  vm_compute in H. discriminate H.
Qed.

(** The record built for a sidecar carries the key as its file name and the
    label of its own slot as its slot range. *)
Lemma metadataOfObject_sidecar st obj m :
  isSnapshotMetadataFile (Key obj) = true ->
  metadataOfObject st obj = Some m ->
  FileName m = Key obj /\ SlotRange m = getSlotRange (Slot m).
Proof.
  intros Hs. unfold metadataOfObject.
  destruct (GetObject st (Key obj)) as [| |len [sm|rawData|]]; try discriminate;
    intros [= <-]; unfold metadataFromStruct, metadataFromMap; rewrite Hs;
    destruct (extractSlotAndNode (Key obj)) as [slot node]; simpl; auto.
Qed.

(** Where the items of a response come from. *)
Lemma ListMetadata_item st flt pageStr pageSizeStr items total m :
  ListMetadata st flt pageStr pageSizeStr = RespItems items total ->
  m ∈ items ->
  exists objects obj,
    ListObjects st = Some objects /\ obj ∈ objects /\
    isSnapshotMetadataFile (Key obj) = true /\
    metadataOfObject st obj = Some m /\
    matchesFilter m flt = true.
Proof.
  unfold ListMetadata.
  destruct (getPaginationParams pageStr pageSizeStr) as [page pageSize].
  destruct (ListObjects st) as [objects|]; [|discriminate].
  destruct (List.filter _ objects) as [|o files] eqn:Ef.
  { intros [= <- _] H. now apply elem_of_nil in H. }
  rewrite <- Ef.
  destruct (queryMetadata _ flt page pageSize) as [[items' total']|] eqn:Eq;
    [|discriminate].
  intros [= <- <-] Hm.
  apply queryMetadata_stretch in Eq as (before & after & Eq).
  assert (Hs : m ∈ sortedMatching
                 (omap (metadataOfObject st)
                    (List.filter (fun obj => isSnapshotMetadataFile (Key obj)) objects))
                 flt).
  { rewrite Eq, !elem_of_app. auto. }
  unfold sortedMatching in Hs. rewrite sort_Slice_elem in Hs.
  unfold matching in Hs. apply list_elem_of_In, filter_In in Hs as [Hin Hmatch].
  apply list_elem_of_In, list_elem_of_omap in Hin as (obj & Hobj & Hrec).
  apply list_elem_of_In, filter_In in Hobj as [Hobj Hside].
  exists objects, obj. rewrite list_elem_of_In. auto.
Qed.

(** X5. Every record in a [ListMetadata] response passes the filter of the
    request, has a file name that the sidecar pattern accepts, has as slot
    range the label [getSlotRange] gives its slot, and is exactly the record
    [GetMetadata] returns for that file name. *)
Theorem ListMetadata_items_consistent st flt pageStr pageSizeStr items total m :
  ListMetadata st flt pageStr pageSizeStr = RespItems items total ->
  m ∈ items ->
  matchesFilter m flt = true /\
  isSnapshotMetadataFile (FileName m) = true /\
  SlotRange m = getSlotRange (Slot m) /\
  GetMetadata st (FileName m) = MetaRecord m.
Proof.
  intros E Hm.
  destruct (ListMetadata_item _ _ _ _ _ _ _ E Hm)
    as (objects & obj & _ & _ & Hside & Hrec & Hmatch).
  destruct (metadataOfObject_sidecar st obj m Hside Hrec) as [Hname Hrange].
  rewrite Hname. repeat split; auto.
  unfold GetMetadata. rewrite (sidecar_key_nonempty _ Hside).
  rewrite (sidecar_ends_in_json _ Hside).
  unfold metadataOfObject in Hrec.
  destruct (GetObject st (Key obj)) as [| |len [sm|rawData|]];
    try discriminate; now injection Hrec as <-.
Qed.

(** The theorem at work on the first record of the mixed sample. *)
Lemma ListMetadata_items_consistent_witness :
  GetMetadata mixedBucket "a/snapshot-9-x.json"
  = MetaRecord
      (metadataFromMap "a/snapshot-9-x.json" 40
         {[ "status" := JNumber 5; "timestamp" := JNumber 100 ]}).
Proof.
  pose proof (ListMetadata_items_consistent mixedBucket zeroFilter "" ""
    [metadataFromMap "a/snapshot-9-x.json" 40
       {[ "status" := JNumber 5; "timestamp" := JNumber 100 ]};
     metadataFromStruct "b/snapshot-5-x.json" 40
       {| smSolanaVersion := "1.18.0"; smStatus := "ok"; smUploadedBy := "ci" |};
     metadataFromMap "c/snapshot-1-x.json" 40
       {[ "status" := JNumber 5; "timestamp" := JNumber 200 ]}]
    3
    (metadataFromMap "a/snapshot-9-x.json" 40
       {[ "status" := JNumber 5; "timestamp" := JNumber 100 ]})) as H.
  apply H; [vm_compute; reflexivity|left].
Defined.

(** ** The size of a page and the sequence of pages *)

Lemma wrap64_add_cases s n :
  in_int64 s -> 0 <= n -> in_int64 n ->
  wrap64 (s + n) = s + n \/ (wrap64 (s + n) = s + n - 2 ^ 64 /\ wrap64 (s + n) < 0).
Proof.
  unfold in_int64, min_int64, max_int64. intros Hs Hn Hn'.
  destruct (Z_le_gt_dec (s + n) (2 ^ 63 - 1)) as [H|H].
  - left. apply wrap64_id. unfold in_int64, min_int64, max_int64. lia.
  - right. unfold wrap64.
    replace (s + n + 2 ^ 63) with ((s + n - 2 ^ 63) + 1 * 2 ^ 64) by lia.
    rewrite Z.mod_add by lia. rewrite Z.mod_small by lia. lia.
Qed.

Lemma wrap64_in_int64 z : in_int64 (wrap64 z).
Proof.
  unfold wrap64, in_int64, min_int64, max_int64.
  pose proof (Z.mod_pos_bound (z + 2 ^ 63) (2 ^ 64) ltac:(lia)). lia.
Qed.

Lemma length_sliceRange {A} (l : list A) lo hi items :
  sliceRange l lo hi = Some items ->
  0 <= lo /\ lo <= hi /\ Z.of_nat (length items) <= hi - lo.
Proof.
  unfold sliceRange.
  destruct (Z.leb_spec 0 lo); [|discriminate].
  destruct (Z.leb_spec lo hi); [|discriminate].
  destruct (Z.leb_spec hi (Z.of_nat (length l))); [|discriminate].
  simpl. intros [= <-]. rewrite length_take. lia.
Qed.

(** A page never holds more than [pageSize] records. *)
Lemma paginate_length l page pageSize items :
  1 <= pageSize -> in_int64 pageSize ->
  paginate l page pageSize = Some items ->
  Z.of_nat (length items) <= pageSize.
Proof.
  intros Hs Hs'. unfold paginate, calculatePaginationBounds.
  set (start := wrap64 (wrap64 (page - 1) * pageSize)).
  pose proof (wrap64_in_int64 (wrap64 (page - 1) * pageSize)) as Hstart.
  fold start in Hstart.
  pose proof (wrap64_add_cases start pageSize Hstart ltac:(lia) Hs') as Hend.
  set (end_ := wrap64 (start + pageSize)) in *.
  set (total := Z.of_nat (length l)).
  assert (0 <= total) by (unfold total; lia).
  destruct (Z.leb_spec total start).
  - destruct (Z.ltb_spec 0 total); [|intros [= <-]; simpl; lia].
    destruct (Z.ltb_spec total 0); [lia|].
    intros E. apply length_sliceRange in E. lia.
  - destruct (Z.ltb_spec total end_).
    + destruct (Z.ltb_spec start total); [|intros [= <-]; simpl; lia].
      rewrite Z.ltb_irrefl. intros E. apply length_sliceRange in E. lia.
    + destruct (Z.ltb_spec start total); [|intros [= <-]; simpl; lia].
      destruct (Z.ltb_spec total end_); [lia|].
      intros E. apply length_sliceRange in E. lia.
Qed.

(** Within the int range a page is the stretch of [pageSize] records that
    starts at [(page-1)*pageSize], empty when that is past the end. *)
Lemma paginate_page l page pageSize :
  1 <= page -> 1 <= pageSize -> page * pageSize <= max_int64 ->
  paginate l page pageSize =
    Some (take (Z.to_nat pageSize) (drop (Z.to_nat ((page - 1) * pageSize)) l)).
Proof.
  intros Hp Hs Hmax.
  assert (0 <= (page - 1) * pageSize) by nia.
  destruct (Z_lt_le_dec ((page - 1) * pageSize) (Z.of_nat (length l))).
  - apply paginate_in_range; auto.
    unfold in_int64, min_int64, max_int64 in *. nia.
  - rewrite paginate_out_of_range; auto.
    + now rewrite drop_ge, take_nil by lia.
    + unfold in_int64, min_int64, max_int64 in *. nia.
    + unfold in_int64, min_int64, max_int64 in *. nia.
Qed.

Lemma queryMetadata_page records flt page pageSize :
  1 <= page -> 1 <= pageSize -> page * pageSize <= max_int64 ->
  queryMetadata records flt page pageSize =
    Some (take (Z.to_nat pageSize)
            (drop (Z.to_nat ((page - 1) * pageSize)) (sortedMatching records flt)),
          Z.of_nat (length (matching records flt))).
Proof.
  intros Hp Hs Hmax. unfold queryMetadata.
  fold (matching records flt). fold (sortedMatching records flt).
  rewrite paginate_page by assumption.
  unfold sortedMatching. now rewrite sort_Slice_length.
Qed.

Lemma concat_pages {A} (l : list A) (size n : nat) :
  concat (map (fun page => take size (drop ((page - 1) * size) l)) (seq 1 n))
  = take (n * size) l.
Proof.
  induction n as [|n IH]; [reflexivity|].
  rewrite seq_S, map_app, concat_app, IH. simpl.
  rewrite app_nil_r. replace (n - 0)%nat with n by lia.
  rewrite take_take_drop. f_equal. lia.
Qed.

Lemma getPaginationParams_page_cases pageStr pageSizeStr :
  fst (getPaginationParams pageStr pageSizeStr) = 1 \/
  Atoi pageStr = Some (fst (getPaginationParams pageStr pageSizeStr)).
Proof.
  unfold getPaginationParams. simpl.
  destruct (strNe pageStr ""); [|now left].
  destruct (Atoi pageStr) as [n|]; [|now left].
  destruct (0 <? n); [now right|now left].
Qed.

(** X6. A [ListMetadata] response never holds more items than the page size
    in force, so never more than 100, and never more than the total it
    reports.  As long as the [page] parameter is at most 92233720368547758
    the handler does not panic on the slice expression, whatever the other
    parameters and the bucket. *)
Theorem ListMetadata_page_size st flt pageStr pageSizeStr :
  (forall items total,
     ListMetadata st flt pageStr pageSizeStr = RespItems items total ->
     Z.of_nat (length items) <= snd (getPaginationParams pageStr pageSizeStr) /\
     Z.of_nat (length items) <= 100 /\
     Z.of_nat (length items) <= total) /\
  ((forall p, Atoi pageStr = Some p -> p <= lastSafePage) ->
   ListMetadata st flt pageStr pageSizeStr <> RespPanic).
Proof.
  pose proof (getPaginationParams_bounds pageStr pageSizeStr) as [Hp Hs].
  pose proof (getPaginationParams_page_cases pageStr pageSizeStr) as Hcases.
  unfold ListMetadata.
  destruct (getPaginationParams pageStr pageSizeStr) as [page pageSize].
  simpl in *. unfold maxPageSize in Hs. split.
  - intros items total.
    destruct (ListObjects st) as [objects|]; [|discriminate].
    destruct (List.filter _ objects) as [|o files] eqn:Ef.
    { intros [= <- <-]. simpl. lia. }
    rewrite <- Ef.
    destruct (queryMetadata _ flt page pageSize) as [[items' total']|] eqn:Eq;
      [|discriminate].
    intros [= <- <-].
    pose proof (queryMetadata_total _ _ _ _ _ _ Eq) as Ht.
    pose proof (queryMetadata_stretch _ _ _ _ _ _ Eq) as (before & after & Es).
    apply (f_equal (@length Metadata)) in Es.
    unfold sortedMatching in Es. rewrite sort_Slice_length, !length_app in Es.
    unfold queryMetadata in Eq.
    destruct (paginate _ page pageSize) as [items''|] eqn:Epg; [|discriminate].
    injection Eq as <- _.
    apply paginate_length in Epg;
      [|lia|unfold in_int64, min_int64, max_int64; lia].
    lia.
  - intros Hsafe.
    assert (page <= lastSafePage).
    { destruct Hcases as [->|E]; [unfold lastSafePage; lia|now apply Hsafe]. }
    destruct (ListObjects st) as [objects|]; [|discriminate].
    destruct (List.filter _ objects) as [|o files]; [discriminate|].
    rewrite queryMetadata_page; [discriminate|lia|lia|].
    unfold lastSafePage, max_int64 in *. nia.
Qed.

(** The theorem at work: a request for a thousand items of the mixed sample
    gets its three. *)
Lemma ListMetadata_page_size_witness :
  Z.of_nat 3 <= 100 /\
  ListMetadata mixedBucket zeroFilter "2" "1000" <> RespPanic.
Proof.
  destruct (ListMetadata_page_size mixedBucket zeroFilter "1" "1000") as [H _].
  destruct (ListMetadata_page_size mixedBucket zeroFilter "2" "1000") as [_ H2].
  split.
  - eapply (H [_; _; _] 3). vm_compute. reflexivity.
  - apply H2. intros p E. vm_compute in E. injection E as <-.
    unfold lastSafePage. lia.
Defined.

(** X7. The pages of a query follow one another without gap or overlap:
    for a page size of at least 1 and as long as the indices stay in the int
    range, pages 1 to n one after the other are the first n times pageSize
    records of the sorted result, and once that covers the total they are
    the whole result, every matching record exactly once. *)
Theorem pages_tile_result records flt pageSize (n : nat) :
  1 <= pageSize -> Z.of_nat n * pageSize <= max_int64 ->
  (forall page, (1 <= page <= n)%nat ->
     queryMetadata records flt (Z.of_nat page) pageSize
     = Some (pageItems records flt pageSize page,
             Z.of_nat (length (matching records flt)))) /\
  concat (map (pageItems records flt pageSize) (seq 1 n))
    = take (n * Z.to_nat pageSize) (sortedMatching records flt) /\
  (Z.of_nat (length (matching records flt)) <= Z.of_nat n * pageSize ->
   concat (map (pageItems records flt pageSize) (seq 1 n))
     = sortedMatching records flt /\
   concat (map (pageItems records flt pageSize) (seq 1 n))
     ≡ₚ matching records flt).
Proof.
  intros Hs Hmax.
  assert (Hpage : forall page, (1 <= page <= n)%nat ->
    queryMetadata records flt (Z.of_nat page) pageSize
    = Some (take (Z.to_nat pageSize)
              (drop ((page - 1) * Z.to_nat pageSize) (sortedMatching records flt)),
            Z.of_nat (length (matching records flt)))).
  { intros page Hp. rewrite queryMetadata_page; [|lia|lia|nia].
    do 3 f_equal.
    replace (Z.of_nat page - 1) with (Z.of_nat (page - 1)) by lia.
    rewrite Z2Nat.inj_mul by lia. now rewrite Nat2Z.id. }
  assert (Hcat : concat (map (pageItems records flt pageSize) (seq 1 n))
                 = take (n * Z.to_nat pageSize) (sortedMatching records flt)).
  { rewrite <- concat_pages. f_equal. apply map_ext_in.
    intros page Hin. apply in_seq in Hin.
    unfold pageItems. now rewrite Hpage by lia. }
  split; [|split; [exact Hcat|]].
  - intros page Hp. unfold pageItems. now rewrite (Hpage page Hp).
  - intros Hcov. rewrite Hcat.
    assert (E : take (n * Z.to_nat pageSize) (sortedMatching records flt)
                = sortedMatching records flt).
    { apply take_ge. unfold sortedMatching. rewrite sort_Slice_length. nia. }
    rewrite E. split; [reflexivity|]. apply sort_Slice_perm.
Qed.

(** The theorem at work: the 45 records of the pagination example come
    back whole over three pages of 20. *)
Lemma pages_tile_result_witness :
  concat (map (pageItems (replicate 45 zeroMetadata) zeroFilter 20) (seq 1 3))
  = sortedMatching (replicate 45 zeroMetadata) zeroFilter.
Proof.
  apply (pages_tile_result (replicate 45 zeroMetadata) zeroFilter 20 3).
  - lia.
  - unfold max_int64. lia.
  - rewrite matching_zero, length_replicate. lia.
Defined.

(** ** Decimal rendering *)

Lemma uint_digits d :
  forallb isDigit (bytesOf (NilEmpty.string_of_uint d)) = true.
Proof. induction d; simpl; auto. Qed.

Lemma uint_value_from d : forall acc,
  digitsValueFrom (Z.pos acc) (bytesOf (NilEmpty.string_of_uint d))
  = Z.pos (Pos.of_uint_acc d acc).
Proof.
  induction d; intros acc; cbn [NilEmpty.string_of_uint bytesOf
    list_ascii_of_string digitsValueFrom Pos.of_uint_acc]; [reflexivity|..];
    fold (bytesOf (NilEmpty.string_of_uint d)); rewrite <- IHd; f_equal;
    match goal with
    | |- context [digitVal ?c] =>
        let v := eval vm_compute in (digitVal c) in change (digitVal c) with v
    end; lia.
Qed.

Lemma uint_value d :
  digitsValue (bytesOf (NilEmpty.string_of_uint d)) = Z.of_N (Pos.of_uint d).
Proof.
  unfold digitsValue.
  induction d; cbn [NilEmpty.string_of_uint bytesOf list_ascii_of_string
    digitsValueFrom Pos.of_uint]; [reflexivity|exact IHd|..];
    fold (bytesOf (NilEmpty.string_of_uint d));
    cbn [Z.of_N]; rewrite <- uint_value_from; reflexivity.
Qed.

(** The decimal rendering of a number that is not negative: digits only,
    at least one, and they read back as the number. *)
Lemma FormatInt_digits n :
  0 <= n ->
  allDigits (FormatInt n) /\ decimal (FormatInt n) = n.
Proof.
  intros Hn. unfold FormatInt, allDigits, decimal.
  destruct n as [|p|p]; [repeat split; discriminate| |lia].
  cbn [Z.to_int NilZero.string_of_int].
  pose proof (Unsigned.to_uint_nonnil p) as Hnil.
  assert (E : NilZero.string_of_uint (Pos.to_uint p)
              = NilEmpty.string_of_uint (Pos.to_uint p)).
  { unfold NilZero.string_of_uint. now destruct (Pos.to_uint p). }
  rewrite E. split; [split|].
  - destruct (Pos.to_uint p); first [discriminate|congruence].
  - apply uint_digits.
  - now rewrite uint_value, Unsigned.of_to.
Qed.

Lemma ParseIntBytes_digits N :
  allDigits N ->
  ParseIntBytes (bytesOf N)
  = if decimal N <=? max_int64 then (decimal N, true) else (max_int64, false).
Proof.
  intros [HN Hd]. unfold ParseIntBytes, decimal.
  destruct (bytesOf N) as [|c r] eqn:E.
  { exfalso. apply HN. apply bytesOf_inj. now rewrite E. }
  pose proof Hd as Hd'. simpl in Hd'. apply andb_true_iff in Hd' as [Hc _].
  destruct (isDigit_not_sign c Hc) as [-> ->].
  unfold parseSigned. rewrite Hd.
  pose proof (digitsValueFrom_nonneg (c :: r) 0 Hd ltac:(lia)) as Hn.
  fold (digitsValue (c :: r)) in Hn.
  unfold in_int64b.
  destruct (Z.leb_spec min_int64 (digitsValue (c :: r))) as [_|Hm];
    [|unfold min_int64 in Hm; lia].
  simpl. now destruct (digitsValue (c :: r) <=? max_int64).
Qed.

(** A number in front of an [M] is what [leadingNumber] reads. *)
Lemma leadingNumber_FormatInt n rest :
  0 <= n <= max_int64 ->
  leadingNumber (FormatInt n +:+ "M" +:+ rest) = n.
Proof.
  intros Hn. destruct (FormatInt_digits n) as [HD Hv]; [lia|].
  pose proof HD as [Hne Hd].
  unfold leadingNumber. rewrite !bytesOf_app.
  change (bytesOf "M") with ["M"%char]. simpl app.
  rewrite (span_run isDigit (bytesOf (FormatInt n))) by (auto; reflexivity).
  destruct (bytesOf (FormatInt n)) as [|c r] eqn:E.
  { exfalso. apply Hne. apply bytesOf_inj. now rewrite E. }
  rewrite <- E. unfold AtoiValue.
  rewrite list_ascii_of_string_of_list_ascii.
  rewrite (ParseIntBytes_digits _ HD), Hv.
  destruct (Z.leb_spec n max_int64); [reflexivity|lia].
Qed.

(** ** Slot-range labels and their windows *)

Lemma quot_million_in_int64 slot :
  0 <= slot <= max_int64 ->
  0 <= Z.quot slot 1000000 <= max_int64 /\
  in_int64 (Z.quot slot 1000000) /\
  in_int64 (Z.quot slot 1000000 * 1000000).
Proof.
  intros H. destruct (quot_million slot) as (r & E & Hr & Hq); [lia|].
  unfold in_int64, min_int64, max_int64 in *. lia.
Qed.

Lemma leadingNumber_getSlotRange slot :
  0 <= slot <= max_int64 ->
  leadingNumber (getSlotRange slot) = Z.quot slot 1000000.
Proof.
  intros H. destruct (quot_million_in_int64 slot H) as (Hq & H1 & H2).
  unfold getSlotRange. rewrite (wrap64_id _ H1), (wrap64_id _ H2).
  destruct (Z.eqb_spec (Z.quot slot 1000000 * 1000000) 0) as [E|N].
  - assert (Z.quot slot 1000000 = 0) as -> by lia. reflexivity.
  - rewrite Z.quot_mul by lia.
    change "M-" with ("M" +:+ "-"). rewrite append_assoc_bytes.
    now apply leadingNumber_FormatInt.
Qed.

(** X8. For slots an int64 can hold, from 0 up, two slots get the same
    label from [getSlotRange] exactly when they lie in the same window of
    one million, and the number the facet sort reads in front of a label is
    the window's number, 0 for the sentinel. *)
Theorem slot_label_names_window a b :
  0 <= a <= max_int64 -> 0 <= b <= max_int64 ->
  (getSlotRange a = getSlotRange b <-> Z.quot a 1000000 = Z.quot b 1000000) /\
  leadingNumber (getSlotRange a) = Z.quot a 1000000 /\
  (getSlotRange a = "< 1M" <-> a < 1000000).
Proof.
  intros Ha Hb. split; [|split].
  - split.
    + intros E. rewrite <- (leadingNumber_getSlotRange a Ha),
        <- (leadingNumber_getSlotRange b Hb). now rewrite E.
    + intros E. unfold getSlotRange. now rewrite E.
  - now apply leadingNumber_getSlotRange.
  - destruct (quot_million a) as (r & E & Hr & Hq); [lia|]. split.
    + intros El. apply (f_equal leadingNumber) in El.
      rewrite (leadingNumber_getSlotRange a Ha) in El.
      change (leadingNumber "< 1M") with 0 in El. lia.
    + intros Hlt. apply getSlotRange_first_window. lia.
Qed.

(** The theorem at work on two slots of the third window. *)
Lemma slot_label_names_window_witness :
  getSlotRange 2000000 = getSlotRange 2999999 /\
  leadingNumber (getSlotRange 2000000) = 2.
Proof.
  destruct (slot_label_names_window 2000000 2999999) as (H1 & H2 & _);
    try (unfold max_int64; lia).
  split; [apply H1; reflexivity|exact H2].
Defined.

(** ** The order of the facet lists *)

(** On a slice without duplicates the sort never compares an element with
    itself: two comparators that agree on distinct elements sort it the
    same way. *)
Lemma sort_Slice_ext_NoDup {A} (less less' : A -> A -> bool) l :
  NoDup l ->
  (forall a b, a ∈ l -> b ∈ l -> a <> b -> less a b = less' a b) ->
  sort_Slice less l = sort_Slice less' l.
Proof.
  intros ND H. unfold sort_Slice. f_equal.
  assert (G : forall acc,
    NoDup (l ++ acc) ->
    (forall a b, a ∈ (l ++ acc)%list -> b ∈ (l ++ acc)%list -> a <> b ->
                 less a b = less' a b) ->
    fold_left (fun acc x => insertBack less x acc) l acc =
    fold_left (fun acc x => insertBack less' x acc) l acc).
  { clear ND H. induction l as [|x l IH]; intros acc ND H; simpl; [reflexivity|].
    simpl in ND. apply NoDup_cons in ND as [Hx ND].
    rewrite (insertBack_ext less less' x acc).
    - assert (P : (l ++ insertBack less' x acc)%list ≡ₚ (x :: l ++ acc)%list).
      { rewrite insertBack_perm. symmetry. apply Permutation_middle. }
      apply IH.
      + rewrite P. now constructor.
      + intros a b Ha Hb. rewrite P in Ha, Hb. now apply H.
    - intros b Hb. apply H.
      + left.
      + right. rewrite elem_of_app. now right.
      + intros ->. apply Hx. rewrite elem_of_app. now right. }
  apply G; rewrite app_nil_r; assumption.
Qed.

Lemma StronglySorted_strengthen {A} (R R' : A -> A -> Prop) l :
  NoDup l ->
  (forall a b, a ∈ l -> b ∈ l -> a <> b -> R a b -> R' a b) ->
  StronglySorted R l -> StronglySorted R' l.
Proof.
  intros ND H S. induction S as [|x l S IH Hall]; [constructor|].
  apply NoDup_cons in ND as [Hx ND]. constructor.
  - apply IH; [exact ND|]. intros a b Ha Hb. apply H; now right.
  - rewrite Forall_forall in Hall |- *. intros b Hb.
    apply H; [left|now right| |now apply Hall].
    intros ->. contradiction.
Qed.

Lemma ltb_asym a b : String.ltb a b = true -> String.ltb b a = false.
Proof.
  unfold String.ltb. rewrite (String.compare_antisym a b).
  now destruct (String.compare b a).
Qed.

Lemma ltb_false_le a b : String.ltb a b = false <-> String.le b a.
Proof.
  unfold String.le, String.leb, String.ltb.
  rewrite (String.compare_antisym a b).
  destruct (String.compare b a); simpl; intuition (try discriminate; auto).
Qed.

Lemma ltb_negtrans a b c :
  String.ltb a b = false -> String.ltb b c = false -> String.ltb a c = false.
Proof.
  rewrite !ltb_false_le. intros H1 H2. now transitivity b.
Qed.

Lemma ltb_total a b : a <> b -> String.ltb b a = false -> String.ltb a b = true.
Proof.
  unfold String.ltb. rewrite (String.compare_antisym a b).
  destruct (String.compare b a) eqn:E; try reflexivity; try discriminate.
  intros N _. apply String.compare_eq_iff in E. congruence.
Qed.

(** A set of strings sorted with [sort.Strings]: the same strings, each
    once, in strictly ascending byte order. *)
Lemma sort_Strings_elements (set : gset string) :
  StronglySorted (fun a b => String.ltb a b = true) (sort_Strings (elements set)) /\
  NoDup (sort_Strings (elements set)) /\
  (forall x, x ∈ sort_Strings (elements set) <-> x ∈ set).
Proof.
  unfold sort_Strings.
  assert (ND : NoDup (sort_Slice String.ltb (elements set))).
  { rewrite sort_Slice_perm. apply NoDup_elements. }
  split; [|split; [exact ND|]].
  - eapply StronglySorted_strengthen; [exact ND| |].
    2: { apply sort_Slice_sorted; [apply ltb_asym|apply ltb_negtrans]. }
    intros a b _ _ N H. now apply ltb_total.
  - intros x. now rewrite sort_Slice_elem, elem_of_elements.
Qed.

(** X9. The status, uploader and node lists a pass publishes hold exactly
    the values collected, each once, in strictly ascending byte order. *)
Theorem string_facets_sorted acc :
  (StronglySorted (fun a b => String.ltb a b = true) (foStatuses (facetLists acc)) /\
   NoDup (foStatuses (facetLists acc)) /\
   forall x, x ∈ foStatuses (facetLists acc) <-> x ∈ statuses acc) /\
  (StronglySorted (fun a b => String.ltb a b = true) (foUploadedBy (facetLists acc)) /\
   NoDup (foUploadedBy (facetLists acc)) /\
   forall x, x ∈ foUploadedBy (facetLists acc) <-> x ∈ uploaders acc) /\
  (StronglySorted (fun a b => String.ltb a b = true) (foNodes (facetLists acc)) /\
   NoDup (foNodes (facetLists acc)) /\
   forall x, x ∈ foNodes (facetLists acc) <-> x ∈ nodes acc).
Proof.
  unfold facetLists. simpl. repeat split; try apply sort_Strings_elements.
Qed.

(** ** What a file's name adds to the facets *)

Lemma extractSlotAndNode_cases key :
  extractSlotAndNode key = (0, "") \/
  exists pre N node, allDigits N /\ allAlnum node /\
    key = pre +:+ sidecarName N node /\ 0 <= decimal N <= max_int64 /\
    extractSlotAndNode key = (decimal N, node).
Proof.
  destruct (isSnapshotMetadataFile key) eqn:E.
  - apply isSnapshotMetadataFile_iff in E as (pre & N & node & HN & Hn & ->).
    rewrite (extractSlotAndNode_sidecar pre N node HN Hn).
    pose proof (allDigits_decimal_nonneg N HN).
    destruct (Z.leb_spec (decimal N) max_int64); [right|now left].
    exists pre, N, node. repeat split; solve [apply HN|apply Hn|lia].
  - left. apply extractSlotAndNode_other.
    intros H. apply isSnapshotMetadataFile_iff in H. congruence.
Qed.

(** A positive slot fits an int64 and comes with a node. *)
Lemma extractSlotAndNode_positive key :
  0 < fst (extractSlotAndNode key) ->
  fst (extractSlotAndNode key) <= max_int64 /\
  strNe (snd (extractSlotAndNode key)) "" = true.
Proof.
  destruct (extractSlotAndNode_cases key)
    as [->|(pre & N & node & _ & [Hn _] & _ & Hb & ->)]; simpl; [lia|].
  intros _. split; [lia|]. unfold strNe.
  destruct (String.eqb_spec node ""); [contradiction|reflexivity].
Qed.

Lemma contribution_names st obj :
  nodes (contribution st obj) =
    (if 0 <? fst (extractSlotAndNode (Key obj))
     then {[ snd (extractSlotAndNode (Key obj)) ]} else ∅) /\
  slotRanges (contribution st obj) =
    (if 0 <? fst (extractSlotAndNode (Key obj))
     then {[ getSlotRange (fst (extractSlotAndNode (Key obj))) ]} else ∅).
Proof.
  unfold contribution, indexFile.
  pose proof (extractSlotAndNode_positive (Key obj)) as P.
  destruct (extractSlotAndNode (Key obj)) as [slot node]. simpl in *.
  destruct (Z.ltb_spec 0 slot) as [Hs|Hs].
  - destruct (P Hs) as [_ ->]. simpl.
    destruct (GetObject st (Key obj)) as [| |len [sm|rawData|]];
      cbn [nodes slotRanges emptyFacets]; split; apply (right_id_L ∅ (∪)).
  - simpl.
    destruct (GetObject st (Key obj)) as [| |len [sm|rawData|]];
      cbn [nodes slotRanges emptyFacets]; split; reflexivity.
Qed.

Lemma facets_eq (a b : Facets) :
  versions a = versions b -> statuses a = statuses b ->
  uploaders a = uploaders b -> nodes a = nodes b ->
  slotRanges a = slotRanges b -> a = b.
Proof. destruct a, b; simpl; congruence. Qed.

Lemma named_facets_elem st files x :
  (x ∈ nodes (indexFiles st files) <->
   exists obj, obj ∈ files /\ 0 < fst (extractSlotAndNode (Key obj)) /\
               x = snd (extractSlotAndNode (Key obj))) /\
  (x ∈ slotRanges (indexFiles st files) <->
   exists obj, obj ∈ files /\ 0 < fst (extractSlotAndNode (Key obj)) /\
               x = getSlotRange (fst (extractSlotAndNode (Key obj)))).
Proof.
  destruct (indexFiles_elem st files x) as (_ & _ & _ & -> & ->).
  split; split; intros (obj & Hin & H); exists obj; (split; [exact Hin|]);
    destruct (contribution_names st obj) as [En Es];
    rewrite ?En, ?Es in *; clear En Es;
    destruct (Z.ltb_spec 0 (fst (extractSlotAndNode (Key obj)))) as [Hs|Hs].
  all: try (apply elem_of_singleton in H; now split).
  all: try (now apply elem_of_empty in H).
  all: try (apply elem_of_singleton; tauto).
  all: lia.
Qed.

(** X10. The node and slot-range facets are read off the file names alone:
    a listed file adds its node and the label of its slot exactly when the
    slot its name carries is positive, whatever fetching or decoding the
    file gives, so two stores holding the same names yield the same two
    facets, and a file whose slot is 0 or does not fit an int64 adds
    neither. *)
Theorem name_facets_ignore_content st st' files x :
  (x ∈ nodes (indexFiles st files) <->
   exists obj, obj ∈ files /\ 0 < fst (extractSlotAndNode (Key obj)) /\
               x = snd (extractSlotAndNode (Key obj))) /\
  (x ∈ slotRanges (indexFiles st files) <->
   exists obj, obj ∈ files /\ 0 < fst (extractSlotAndNode (Key obj)) /\
               x = getSlotRange (fst (extractSlotAndNode (Key obj)))) /\
  nodes (indexFiles st files) = nodes (indexFiles st' files) /\
  slotRanges (indexFiles st files) = slotRanges (indexFiles st' files).
Proof.
  split; [apply named_facets_elem|]. split; [apply named_facets_elem|].
  split; apply set_eq; intros y.
  - destruct (named_facets_elem st files y) as [-> _].
    destruct (named_facets_elem st' files y) as [-> _]. reflexivity.
  - destruct (named_facets_elem st files y) as [_ ->].
    destruct (named_facets_elem st' files y) as [_ ->]. reflexivity.
Qed.

Lemma getSlotRange_sentinel slot :
  0 <= slot <= max_int64 -> (getSlotRange slot = "< 1M" <-> slot < 1000000).
Proof.
  intros Ha. destruct (quot_million slot) as (r & E & Hr & Hq); [lia|]. split.
  - intros El. apply (f_equal leadingNumber) in El.
    rewrite (leadingNumber_getSlotRange slot Ha) in El.
    change (leadingNumber "< 1M") with 0 in El. lia.
  - intros Hlt. apply getSlotRange_first_window. lia.
Qed.

Lemma getSlotRange_same_window a b :
  Z.quot a 1000000 = Z.quot b 1000000 -> getSlotRange a = getSlotRange b.
Proof. intros E. unfold getSlotRange. now rewrite E. Qed.

(** The labels the slot-range facet can hold. *)
Lemma slotRanges_labels st files x :
  x ∈ slotRanges (indexFiles st files) ->
  exists slot, 0 < slot <= max_int64 /\ x = getSlotRange slot.
Proof.
  intros H. apply named_facets_elem in H as (obj & _ & Hs & ->).
  exists (fst (extractSlotAndNode (Key obj))). split; [|reflexivity].
  split; [exact Hs|]. now apply extractSlotAndNode_positive.
Qed.

Lemma slotRangeLess_labels a b :
  0 <= a <= max_int64 -> 0 <= b <= max_int64 ->
  getSlotRange a <> getSlotRange b ->
  slotRangeLess (getSlotRange a) (getSlotRange b)
  = (Z.quot a 1000000 <? Z.quot b 1000000).
Proof.
  intros Ha Hb N. unfold slotRangeLess.
  rewrite (leadingNumber_getSlotRange a Ha), (leadingNumber_getSlotRange b Hb).
  destruct (quot_million a) as (ra & Ea & Hra & Hqa); [lia|].
  destruct (quot_million b) as (rb & Eb & Hrb & Hqb); [lia|].
  destruct (String.eqb_spec (getSlotRange a) "< 1M") as [E|E].
  - apply (getSlotRange_sentinel a Ha) in E.
    assert (~ b < 1000000).
    { intros Hlt. apply N. rewrite !getSlotRange_first_window; [reflexivity|lia|lia]. }
    symmetry. apply Z.ltb_lt. lia.
  - destruct (String.eqb_spec (getSlotRange b) "< 1M") as [E'|E'].
    + apply (getSlotRange_sentinel b Hb) in E'.
      symmetry. apply Z.ltb_ge. lia.
    + reflexivity.
Qed.

(** X12. The slot-range list a pass publishes holds each collected label
    once, in strictly ascending order of the window number in front of the
    label; every label is that of a positive slot, and the sentinel for the
    first window, when present, comes first. *)
Theorem slot_range_facet_order st files :
  StronglySorted (fun a b => leadingNumber a < leadingNumber b)
    (foSlotRanges (facetLists (indexFiles st files))) /\
  NoDup (foSlotRanges (facetLists (indexFiles st files))) /\
  (forall x, x ∈ foSlotRanges (facetLists (indexFiles st files)) <->
     exists obj, obj ∈ files /\ 0 < fst (extractSlotAndNode (Key obj)) /\
                 x = getSlotRange (fst (extractSlotAndNode (Key obj)))) /\
  ("< 1M" ∈ foSlotRanges (facetLists (indexFiles st files)) ->
   head (foSlotRanges (facetLists (indexFiles st files))) = Some "< 1M").
Proof.
  cbn [facetLists foSlotRanges].
  set (S := slotRanges (indexFiles st files)).
  assert (L : forall x, x ∈ elements S ->
            exists slot, 0 < slot <= max_int64 /\ x = getSlotRange slot).
  { intros x Hx. apply elem_of_elements in Hx. now apply slotRanges_labels in Hx. }
  set (keyLess := fun a b : string => leadingNumber a <? leadingNumber b).
  assert (E : sort_Slice slotRangeLess (elements S) = sort_Slice keyLess (elements S)).
  { apply sort_Slice_ext_NoDup; [apply NoDup_elements|].
    intros a b Ha Hb N.
    destruct (L a Ha) as (sa & Hsa & ->). destruct (L b Hb) as (sb & Hsb & ->).
    unfold keyLess.
    rewrite slotRangeLess_labels, !leadingNumber_getSlotRange by (auto; lia).
    reflexivity. }
  rewrite E.
  assert (ND : NoDup (sort_Slice keyLess (elements S))).
  { rewrite sort_Slice_perm. apply NoDup_elements. }
  assert (SS : StronglySorted (fun a b => leadingNumber a < leadingNumber b)
                 (sort_Slice keyLess (elements S))).
  { eapply StronglySorted_strengthen; [exact ND| |].
    2: { apply (sort_Slice_sorted keyLess); unfold keyLess.
         - intros a b. rewrite Z.ltb_lt, Z.ltb_ge. lia.
         - intros a b c. rewrite !Z.ltb_ge. lia. }
    intros a b Ha Hb N Hle. cbv beta in Hle. unfold keyLess in Hle.
    apply Z.ltb_ge in Hle.
    rewrite sort_Slice_elem in Ha, Hb.
    destruct (L a Ha) as (sa & Hsa & ->). destruct (L b Hb) as (sb & Hsb & ->).
    rewrite !leadingNumber_getSlotRange in * by lia.
    assert (Z.quot sa 1000000 <> Z.quot sb 1000000); [|lia].
    intros Eq. apply N. now apply getSlotRange_same_window. }
  split; [exact SS|]. split; [exact ND|]. split.
  - intros x. rewrite sort_Slice_elem. unfold S. rewrite elem_of_elements.
    apply named_facets_elem.
  - intros Hin. destruct (sort_Slice keyLess (elements S)) as [|h t] eqn:El;
      [now apply elem_of_nil in Hin|].
    simpl. f_equal. apply elem_of_cons in Hin as [->|Hin]; [reflexivity|].
    exfalso. inversion SS as [|? ? _ Hall]; subst.
    rewrite Forall_forall in Hall. specialize (Hall _ Hin).
    change (leadingNumber "< 1M") with 0 in Hall.
    assert (Hh : h ∈ sort_Slice keyLess (elements S)) by (rewrite El; left).
    rewrite sort_Slice_elem in Hh. destruct (L h Hh) as (sh & Hsh & ->).
    rewrite leadingNumber_getSlotRange in Hall by lia.
    destruct (quot_million sh) as (r & _ & _ & Hq); lia.
Qed.

(** ** The published lists and the order the maps are ranged over *)

Lemma rangeOf_NoDup order set : rangeOf order set -> NoDup order.
Proof. unfold rangeOf. intros ->. apply NoDup_elements. Qed.

Lemma sort_Strings_sorted l :
  NoDup l -> StronglySorted (fun a b => String.ltb a b = true) (sort_Strings l).
Proof.
  intros ND. unfold sort_Strings.
  apply (StronglySorted_strengthen (fun a b => String.ltb b a = false)).
  - rewrite sort_Slice_perm. exact ND.
  - intros a b _ _ N H. apply ltb_total; [exact N|exact H].
  - apply sort_Slice_sorted; [apply ltb_asym|apply ltb_negtrans].
Qed.

(** [sort.Strings] gives the same list from every order of the same
    strings. *)
Lemma sort_Strings_range l l' :
  NoDup l -> l ≡ₚ l' -> sort_Strings l = sort_Strings l'.
Proof.
  intros ND P.
  assert (ND' : NoDup l') by now rewrite <- P.
  apply (StronglySorted_unique_strong (fun a b => String.ltb a b = true)).
  - intros x1 x2 _ _ H1 H2. cbv beta in H1, H2. apply ltb_asym in H1. congruence.
  - now apply sort_Strings_sorted.
  - now apply sort_Strings_sorted.
  - unfold sort_Strings. now rewrite !sort_Slice_perm.
Qed.

Lemma slot_labels_sorted l :
  NoDup l ->
  (forall x, x ∈ l -> exists slot, 0 < slot <= max_int64 /\ x = getSlotRange slot) ->
  StronglySorted (fun a b => leadingNumber a < leadingNumber b)
    (sort_Slice slotRangeLess l).
Proof.
  intros ND L.
  set (keyLess := fun a b : string => leadingNumber a <? leadingNumber b).
  assert (E : sort_Slice slotRangeLess l = sort_Slice keyLess l).
  { apply sort_Slice_ext_NoDup; [exact ND|].
    intros a b Ha Hb N.
    destruct (L a Ha) as (sa & Hsa & ->). destruct (L b Hb) as (sb & Hsb & ->).
    unfold keyLess.
    rewrite slotRangeLess_labels, !leadingNumber_getSlotRange by (auto; lia).
    reflexivity. }
  rewrite E.
  apply (StronglySorted_strengthen (fun a b => keyLess b a = false)).
  - rewrite sort_Slice_perm. exact ND.
  - intros a b Ha Hb N Hle. unfold keyLess in Hle.
    apply Z.ltb_ge in Hle.
    rewrite sort_Slice_elem in Ha, Hb.
    destruct (L a Ha) as (sa & Hsa & ->). destruct (L b Hb) as (sb & Hsb & ->).
    rewrite !leadingNumber_getSlotRange in * by lia.
    assert (Z.quot sa 1000000 <> Z.quot sb 1000000); [|lia].
    intros Eq. apply N. now apply getSlotRange_same_window.
  - apply (sort_Slice_sorted keyLess); unfold keyLess.
    + intros a b. rewrite Z.ltb_lt, Z.ltb_ge. lia.
    + intros a b c. rewrite !Z.ltb_ge. lia.
Qed.

Lemma slot_labels_range l l' :
  NoDup l ->
  (forall x, x ∈ l -> exists slot, 0 < slot <= max_int64 /\ x = getSlotRange slot) ->
  l ≡ₚ l' ->
  sort_Slice slotRangeLess l = sort_Slice slotRangeLess l'.
Proof.
  intros ND L P.
  assert (ND' : NoDup l') by now rewrite <- P.
  assert (L' : forall x, x ∈ l' ->
            exists slot, 0 < slot <= max_int64 /\ x = getSlotRange slot).
  { intros x Hx. apply L. now rewrite P. }
  apply (StronglySorted_unique_strong
           (fun a b => leadingNumber a < leadingNumber b)).
  - intros x1 x2 _ _ H1 H2. cbv beta in H1, H2. exfalso. lia.
  - now apply slot_labels_sorted.
  - now apply slot_labels_sorted.
  - now rewrite !sort_Slice_perm.
Qed.

Lemma facetLists_elementsOrders acc : facetLists acc = facetListsIn (elementsOrders acc).
Proof. reflexivity. Qed.

(** X11. The sets a pass collects depend only on which files were handled,
    not on the order in which the workers took them from the channel nor
    on how often a file was handled.  The status, uploader, node and
    slot-range lists published from them are the same whatever order the
    maps are ranged over; the version list holds the same versions, each
    once, in an order that can depend on the order the map is ranged
    over. *)
Theorem indexFiles_order_independent st files files' o o' :
  (forall obj, obj ∈ files <-> obj ∈ files') ->
  rangesFacets o (indexFiles st files) ->
  rangesFacets o' (indexFiles st files') ->
  indexFiles st files = indexFiles st files' /\
  foStatuses (facetListsIn o) = foStatuses (facetListsIn o') /\
  foUploadedBy (facetListsIn o) = foUploadedBy (facetListsIn o') /\
  foNodes (facetListsIn o) = foNodes (facetListsIn o') /\
  foSlotRanges (facetListsIn o) = foSlotRanges (facetListsIn o') /\
  foSolanaVersions (facetListsIn o) ≡ₚ foSolanaVersions (facetListsIn o') /\
  NoDup (foSolanaVersions (facetListsIn o)).
Proof.
  intros H Ho Ho'.
  assert (E : indexFiles st files = indexFiles st files').
  { apply facets_eq; apply set_eq; intros x;
      destruct (indexFiles_elem st files x) as (H1 & H2 & H3 & H4 & H5);
      destruct (indexFiles_elem st files' x) as (H1' & H2' & H3' & H4' & H5').
    - rewrite H1, H1'. split; intros (ob & Hob & Hx); exists ob; split; auto; now apply H.
    - rewrite H2, H2'. split; intros (ob & Hob & Hx); exists ob; split; auto; now apply H.
    - rewrite H3, H3'. split; intros (ob & Hob & Hx); exists ob; split; auto; now apply H.
    - rewrite H4, H4'. split; intros (ob & Hob & Hx); exists ob; split; auto; now apply H.
    - rewrite H5, H5'. split; intros (ob & Hob & Hx); exists ob; split; auto; now apply H. }
  rewrite <- E in Ho'.
  destruct Ho as (Hv & Hs & Hu & Hn & Hr).
  destruct Ho' as (Hv' & Hs' & Hu' & Hn' & Hr').
  unfold rangeOf in *. cbn [facetListsIn foSolanaVersions foStatuses foUploadedBy
    foNodes foSlotRanges].
  split; [exact E|].
  split; [apply sort_Strings_range; [now apply (rangeOf_NoDup _ _ Hs)|now rewrite Hs, Hs']|].
  split; [apply sort_Strings_range; [now apply (rangeOf_NoDup _ _ Hu)|now rewrite Hu, Hu']|].
  split; [apply sort_Strings_range; [now apply (rangeOf_NoDup _ _ Hn)|now rewrite Hn, Hn']|].
  split; [|split].
  - apply slot_labels_range; [now apply (rangeOf_NoDup _ _ Hr)| |now rewrite Hr, Hr'].
    intros x Hx. rewrite Hr in Hx. apply elem_of_elements in Hx.
    now apply slotRanges_labels in Hx.
  - now rewrite !sort_Slice_perm, Hv, Hv'.
  - rewrite sort_Slice_perm. now apply (rangeOf_NoDup _ _ Hv).
Qed.

(** The theorem at work on two sidecars that cannot be fetched, handled in
    either order, the first of them twice, with the node and slot-range
    maps ranged over in opposite orders. *)
Lemma indexFiles_order_independent_witness :
  foNodes (facetListsIn
    {| overVersions := []; overStatuses := []; overUploaders := [];
       overNodes := ["a"; "b"]; overSlotRanges := ["1M-2M"; "< 1M"] |})
  = foNodes (facetListsIn
    {| overVersions := []; overStatuses := []; overUploaders := [];
       overNodes := ["b"; "a"]; overSlotRanges := ["< 1M"; "1M-2M"] |}) /\
  foSlotRanges (facetListsIn
    {| overVersions := []; overStatuses := []; overUploaders := [];
       overNodes := ["a"; "b"]; overSlotRanges := ["1M-2M"; "< 1M"] |})
  = foSlotRanges (facetListsIn
    {| overVersions := []; overStatuses := []; overUploaders := [];
       overNodes := ["b"; "a"]; overSlotRanges := ["< 1M"; "1M-2M"] |}).
Proof.
  destruct (indexFiles_order_independent emptyBucket
    [listedObject "snapshot-1000000-a.json" 40 0 "";
     listedObject "snapshot-7-b.json" 40 0 ""]
    [listedObject "snapshot-7-b.json" 40 0 "";
     listedObject "snapshot-1000000-a.json" 40 0 "";
     listedObject "snapshot-1000000-a.json" 40 0 ""]
    {| overVersions := []; overStatuses := []; overUploaders := [];
       overNodes := ["a"; "b"]; overSlotRanges := ["1M-2M"; "< 1M"] |}
    {| overVersions := []; overStatuses := []; overUploaders := [];
       overNodes := ["b"; "a"]; overSlotRanges := ["< 1M"; "1M-2M"] |})
    as (_ & _ & _ & Hn & Hr & _).
  - intros obj. rewrite !elem_of_cons, !elem_of_nil. tauto.
  - unfold rangesFacets, rangeOf. vm_compute.
    repeat split; first [reflexivity|apply perm_swap].
  - unfold rangesFacets, rangeOf. vm_compute.
    repeat split; first [reflexivity|apply perm_swap].
  - split; [exact Hn|exact Hr].
Defined.

(** The order of the version list does depend on the order the map is
    ranged over: the comparator leaves 1.18.0 and v1.18.0 undecided both
    ways, and the sort keeps them as it finds them. *)
Example version_list_follows_range_order :
  versionLess "1.18.0" "v1.18.0" = false /\
  versionLess "v1.18.0" "1.18.0" = false /\
  sort_Slice versionLess ["1.18.0"; "v1.18.0"] = ["1.18.0"; "v1.18.0"] /\
  sort_Slice versionLess ["v1.18.0"; "1.18.0"] = ["v1.18.0"; "1.18.0"].
Proof. vm_compute. repeat split. Qed.

(** ** Reindexing on request and the options endpoint *)

Lemma cachedOptions_deleted w :
  cachedOptions
    {| cacheService := (fun c => cacheDelete c metadataOptionsKey) <$> cacheService w;
       filterOptions := filterOptions w; listCalls := listCalls w |} = None.
Proof.
  unfold cachedOptions, cacheGet, cacheDelete. simpl.
  destruct (cacheService w) as [c|]; simpl; [|reflexivity].
  now rewrite lookup_delete_eq.
Qed.

Lemma cachedOptions_indexMetadata st w :
  cachedOptions (indexMetadata st w) = cachedOptions w.
Proof. unfold cachedOptions. now rewrite indexMetadata_cache. Qed.

(** X13. [DebugReindex] always lists the bucket, once, whatever the cache
    held: on a listing the facets in memory are replaced by those of the
    candidates, on a failed listing they stay.  The cache holds no facets
    afterwards, so the next pass lists the bucket again. *)
Theorem DebugReindex_lists_again st w :
  listCalls (DebugReindex st w) = S (listCalls w) /\
  cachedOptions (DebugReindex st w) = None /\
  (forall objects, ListObjects st = Some objects ->
     filterOptions (DebugReindex st w)
     = facetLists (indexFiles st (List.filter isMetadataCandidate objects))) /\
  (ListObjects st = None ->
     filterOptions (DebugReindex st w) = filterOptions w) /\
  listCalls (indexMetadata st (DebugReindex st w)) = S (S (listCalls w)).
Proof.
  unfold DebugReindex.
  pose proof (cachedOptions_deleted w) as D.
  set (w0 := {| cacheService := _; filterOptions := _; listCalls := _ |}) in *.
  assert (L : listCalls (indexMetadata st w0) = S (listCalls w)).
  { now rewrite (indexMetadata_miss st w0 D). }
  assert (C : cachedOptions (indexMetadata st w0) = None).
  { now rewrite cachedOptions_indexMetadata. }
  split; [exact L|]. split; [exact C|]. split; [|split].
  - intros objects El. now apply indexMetadata_listed.
  - intros El. now rewrite (indexMetadata_listing_failed st w0 D El).
  - now rewrite (indexMetadata_miss _ _ C), L.
Qed.

(** X14. [GetMetadataOptions] never lists the bucket and never writes to
    the cache.  It starts an indexing pass exactly when it answers with the
    empty options, and otherwise answers with the facets it leaves in
    memory, which hold a version or a status.  Facets in memory that hold a
    version or a status are answered as they are, without a look at the
    cache; the facets in memory change only into the cached ones. *)
Theorem GetMetadataOptions_answer w :
  cacheService (snd (fst (GetMetadataOptions w))) = cacheService w /\
  listCalls (snd (fst (GetMetadataOptions w))) = listCalls w /\
  (snd (GetMetadataOptions w) = true ->
     fst (fst (GetMetadataOptions w)) = emptyOptions) /\
  (snd (GetMetadataOptions w) = false ->
     fst (fst (GetMetadataOptions w))
       = filterOptions (snd (fst (GetMetadataOptions w))) /\
     looksUnindexed (fst (fst (GetMetadataOptions w))) = false) /\
  (looksUnindexed (filterOptions w) = false ->
     GetMetadataOptions w = (filterOptions w, w, false)) /\
  (filterOptions (snd (fst (GetMetadataOptions w))) = filterOptions w \/
   cachedOptions w = Some (filterOptions (snd (fst (GetMetadataOptions w))))).
Proof.
  unfold GetMetadataOptions.
  destruct (looksUnindexed (filterOptions w)) eqn:E.
  - destruct (cachedOptions w) as [cached|] eqn:Ec.
    + destruct (looksUnindexed cached) eqn:E'; simpl;
        repeat split; try discriminate; auto.
    + rewrite E. simpl. repeat split; try discriminate; auto.
  - rewrite E. simpl. repeat split; try discriminate; auto.
Qed.

Lemma sort_Slice_nil {A} (less : A -> A -> bool) : sort_Slice less [] = [].
Proof. reflexivity. Qed.

(** X15. When none of the listed sidecars can be fetched, read or decoded,
    a pass publishes no version, status or uploader, but still the nodes
    read off the names; the options endpoint then answers with the empty
    options, the nodes left out, and starts another pass. *)
Theorem unreadable_sidecars_hide_names st w objects :
  cachedOptions w = None ->
  ListObjects st = Some objects ->
  (forall obj, obj ∈ objects -> isMetadataCandidate obj = true -> skipped st obj) ->
  foSolanaVersions (filterOptions (indexMetadata st w)) = [] /\
  foStatuses (filterOptions (indexMetadata st w)) = [] /\
  foUploadedBy (filterOptions (indexMetadata st w)) = [] /\
  (forall x, x ∈ foNodes (filterOptions (indexMetadata st w)) <->
     exists obj, obj ∈ objects /\ isMetadataCandidate obj = true /\
       0 < fst (extractSlotAndNode (Key obj)) /\
       x = snd (extractSlotAndNode (Key obj))) /\
  GetMetadataOptions (indexMetadata st w)
    = (emptyOptions, indexMetadata st w, true).
Proof.
  intros Hc Hl Hs.
  pose proof (indexMetadata_listed st w objects Hc Hl) as E.
  set (files := List.filter isMetadataCandidate objects) in *.
  assert (Hf : forall obj, obj ∈ files <->
                 obj ∈ objects /\ isMetadataCandidate obj = true).
  { intros obj. unfold files. rewrite !list_elem_of_In, filter_In. reflexivity. }
  assert (Ev : versions (indexFiles st files) = ∅ /\
               statuses (indexFiles st files) = ∅ /\
               uploaders (indexFiles st files) = ∅).
  { repeat split; apply elem_of_equiv_empty_L; intros x Hx;
      apply indexFiles_elem in Hx as (obj & Ho & Hx);
      apply Hf in Ho as [Ho Hcand];
      destruct (skipped_contribution st obj (Hs obj Ho Hcand)) as (E1 & E2 & E3);
      rewrite ?E1, ?E2, ?E3 in Hx; now apply elem_of_empty in Hx. }
  destruct Ev as (E1 & E2 & E3).
  assert (V : foSolanaVersions (filterOptions (indexMetadata st w)) = []).
  { rewrite E. cbn [facetLists foSolanaVersions]. now rewrite E1, elements_empty. }
  assert (T : foStatuses (filterOptions (indexMetadata st w)) = []).
  { rewrite E. cbn [facetLists foStatuses]. now rewrite E2, elements_empty. }
  split; [exact V|]. split; [exact T|]. split; [|split].
  - rewrite E. cbn [facetLists foUploadedBy]. now rewrite E3, elements_empty.
  - intros x. rewrite E. cbn [facetLists foNodes]. unfold sort_Strings.
    rewrite sort_Slice_elem, elem_of_elements.
    destruct (named_facets_elem st files x) as [-> _].
    split; intros (obj & Ho & H); exists obj.
    + apply Hf in Ho. tauto.
    + split; [apply Hf|]; tauto.
  - unfold GetMetadataOptions, looksUnindexed.
    rewrite V, T, cachedOptions_indexMetadata, Hc. simpl.
    now rewrite V, T.
Qed.

(** The theorem at work on a bucket whose only sidecar cannot be fetched:
    the node of its name is in memory and the endpoint leaves it out. *)
Lemma unreadable_sidecars_hide_names_witness :
  foNodes (filterOptions (indexMetadata unreadableBucket (NewHandler None))) = ["n"] /\
  GetMetadataOptions (indexMetadata unreadableBucket (NewHandler None))
    = (emptyOptions, indexMetadata unreadableBucket (NewHandler None), true).
Proof.
  split; [reflexivity|].
  apply (unreadable_sidecars_hide_names unreadableBucket (NewHandler None)
           [listedObject "snapshot-7-n.json" 40 0 ""]);
    [reflexivity|reflexivity|].
  intros obj _ _. exact I.
Defined.

(** ** The hub and the poller side by side *)

Lemma broadcastTo_lastFiles message h c h' :
  broadcastTo message h c = Ok h' -> lastFiles h' = lastFiles h.
Proof.
  unfold broadcastTo. destruct (chans h !! c) as [ch|]; [|discriminate].
  destruct (closed ch); [discriminate|].
  destruct (isFull ch); intros E; injection E as <-; reflexivity.
Qed.

Lemma broadcastLoop_lastFiles message order : forall h h',
  broadcastLoop message order h = Ok h' -> lastFiles h' = lastFiles h.
Proof.
  induction order as [|c rest IH]; intros h h' E; simpl in E.
  - now injection E as <-.
  - destruct (broadcastTo message h c) as [h1| |] eqn:E1; try discriminate.
    rewrite (IH _ _ E). now apply broadcastTo_lastFiles in E1.
Qed.

Lemma hubStep_lastFiles e h h' :
  hubStep e h = Ok h' -> lastFiles h' = lastFiles h.
Proof.
  destruct e as [c|c|message order]; simpl.
  - destruct (lastFiles h) eqn:El; [intros E; now injection E as <-|].
    destruct (chans h !! c) as [ch|]; [|discriminate].
    destruct (closed ch); [discriminate|].
    destruct (isFull ch); [discriminate|]. intros E. now injection E as <-.
  - destruct (decide (c ∈ clients h)); [|intros E; now injection E as <-].
    destruct (chans h !! c) as [ch|]; [|discriminate].
    destruct (closed ch); [discriminate|]. intros E. now injection E as <-.
  - apply broadcastLoop_lastFiles.
Qed.

Lemma clientReceive_lastFiles c h : lastFiles (clientReceive c h) = lastFiles h.
Proof. unfold clientReceive. now destruct (chans h !! c). Qed.

Lemma clientReceive_clients c h : clients (clientReceive c h) = clients h.
Proof. unfold clientReceive. now destruct (chans h !! c). Qed.

(** Unregistering never panics while the registered clients have an open
    queue. *)
Lemma unregister_runs c h :
  hubOk h -> exists h', hubStep (Unregister c) h = Ok h'.
Proof.
  intros Hok. simpl. destruct (decide (c ∈ clients h)) as [Hc|Hc]; [|eauto].
  destruct (Hok c Hc) as (ch & -> & ->). eauto.
Qed.

(** The register case as the atomic step takes it is the two halves one
    after the other. *)
Lemma register_in_two_halves c h :
  hubStep (Register c) h = greet c (addClient c h).
Proof.
  unfold greet, addClient. simpl. destruct (lastFiles h); [reflexivity|].
  destruct (chans h !! c) as [ch|]; [|reflexivity].
  destruct (closed ch); [reflexivity|]. now destruct (isFull ch).
Qed.

Lemma greet_fresh c h :
  chans h !! c = Some {| buf := []; closed := false |} ->
  greet c h
  = Ok (match lastFiles h with
        | [] => h
        | _ :: _ =>
            {| clients := clients h;
               chans := <[c := {| buf := [lastFiles h]; closed := false |}]> (chans h);
               lastFiles := lastFiles h |}
        end).
Proof.
  intros E. unfold greet. destruct (lastFiles h) as [|o l]; [reflexivity|].
  rewrite E. reflexivity.
Qed.

Lemma systemOk_Start : systemOk Start.
Proof.
  split; [exact NewHub_ok|]. split.
  - intros c H. discriminate.
  - intros objects [H|H]; discriminate.
Qed.

Lemma step_keeps_ok m s s' :
  systemOk s -> feasible m s -> step m s = Ok s' -> systemOk s'.
Proof.
  intros (Hok & Hlock & Hpoll) Hf E.
  destruct s as [h hpc ppc]. cbn [hub hubPc pollerPc] in *.
  destruct m as [c| |c|listing|order| |c| |]; cbn [step hubPc pollerPc hub] in E.
  - (* ServeWs *)
    destruct hpc; try discriminate. injection E as <-.
    split; [|split]; cbn [hub hubPc pollerPc].
    + intros c' Hc'. cbn [addClient newClient clients chans] in *.
      destruct (decide (c' = c)) as [->|N].
      * rewrite lookup_insert_eq. eauto.
      * rewrite lookup_insert_ne by congruence.
        apply elem_of_union in Hc' as [Hc'|Hc']; [|now apply Hok].
        apply elem_of_singleton in Hc'. contradiction.
    + intros c' Hc'. injection Hc' as <-.
      cbn [addClient newClient clients chans]. split.
      * apply elem_of_union. left. now apply elem_of_singleton.
      * now rewrite lookup_insert_eq.
    + exact Hpoll.
  - (* LockAndGreet *)
    destruct hpc as [|c|]; try discriminate.
    destruct (mutexHeld _) eqn:Hm; [discriminate|].
    destruct (Hlock c eq_refl) as [Hc Ech].
    rewrite (greet_fresh c h Ech) in E. cbn [hubMoves] in E. injection E as <-.
    split; [|split]; cbn [hub hubPc pollerPc].
    + destruct (lastFiles h) as [|o l]; [exact Hok|].
      intros c' Hc'. cbn [clients chans] in *.
      destruct (decide (c' = c)) as [->|N].
      * rewrite lookup_insert_eq. eauto.
      * rewrite lookup_insert_ne by congruence. now apply Hok.
    + intros c' H. discriminate.
    + intros objects H. unfold mutexHeld in Hm. cbn [pollerPc] in Hm.
      destruct H as [-> | ->]; discriminate.
  - (* ReadPumpEnds *)
    destruct hpc; try discriminate.
    destruct (hubStep (Unregister c) h) as [h'| |] eqn:Eh; try discriminate.
    cbn [hubMoves] in E. injection E as <-.
    split; [|split]; cbn [hub hubPc pollerPc].
    + exact (hubStep_keeps_ok (Unregister c) h h' Hok I Eh).
    + intros c' H. discriminate.
    + intros objects H. rewrite (hubStep_lastFiles _ _ _ Eh). now apply Hpoll.
  - (* Tick *)
    destruct ppc; try discriminate.
    destruct listing as [objects|].
    + destruct (Nat.ltb_spec (length (lastFiles h)) (length objects)) as [Hlt|Hge];
        injection E as <-.
      * split; [exact Hok|]. split; [exact Hlock|]. cbn [hub pollerPc].
        intros objects' [H|H]; [|discriminate]. now injection H as <-.
      * split; [exact Hok|]. split; [exact Hlock|exact Hpoll].
    + injection E as <-. split; [exact Hok|]. split; [exact Hlock|exact Hpoll].
  - (* Deliver *)
    destruct hpc; try discriminate. destruct ppc as [|objects| |]; try discriminate.
    destruct (hubStep (Broadcast objects order) h) as [h'| |] eqn:Eh; try discriminate.
    cbn [hubMoves] in E. injection E as <-.
    split; [|split]; cbn [hub hubPc pollerPc].
    + exact (hubStep_keeps_ok (Broadcast objects order) h h' Hok Hf Eh).
    + intros c' H. discriminate.
    + intros objects' [H|H]; [discriminate|]. injection H as <-.
      rewrite (hubStep_lastFiles _ _ _ Eh). apply Hpoll. now left.
  - (* Update *)
    destruct ppc as [| |objects|]; try discriminate. injection E as <-.
    split; [|split]; cbn [hub hubPc pollerPc].
    + exact Hok.
    + exact Hlock.
    + intros objects' [H|H]; discriminate.
  - (* WritePump *)
    injection E as <-. split; [|split]; cbn [hub hubPc pollerPc].
    + now apply clientReceive_keeps_ok.
    + intros c' H. destruct (Hlock c' H) as [Hc Ech].
      rewrite clientReceive_clients. split; [exact Hc|].
      unfold clientReceive. destruct (chans h !! c) as [ch|] eqn:Ec; [|exact Ech].
      cbn [chans]. destruct (decide (c' = c)) as [->|N].
      * rewrite lookup_insert_eq. rewrite Ec in Ech. now injection Ech as ->.
      * now rewrite lookup_insert_ne by congruence.
    + intros objects H. rewrite clientReceive_lastFiles. now apply Hpoll.
  - (* HubDone *)
    destruct hpc; try discriminate. injection E as <-.
    split; [exact Hok|]. split; [|exact Hpoll]. intros c' H. discriminate.
  - (* PollerDone *)
    destruct ppc; try discriminate. injection E as <-.
    split; [exact Hok|]. split; [exact Hlock|].
    intros objects [H|H]; discriminate.
Qed.

Lemma reaches_keeps_ok s s' : reaches s s' -> systemOk s -> systemOk s'.
Proof.
  induction 1 as [s|s m s1 s2 Hf E _ IH]; [auto|].
  intros Hs. apply IH. exact (step_keeps_ok m s s1 Hs Hf E).
Qed.

Lemma step_no_panic m s :
  systemOk s -> feasible m s -> step m s <> Panic.
Proof.
  intros (Hok & Hlock & Hpoll) Hf.
  destruct s as [h hpc ppc]. cbn [hub hubPc pollerPc] in *.
  destruct m as [c| |c|listing|order| |c| |]; cbn [step hubPc pollerPc hub].
  - destruct hpc; discriminate.
  - destruct hpc as [|c|]; try discriminate.
    destruct (mutexHeld _); [discriminate|].
    destruct (Hlock c eq_refl) as [_ Ech]. rewrite (greet_fresh c h Ech).
    discriminate.
  - destruct hpc; try discriminate.
    destruct (unregister_runs c h Hok) as [h' ->]. discriminate.
  - destruct ppc; try discriminate. destruct listing; [|discriminate].
    destruct (_ <? _)%nat; discriminate.
  - destruct hpc; try discriminate. destruct ppc as [|objects| |]; try discriminate.
    destruct (broadcast_step objects order h Hok Hf) as (h' & -> & _). discriminate.
  - destruct ppc; discriminate.
  - discriminate.
  - destruct hpc; discriminate.
  - destruct ppc; discriminate.
Qed.

(** X16. However the hub, the poller and the clients take their turns from
    the start, every registered client has an open queue, and no move
    panics: no queue is closed twice and nothing is sent on a closed queue.
    The hub greets a new client as soon as the mutex is free, since the
    client's queue is still empty, and it gets through a broadcast and an
    unregistration without waiting. *)
Theorem system_never_panics s m :
  reaches Start s -> feasible m s ->
  step m s <> Panic /\
  hubOk (hub s) /\
  (forall client, hubPc s = Locking client -> mutexHeld s = false ->
     exists s', step LockAndGreet s = Ok s') /\
  (forall objects order, hubPc s = AtSelect -> pollerPc s = Sending objects ->
     rangesOver order (hub s) ->
     exists s', step (Deliver order) s = Ok s') /\
  (forall client, hubPc s = AtSelect ->
     exists s', step (ReadPumpEnds client) s = Ok s').
Proof.
  intros Hr Hf.
  pose proof (reaches_keeps_ok Start s Hr systemOk_Start) as Hs.
  split; [now apply step_no_panic|].
  destruct Hs as (Hok & Hlock & Hpoll).
  split; [exact Hok|]. split; [|split].
  - intros c Hc Hm. unfold step. rewrite Hc, Hm.
    destruct (Hlock c Hc) as [_ Ech]. rewrite (greet_fresh c _ Ech).
    cbn [hubMoves]. eauto.
  - intros objects order Hh Hp Hrange. cbn [step]. rewrite Hh, Hp.
    destruct (broadcast_step objects order (hub s) Hok Hrange) as (h' & -> & _).
    cbn [hubMoves]. eauto.
  - intros c Hh. cbn [step]. rewrite Hh.
    destruct (unregister_runs c (hub s) Hok) as [h' ->]. cbn [hubMoves]. eauto.
Qed.

(** The theorem at work at the start, on the first client to connect. *)
Lemma system_never_panics_witness :
  step (ServeWs 1%nat) Start <> Panic /\ hubOk (hub Start).
Proof.
  destruct (system_never_panics Start (ServeWs 1%nat)) as (H1 & H2 & _).
  - apply reaches_here.
  - reflexivity.
  - split; [exact H1|exact H2].
Defined.

Lemma deadlocked_step m s c objects s' :
  hubPc s = Locking c -> pollerPc s = Sending objects ->
  step m s = Ok s' ->
  hubPc s' = Locking c /\ pollerPc s' = Sending objects /\
  clients (hub s') = clients (hub s) /\
  lastFiles (hub s') = lastFiles (hub s).
Proof.
  intros Hh Hp. destruct m; cbn [step]; unfold mutexHeld; rewrite ?Hh, ?Hp;
    try discriminate.
  intros E. injection E as <-. cbn [hub hubPc pollerPc].
  now rewrite clientReceive_clients, clientReceive_lastFiles.
Qed.

Lemma deadlocked_blocked m s c objects :
  hubPc s = Locking c -> pollerPc s = Sending objects ->
  (forall c', m <> WritePump c') -> step m s = Blocked.
Proof.
  intros Hh Hp N. destruct m; cbn [step]; unfold mutexHeld; rewrite ?Hh, ?Hp;
    try reflexivity.
  now destruct (N client).
Qed.

(** X17. When a client connects and the poller finds a longer listing
    before the hub has taken the mutex for the greeting, the hub waits for
    the mutex the poller holds and the poller waits for the hub to take its
    message: from then on neither goroutine moves, not even to return when
    the context is done.  No client is registered, unregistered or sent
    anything any more, and the listing is never recorded; all that still
    happens is that clients empty their queues. *)
Theorem register_during_poll_deadlocks s c objects :
  hubPc s = AtSelect -> pollerPc s = AtTicker ->
  (length (lastFiles (hub s)) < length objects)%nat ->
  exists s1 s2,
    step (ServeWs c) s = Ok s1 /\
    step (Tick (Some objects)) s1 = Ok s2 /\
    forall s3, reaches s2 s3 ->
      hubPc s3 = Locking c /\ pollerPc s3 = Sending objects /\
      clients (hub s3) = clients (hub s2) /\
      lastFiles (hub s3) = lastFiles (hub s) /\
      forall m, (forall c', m <> WritePump c') -> step m s3 = Blocked.
Proof.
  intros Hh Hp Hlen.
  exists {| hub := addClient c (newClient c (hub s)); hubPc := Locking c;
            pollerPc := AtTicker |}.
  exists {| hub := addClient c (newClient c (hub s)); hubPc := Locking c;
            pollerPc := Sending objects |}.
  split; [cbn [step]; now rewrite Hh, Hp|].
  split.
  { cbn [step pollerPc hub addClient newClient lastFiles].
    apply Nat.ltb_lt in Hlen. now rewrite Hlen. }
  set (s2 := {| hub := _; hubPc := Locking c; pollerPc := Sending objects |}).
  assert (G : forall a b, reaches a b ->
            hubPc a = Locking c -> pollerPc a = Sending objects ->
            hubPc b = Locking c /\ pollerPc b = Sending objects /\
            clients (hub b) = clients (hub a) /\
            lastFiles (hub b) = lastFiles (hub a)).
  { induction 1 as [a|a m a1 a2 _ E _ IH]; intros Ha Hb; [auto|].
    destruct (deadlocked_step m a c objects a1 Ha Hb E) as (H1 & H2 & H3 & H4).
    destruct (IH H1 H2) as (K1 & K2 & K3 & K4).
    repeat split; congruence. }
  intros s3 Hr. destruct (G s2 s3 Hr eq_refl eq_refl) as (H1 & H2 & H3 & H4).
  split; [exact H1|]. split; [exact H2|]. split; [exact H3|].
  split; [exact H4|]. intros m N. now apply (deadlocked_blocked m s3 c objects).
Qed.

(** The theorem at work from the start: the first client connects while
    the poller publishes the first listing. *)
Lemma register_during_poll_deadlocks_witness :
  exists s1 s2,
    step (ServeWs 1%nat) Start = Ok s1 /\
    step (Tick (Some [listedObject "a.tar.gz" 1 0 ""])) s1 = Ok s2 /\
    forall s3, reaches s2 s3 ->
      hubPc s3 = Locking 1%nat /\
      pollerPc s3 = Sending [listedObject "a.tar.gz" 1 0 ""] /\
      clients (hub s3) = clients (hub s2) /\
      lastFiles (hub s3) = lastFiles (hub Start) /\
      forall m, (forall c', m <> WritePump c') -> step m s3 = Blocked.
Proof.
  apply (register_during_poll_deadlocks Start 1%nat
           [listedObject "a.tar.gz" 1 0 ""]);
    [reflexivity|reflexivity|simpl; lia].
Defined.

(** X18. A client that connects while the mutex is free is registered and
    greeted in two moves: its queue then holds the last listing and
    nothing else, or nothing at all when no listing has been recorded yet;
    the other queues and the last listing are as before, and the two moves
    together are the register case taken at once. *)
Theorem new_client_greeted_with_last_files s c :
  hubPc s = AtSelect -> mutexHeld s = false ->
  exists s1 s2,
    step (ServeWs c) s = Ok s1 /\ step LockAndGreet s1 = Ok s2 /\
    hubPc s2 = AtSelect /\ pollerPc s2 = pollerPc s /\
    clients (hub s2) = {[ c ]} ∪ clients (hub s) /\
    lastFiles (hub s2) = lastFiles (hub s) /\
    chans (hub s2) !! c
      = Some {| buf := match lastFiles (hub s) with
                       | [] => []
                       | _ :: _ => [lastFiles (hub s)]
                       end;
                closed := false |} /\
    (forall c', c' <> c -> chans (hub s2) !! c' = chans (hub s) !! c') /\
    hubStep (Register c) (newClient c (hub s)) = Ok (hub s2).
Proof.
  intros Hh Hm.
  set (h1 := addClient c (newClient c (hub s))).
  assert (Ech : chans h1 !! c = Some {| buf := []; closed := false |}).
  { unfold h1. cbn [addClient newClient chans]. now rewrite lookup_insert_eq. }
  pose proof (greet_fresh c h1 Ech) as G.
  exists {| hub := h1; hubPc := Locking c; pollerPc := pollerPc s |}.
  eexists. split; [cbn [step]; now rewrite Hh|]. split.
  { cbn [step hubPc]. unfold mutexHeld in *. cbn [pollerPc hub]. rewrite Hm, G.
    cbn [hubMoves]. reflexivity. }
  cbn [hub hubPc pollerPc]. rewrite register_in_two_halves. fold h1. rewrite G.
  replace (lastFiles h1) with (lastFiles (hub s)) by reflexivity.
  destruct (lastFiles (hub s)) as [|o l] eqn:El;
    cbn [clients chans lastFiles h1 addClient newClient]; unfold h1;
    cbn [clients chans lastFiles addClient newClient];
    repeat split; rewrite ?lookup_insert_eq; try reflexivity; try exact El.
  - intros c' N. now rewrite lookup_insert_ne by congruence.
  - intros c' N. now rewrite !lookup_insert_ne by congruence.
Qed.

(** The theorem at work on a hub that has recorded a listing of one
    archive: the first client finds that listing in its queue. *)
Lemma new_client_greeted_with_last_files_witness :
  exists s1 s2,
    step (ServeWs 1%nat)
      {| hub := setLastFiles [listedObject "a.tar.gz" 1 0 ""] NewHub;
         hubPc := AtSelect; pollerPc := AtTicker |} = Ok s1 /\
    step LockAndGreet s1 = Ok s2 /\
    chans (hub s2) !! 1%nat
      = Some {| buf := [[listedObject "a.tar.gz" 1 0 ""]]; closed := false |}.
Proof.
  destruct (new_client_greeted_with_last_files
              {| hub := setLastFiles [listedObject "a.tar.gz" 1 0 ""] NewHub;
                 hubPc := AtSelect; pollerPc := AtTicker |} 1%nat)
    as (s1 & s2 & H1 & H2 & _ & _ & _ & _ & H7 & _); [reflexivity|reflexivity|].
  exists s1, s2. split; [exact H1|]. split; [exact H2|exact H7].
Defined.

Lemma greet_lastFiles c h h' : greet c h = Ok h' -> lastFiles h' = lastFiles h.
Proof.
  unfold greet. destruct (lastFiles h) eqn:El; [intros E; now injection E as <-|].
  destruct (chans h !! c) as [ch|]; [|discriminate].
  destruct (closed ch); [discriminate|].
  destruct (isFull ch); [discriminate|]. intros E. now injection E as <-.
Qed.

(** A move leaves the recorded listing as it is or replaces it by a longer
    one. *)
Lemma step_lastFiles m s s' :
  systemOk s -> step m s = Ok s' ->
  lastFiles (hub s') = lastFiles (hub s) \/
  (length (lastFiles (hub s)) < length (lastFiles (hub s')))%nat.
Proof.
  intros (_ & _ & Hpoll) E.
  destruct s as [h hpc ppc]. cbn [hub hubPc pollerPc] in *.
  destruct m as [c| |c|listing|order| |c| |]; cbn [step hubPc pollerPc hub] in E.
  - destruct hpc; try discriminate. injection E as <-. now left.
  - destruct hpc as [|c|]; try discriminate.
    destruct (mutexHeld _); [discriminate|].
    destruct (greet c h) as [h'| |] eqn:G; try discriminate.
    injection E as <-. left. exact (greet_lastFiles _ _ _ G).
  - destruct hpc; try discriminate.
    destruct (hubStep (Unregister c) h) as [h'| |] eqn:Eh; try discriminate.
    injection E as <-. left. exact (hubStep_lastFiles _ _ _ Eh).
  - destruct ppc; try discriminate. destruct listing as [objects|].
    + destruct (_ <? _)%nat; injection E as <-; now left.
    + injection E as <-. now left.
  - destruct hpc; try discriminate. destruct ppc as [|objects| |]; try discriminate.
    destruct (hubStep (Broadcast objects order) h) as [h'| |] eqn:Eh; try discriminate.
    injection E as <-. left. exact (hubStep_lastFiles _ _ _ Eh).
  - destruct ppc as [| |objects|]; try discriminate. injection E as <-.
    right. cbn [hub setLastFiles lastFiles]. apply Hpoll. now right.
  - injection E as <-. left. apply clientReceive_lastFiles.
  - destruct hpc; try discriminate. injection E as <-. now left.
  - destruct ppc; try discriminate. injection E as <-. now left.
Qed.

(** X19. One round of the poller with a listing longer than the recorded
    one, the hub at its [select]: the poller takes the mutex, the hub hands
    the listing to the clients as one broadcast, the poller records the
    listing and releases the mutex.  The hub is then what the broadcast
    made of it, with the new listing recorded, and both goroutines are back
    at their [select].  A failed listing, or one that is not longer than
    the recorded one, changes nothing. *)
Theorem poll_round s objects order :
  hubOk (hub s) -> hubPc s = AtSelect -> pollerPc s = AtTicker ->
  rangesOver order (hub s) ->
  step (Tick None) s = Ok s /\
  ((length objects <= length (lastFiles (hub s)))%nat ->
     step (Tick (Some objects)) s = Ok s) /\
  ((length (lastFiles (hub s)) < length objects)%nat ->
     exists h' s1 s2,
       hubStep (Broadcast objects order) (hub s) = Ok h' /\
       step (Tick (Some objects)) s = Ok s1 /\
       step (Deliver order) s1 = Ok s2 /\
       step Update s2
       = Ok {| hub := setLastFiles objects h'; hubPc := AtSelect;
               pollerPc := AtTicker |}).
Proof.
  intros Hok Hh Hp Hr. split; [|split].
  - cbn [step]. now rewrite Hp.
  - intros Hle. cbn [step]. rewrite Hp.
    apply Nat.ltb_ge in Hle. now rewrite Hle.
  - intros Hlt. destruct (broadcast_step objects order (hub s) Hok Hr)
      as (h' & E & _).
    exists h'. eexists. eexists. split; [exact E|]. split.
    { cbn [step]. rewrite Hp. apply Nat.ltb_lt in Hlt. rewrite Hlt. reflexivity. }
    split.
    { cbn [step hubPc pollerPc hub]. rewrite Hh, E. reflexivity. }
    reflexivity.
Qed.

(** The theorem at work on [twoClients]: client 2 gets the listing, and the
    listing is recorded. *)
Lemma poll_round_witness :
  exists h' s1 s2,
    hubStep (Broadcast [listedObject "a.tar.gz" 1 0 ""] [1%nat; 2%nat]) twoClients
      = Ok h' /\
    step (Tick (Some [listedObject "a.tar.gz" 1 0 ""]))
      {| hub := twoClients; hubPc := AtSelect; pollerPc := AtTicker |} = Ok s1 /\
    step (Deliver [1%nat; 2%nat]) s1 = Ok s2 /\
    step Update s2
    = Ok {| hub := setLastFiles [listedObject "a.tar.gz" 1 0 ""] h';
            hubPc := AtSelect; pollerPc := AtTicker |}.
Proof.
  assert (Hin : forall c, c ∈ clients twoClients <-> c = 1%nat \/ c = 2%nat).
  { intros c. unfold twoClients. cbn [clients].
    rewrite elem_of_union, !elem_of_singleton. tauto. }
  apply (poll_round {| hub := twoClients; hubPc := AtSelect; pollerPc := AtTicker |}
           [listedObject "a.tar.gz" 1 0 ""] [1%nat; 2%nat]).
  - intros c Hc. apply Hin in Hc as [-> | ->]; eexists; split; reflexivity.
  - reflexivity.
  - reflexivity.
  - split.
    + repeat constructor; rewrite ?elem_of_cons, ?elem_of_nil; lia.
    + intros c. cbn [hub]. rewrite Hin, !elem_of_cons, elem_of_nil. tauto.
  - simpl. lia.
Defined.

(** X20. From the start on, the listing the hub has recorded is only ever
    replaced by a longer one: a listing with as many or fewer objects than
    the recorded one, whatever its content, is neither recorded nor sent to
    any client by the poller. *)
Theorem last_files_only_grow s s' :
  reaches Start s -> reaches s s' ->
  (length (lastFiles (hub s)) <= length (lastFiles (hub s')))%nat /\
  (lastFiles (hub s') <> lastFiles (hub s) ->
   (length (lastFiles (hub s)) < length (lastFiles (hub s')))%nat).
Proof.
  intros Hr Hr'.
  pose proof (reaches_keeps_ok Start s Hr systemOk_Start) as Hs. clear Hr.
  induction Hr' as [s|s m s1 s2 Hf E _ IH].
  - split; [lia|]. intros N. now destruct N.
  - destruct (IH (step_keeps_ok m s s1 Hs Hf E)) as [IH1 IH2].
    destruct (step_lastFiles m s s1 Hs E) as [Eq|Hlt].
    + rewrite <- Eq. split; [exact IH1|exact IH2].
    + split; [lia|]. intros _. lia.
Qed.

(** The theorem at work on the start and the state after the first round
    of the poller. *)
Lemma last_files_only_grow_witness :
  (length (lastFiles (hub Start))
   <= length (lastFiles (hub {| hub := setLastFiles [listedObject "a.tar.gz" 1%Z 0%Z ""] NewHub;
                                hubPc := AtSelect; pollerPc := AtTicker |})))%nat.
Proof.
  apply (last_files_only_grow Start
           {| hub := setLastFiles [listedObject "a.tar.gz" 1 0 ""] NewHub;
              hubPc := AtSelect; pollerPc := AtTicker |}).
  - apply reaches_here.
  - apply (reaches_move _ (Tick (Some [listedObject "a.tar.gz" 1 0 ""]))
             {| hub := NewHub; hubPc := AtSelect;
                pollerPc := Sending [listedObject "a.tar.gz" 1 0 ""] |});
      [exact I|reflexivity|].
    apply (reaches_move _ (Deliver [])
             {| hub := NewHub; hubPc := AtSelect;
                pollerPc := Updating [listedObject "a.tar.gz" 1 0 ""] |}).
    + split; [constructor|]. intros c. rewrite elem_of_nil. cbn [hub NewHub clients].
      rewrite elem_of_empty. tauto.
    + reflexivity.
    + apply (reaches_move _ Update
               {| hub := setLastFiles [listedObject "a.tar.gz" 1 0 ""] NewHub;
                  hubPc := AtSelect; pollerPc := AtTicker |});
        [exact I|reflexivity|apply reaches_here].
Defined.

(** ** Loading the configuration *)

Lemma envString_cases env key current :
  envString env key current
  = if String.eqb (Getenv env key) "" then current else Getenv env key.
Proof. unfold envString, strNe. now destruct (String.eqb (Getenv env key) ""). Qed.

(** For a numeric variable the test against the empty string changes
    nothing: [strconv.Atoi] alone decides. *)
Lemma envInt_Atoi env key current :
  envInt env key current = default current (Atoi (Getenv env key)).
Proof.
  unfold envInt. destruct (Getenv env key) as [|c v]; [reflexivity|].
  change (strNe (String c v) "") with true. cbv iota.
  now destruct (Atoi (String c v)).
Qed.

Lemma validated_Loaded c config :
  validated c = Loaded config -> config = c /\ Bucket (S3 c) <> "".
Proof.
  unfold validated. destruct (String.eqb_spec (Bucket (S3 c)) ""); [discriminate|].
  intros E. injection E as <-. now split.
Qed.

Lemma LoadConfig_Loaded file env config :
  LoadConfig file env = Loaded config ->
  config = overrideWithEnv env (fromFile file) /\
  Bucket (S3 config) <> "" /\
  file <> FileUnreadable /\ file <> FileMalformed.
Proof.
  destruct file as [| | |content]; simpl; try discriminate;
    intros E; apply validated_Loaded in E as [-> N];
    repeat split; try discriminate; exact N.
Qed.

Lemma Atoi_FormatInt p : 0 <= p <= max_int64 -> Atoi (FormatInt p) = Some p.
Proof.
  intros Hp. destruct (FormatInt_digits p) as [HD Hv]; [lia|].
  unfold Atoi. rewrite (ParseInt_digits _ HD), Hv.
  destruct (Z.leb_spec p max_int64); [reflexivity|lia].
Qed.

(** X21. [LoadConfig] succeeds only with a bucket name: a loaded
    configuration is the defaults, overlaid by the file when there is one,
    overlaid by the environment, and its bucket is not empty.  A bucket in
    the environment is enough whenever the file is absent or decodes, and
    it is the one used; with no bucket in the file and none in the
    environment loading fails, as it does without file and variable. *)
Theorem LoadConfig_requires_bucket file env :
  (forall config, LoadConfig file env = Loaded config ->
     config = overrideWithEnv env (fromFile file) /\
     Bucket (S3 config) <> "" /\
     file <> FileUnreadable /\ file <> FileMalformed) /\
  (Getenv env "S3_BUCKET" <> "" ->
   file <> FileUnreadable -> file <> FileMalformed ->
     exists config, LoadConfig file env = Loaded config /\
                    Bucket (S3 config) = Getenv env "S3_BUCKET") /\
  (Getenv env "S3_BUCKET" = "" -> Bucket (S3 (fromFile file)) = "" ->
     exists message, LoadConfig file env = LoadError message) /\
  (Getenv env "S3_BUCKET" = "" -> exists message,
     LoadConfig FileMissing env = LoadError message).
Proof.
  assert (B : forall c, Bucket (S3 (overrideWithEnv env c))
              = if String.eqb (Getenv env "S3_BUCKET") "" then Bucket (S3 c)
                else Getenv env "S3_BUCKET").
  { intros c. cbn [overrideWithEnv S3 Bucket]. apply envString_cases. }
  assert (V : forall c, Getenv env "S3_BUCKET" <> "" ->
            validated (overrideWithEnv env c) = Loaded (overrideWithEnv env c) /\
            Bucket (S3 (overrideWithEnv env c)) = Getenv env "S3_BUCKET").
  { intros c N. unfold validated. rewrite B.
    destruct (String.eqb_spec (Getenv env "S3_BUCKET") ""); [contradiction|].
    destruct (String.eqb_spec (Getenv env "S3_BUCKET") ""); [contradiction|].
    now split. }
  assert (F : forall c, Getenv env "S3_BUCKET" = "" -> Bucket (S3 c) = "" ->
            exists message, validated (overrideWithEnv env c) = LoadError message).
  { intros c E Ec. unfold validated. rewrite B, E, Ec. simpl. eauto. }
  split; [apply LoadConfig_Loaded|]. split; [|split].
  - intros N N1 N2. destruct file as [| | |content]; try contradiction; simpl;
      eexists; apply V; exact N.
  - intros E Ec. destruct file as [| | |content]; simpl; eauto.
  - intros E. simpl. now apply F.
Qed.

Lemma fromFile_numeric file :
  RedisPort (Redis (fromFile file))
    = match file with
      | FileHolds content => default 6379 (jRedisPort content)
      | _ => 6379
      end /\
  DB (Redis (fromFile file))
    = match file with
      | FileHolds content => default 0 (jDB content)
      | _ => 0
      end /\
  ServerPort (Server (fromFile file))
    = match file with
      | FileHolds content => default 8080 (jServerPort content)
      | _ => 8080
      end.
Proof. destruct file; repeat split. Qed.

(** X22. In a loaded configuration each of the three numeric settings,
    the Redis port, the Redis database and the server port, is the number
    [strconv.Atoi] reads from its environment variable, of any sign and
    size an [int] holds; when the variable is unset, empty or not such a
    number, the setting is the value the file gives for its key, and the
    default (6379, 0, 8080) when there is no file or the file lacks the
    key.  A Redis host and port given in the environment, the port as the
    decimal of a number that is not negative, come back in [Address] as
    they were written. *)
Theorem LoadConfig_numeric_settings file env config :
  LoadConfig file env = Loaded config ->
  ((forall n, Atoi (Getenv env "REDIS_PORT") = Some n ->
      RedisPort (Redis config) = n) /\
   (Atoi (Getenv env "REDIS_PORT") = None ->
      RedisPort (Redis config)
      = match file with
        | FileHolds content => default 6379 (jRedisPort content)
        | _ => 6379
        end)) /\
  ((forall n, Atoi (Getenv env "REDIS_DB") = Some n -> DB (Redis config) = n) /\
   (Atoi (Getenv env "REDIS_DB") = None ->
      DB (Redis config)
      = match file with
        | FileHolds content => default 0 (jDB content)
        | _ => 0
        end)) /\
  ((forall n, Atoi (Getenv env "SERVER_PORT") = Some n ->
      ServerPort (Server config) = n) /\
   (Atoi (Getenv env "SERVER_PORT") = None ->
      ServerPort (Server config)
      = match file with
        | FileHolds content => default 8080 (jServerPort content)
        | _ => 8080
        end)) /\
  Atoi "" = None /\
  (forall host port,
     Getenv env "REDIS_HOST" = host -> host <> "" ->
     Getenv env "REDIS_PORT" = FormatInt port -> 0 <= port <= max_int64 ->
     RedisPort (Redis config) = port /\
     Address (Redis config) = host +:+ ":" +:+ Getenv env "REDIS_PORT").
Proof.
  intros E. apply LoadConfig_Loaded in E as (-> & _).
  destruct (fromFile_numeric file) as (F1 & F2 & F3).
  assert (P : RedisPort (Redis (overrideWithEnv env (fromFile file)))
              = default (RedisPort (Redis (fromFile file)))
                  (Atoi (Getenv env "REDIS_PORT"))).
  { cbn [overrideWithEnv Redis RedisPort]. apply envInt_Atoi. }
  assert (D : DB (Redis (overrideWithEnv env (fromFile file)))
              = default (DB (Redis (fromFile file))) (Atoi (Getenv env "REDIS_DB"))).
  { cbn [overrideWithEnv Redis DB]. apply envInt_Atoi. }
  assert (S : ServerPort (Server (overrideWithEnv env (fromFile file)))
              = default (ServerPort (Server (fromFile file)))
                  (Atoi (Getenv env "SERVER_PORT"))).
  { cbn [overrideWithEnv Server ServerPort]. apply envInt_Atoi. }
  split; [|split; [|split; [|split]]].
  - rewrite P, F1. split; [intros n ->; reflexivity|intros ->; reflexivity].
  - rewrite D, F2. split; [intros n ->; reflexivity|intros ->; reflexivity].
  - rewrite S, F3. split; [intros n ->; reflexivity|intros ->; reflexivity].
  - reflexivity.
  - intros host port Hh Nh Hp Hport.
    assert (P' : RedisPort (Redis (overrideWithEnv env (fromFile file))) = port).
    { now rewrite P, Hp, (Atoi_FormatInt port Hport). }
    split; [exact P'|].
    unfold Address. rewrite P', Hp. f_equal.
    cbn [overrideWithEnv Redis RedisHost]. rewrite envString_cases, Hh.
    destruct (String.eqb_spec host ""); [contradiction|reflexivity].
Qed.

(** The theorem at work without a file, the bucket and the Redis address
    given in the environment, a server port that does not parse and no
    Redis database. *)
Lemma LoadConfig_numeric_settings_witness :
  Address (Redis (overrideWithEnv
    {[ "S3_BUCKET" := "snapshots"; "REDIS_HOST" := "cache";
       "REDIS_PORT" := "6380"; "SERVER_PORT" := "80a" ]} defaultConfig))
  = "cache:6380" /\
  ServerPort (Server (overrideWithEnv
    {[ "S3_BUCKET" := "snapshots"; "REDIS_HOST" := "cache";
       "REDIS_PORT" := "6380"; "SERVER_PORT" := "80a" ]} defaultConfig))
  = 8080 /\
  DB (Redis (overrideWithEnv
    {[ "S3_BUCKET" := "snapshots"; "REDIS_HOST" := "cache";
       "REDIS_PORT" := "6380"; "SERVER_PORT" := "80a" ]} defaultConfig))
  = 0.
Proof.
  assert (HL : LoadConfig FileMissing
    {[ "S3_BUCKET" := "snapshots"; "REDIS_HOST" := "cache";
       "REDIS_PORT" := "6380"; "SERVER_PORT" := "80a" ]}
    = Loaded (overrideWithEnv
       {[ "S3_BUCKET" := "snapshots"; "REDIS_HOST" := "cache";
          "REDIS_PORT" := "6380"; "SERVER_PORT" := "80a" ]} defaultConfig))
    by (vm_compute; reflexivity).
  destruct (LoadConfig_numeric_settings _ _ _ HL)
    as (_ & [_ HD] & [_ HS] & _ & HA).
  assert (B : 0 <= 6380 <= max_int64) by (unfold max_int64; lia).
  destruct (HA "cache" 6380) as [_ H2];
    [vm_compute; reflexivity|discriminate|vm_compute; reflexivity|exact B|].
  split; [exact H2|]. split; [apply HS|apply HD]; vm_compute; reflexivity.
Defined.

(** ** The page bar and the pages of the file list *)

Lemma pageRange_elem a b p : p ∈ pageRange a b <-> a <= p <= b.
Proof. unfold pageRange. rewrite elem_of_seqZ. lia. Qed.

Lemma seqZ_sorted n : forall m,
  StronglySorted Z.lt (seqZ m (Z.of_nat n)).
Proof.
  induction n as [|n IH]; intros m.
  - rewrite seqZ_nil by lia. constructor.
  - rewrite seqZ_cons by lia.
    replace (Z.pred (Z.of_nat (S n))) with (Z.of_nat n) by lia.
    constructor; [apply IH|]. apply Forall_seqZ. intros k Hk. lia.
Qed.

Lemma pageRange_sorted a b : StronglySorted Z.lt (pageRange a b).
Proof.
  unfold pageRange. destruct (Z_le_gt_dec 0 (b - a + 1)) as [H|H].
  - rewrite <- (Z2Nat.id (b - a + 1)) by exact H. apply seqZ_sorted.
  - rewrite seqZ_nil by lia. constructor.
Qed.

Lemma pageNumbers_range l : pageNumbers (map PageNumber l) = l.
Proof. induction l as [|x l IH]; simpl; [reflexivity|]. now f_equal. Qed.

Lemma pageNumbers_app l1 l2 :
  pageNumbers (l1 ++ l2) = (pageNumbers l1 ++ pageNumbers l2)%list.
Proof. apply omap_app. Qed.

Lemma pageNumbers_elem bar p : p ∈ pageNumbers bar <-> PageNumber p ∈ bar.
Proof.
  unfold pageNumbers. rewrite list_elem_of_omap. split.
  - intros ([q|] & Hin & E); [|discriminate]. now injection E as ->.
  - intros Hin. exists (PageNumber p). now split.
Qed.

(** The numbers of a long bar: 1, the window around the current page, the
    last page. *)
Lemma displayedPages_numbers total current :
  5 < total ->
  pageNumbers (displayedPages total current)
  = (1 :: pageRange (Z.max 2 (current - 2)) (Z.min (total - 1) (current + 2))
       ++ [total])%list.
Proof.
  intros H. unfold displayedPages.
  destruct (Z.leb_spec total 5); [lia|].
  destruct (Z.ltb_spec 1 total); [|lia].
  rewrite !pageNumbers_app, pageNumbers_range.
  destruct (2 <? _); destruct (_ <? total - 1); reflexivity.
Qed.

Lemma displayedPages_length total current :
  1 <= total -> (length (displayedPages total current) <= 9)%nat.
Proof.
  intros H. unfold displayedPages. destruct (Z.leb_spec total 5).
  - rewrite length_map. unfold pageRange. rewrite length_seqZ. lia.
  - rewrite !length_app, length_map. unfold pageRange. rewrite length_seqZ.
    destruct (2 <? _); destruct (_ <? total - 1); destruct (1 <? total);
      cbn [length]; lia.
Qed.

(** X23. For a current page between 1 and the number of pages, the page
    bar shows page numbers in strictly ascending order, all of them between
    1 and the number of pages; it starts with page 1, ends with the last
    page and holds the current page; it has at most nine entries, and a
    click on any entry, the ellipsis included, leaves the current page
    between 1 and the number of pages. *)
Theorem page_bar_shape total current :
  1 <= total -> 1 <= current <= total ->
  StronglySorted Z.lt (pageNumbers (displayedPages total current)) /\
  head (displayedPages total current) = Some (PageNumber 1) /\
  last (displayedPages total current) = Some (PageNumber total) /\
  PageNumber current ∈ displayedPages total current /\
  (forall p, PageNumber p ∈ displayedPages total current -> 1 <= p <= total) /\
  (forall entry, entry ∈ displayedPages total current ->
     1 <= changePage entry current <= total) /\
  (length (displayedPages total current) <= 9)%nat.
Proof.
  intros Ht Hc.
  assert (Hnum : StronglySorted Z.lt (pageNumbers (displayedPages total current)) /\
                 forall p, p ∈ pageNumbers (displayedPages total current) <->
                   1 <= p <= total /\
                   (total <= 5 \/ p = 1 \/ p = total \/
                    (Z.max 2 (current - 2) <= p <= Z.min (total - 1) (current + 2)))).
  { destruct (Z_le_gt_dec total 5) as [H5|H5].
    - unfold displayedPages. destruct (Z.leb_spec total 5); [|lia].
      rewrite pageNumbers_range. split; [apply pageRange_sorted|].
      intros p. rewrite pageRange_elem. lia.
    - rewrite displayedPages_numbers by lia. split.
      + constructor.
        * apply StronglySorted_app_2; [|apply pageRange_sorted|repeat constructor].
          intros x1 x2 H1 H2. apply pageRange_elem in H1.
          apply list_elem_of_singleton in H2. lia.
        * apply Forall_forall. intros x Hx. apply elem_of_app in Hx as [Hx|Hx].
          -- apply pageRange_elem in Hx. lia.
          -- apply list_elem_of_singleton in Hx. lia.
      + intros p. rewrite elem_of_cons, elem_of_app, pageRange_elem,
          list_elem_of_singleton. lia. }
  destruct Hnum as [Hsorted Helem].
  assert (Hin : forall p, PageNumber p ∈ displayedPages total current ->
                  1 <= p <= total).
  { intros p Hp. apply pageNumbers_elem, Helem in Hp. lia. }
  split; [exact Hsorted|]. split; [|split; [|split; [|split; [|split]]]].
  - unfold displayedPages. destruct (Z.leb_spec total 5); [|reflexivity].
    unfold pageRange. rewrite seqZ_cons by lia. reflexivity.
  - unfold displayedPages. destruct (Z.leb_spec total 5).
    + unfold pageRange. replace (total - 1 + 1) with (Z.of_nat (S (Z.to_nat (total - 1)))) by lia.
      rewrite seqZ_S, map_app. cbn [map]. rewrite last_snoc. do 2 f_equal. lia.
    + destruct (Z.ltb_spec 1 total); [|lia].
      rewrite !app_assoc. apply last_snoc.
  - apply pageNumbers_elem, Helem. lia.
  - exact Hin.
  - intros [p|] He; cbn [changePage]; [now apply Hin|exact Hc].
  - now apply displayedPages_length.
Qed.

(** The theorem at work on page 6 of 12. *)
Lemma page_bar_shape_witness :
  head (displayedPages 12 6) = Some (PageNumber 1) /\
  last (displayedPages 12 6) = Some (PageNumber 12) /\
  PageNumber 6 ∈ displayedPages 12 6.
Proof.
  destruct (page_bar_shape 12 6) as (_ & H1 & H2 & H3 & _); [lia|lia|].
  split; [exact H1|]. split; [exact H2|exact H3].
Defined.

Lemma paginatedFiles_page {A} (l : list A) (page : nat) :
  paginatedFiles l (Z.of_nat (S page)) = take 15 (drop (page * 15) l).
Proof.
  unfold paginatedFiles, slice, relativeIndex, itemsPerPage.
  replace ((Z.of_nat (S page) - 1) * 15) with (Z.of_nat (page * 15)) by lia.
  set (start := (page * 15)%nat).
  destruct (Z.ltb_spec (Z.of_nat start) 0); [lia|].
  destruct (Z.ltb_spec (Z.of_nat start + 15) 0); [lia|].
  destruct (Nat.le_gt_cases (length l) start) as [Hge|Hlt].
  - rewrite Z.min_r by lia. rewrite Z.min_r by lia.
    rewrite Z.sub_diag. change (Z.to_nat 0) with 0%nat. rewrite take_0.
    rewrite (drop_ge l start) by lia. now rewrite take_nil.
  - rewrite (Z.min_l (Z.of_nat start)) by lia. rewrite Nat2Z.id.
    destruct (Nat.le_gt_cases (length l) (start + 15)) as [Hshort|Hlong].
    + rewrite Z.min_r by lia.
      rewrite !take_ge; [reflexivity| |]; rewrite length_drop; lia.
    + rewrite Z.min_l by lia. f_equal. lia.
Qed.

Lemma totalPages_bounds n :
  1 <= totalPages n /\
  Z.of_nat n <= 15 * totalPages n /\
  ((0 < n)%nat -> 15 * (totalPages n - 1) < Z.of_nat n).
Proof.
  unfold totalPages, itemsPerPage.
  pose proof (Z.div_mod (- Z.of_nat n) 15 ltac:(lia)) as E.
  pose proof (Z.mod_pos_bound (- Z.of_nat n) 15 ltac:(lia)) as B.
  destruct (Z.eqb_spec (- (- Z.of_nat n / 15)) 0); lia.
Qed.

(** X24. The file list is cut into [totalPages] pages that follow one
    another without gap or overlap: put together in order they are the
    whole list.  Unless the list is empty every one of those pages holds
    between 1 and 15 files, and every page after the last is empty. *)
Theorem file_list_pages {A} (files : list A) :
  1 <= totalPages (length files) /\
  concat (map (paginatedFiles files) (pageRange 1 (totalPages (length files))))
    = files /\
  (forall page, 1 <= page <= totalPages (length files) -> files <> [] ->
     (1 <= length (paginatedFiles files page) <= 15)%nat) /\
  (forall page, totalPages (length files) < page ->
     paginatedFiles files page = []).
Proof.
  destruct (totalPages_bounds (length files)) as (H1 & H2 & H3).
  split; [exact H1|]. split; [|split].
  - unfold pageRange.
    replace (totalPages (length files) - 1 + 1)
      with (Z.of_nat (Z.to_nat (totalPages (length files)))) by lia.
    set (n := Z.to_nat (totalPages (length files))).
    assert (Hn : (length files <= n * 15)%nat) by lia.
    assert (G : forall k,
      concat (map (paginatedFiles files) (seqZ 1 (Z.of_nat k)))
      = take (k * 15) files).
    { induction k as [|k IH]; [reflexivity|].
      rewrite seqZ_S, map_app, concat_app, IH. cbn [map concat].
      rewrite app_nil_r.
      replace (1 + Z.of_nat k) with (Z.of_nat (S k)) by lia.
      rewrite paginatedFiles_page, take_take_drop. f_equal. lia. }
    rewrite G. now apply take_ge.
  - intros page Hp Hne.
    replace page with (Z.of_nat (S (Z.to_nat (page - 1)))) by lia.
    rewrite paginatedFiles_page, length_take, length_drop.
    assert (0 < length files)%nat by (destruct files; [contradiction|simpl; lia]).
    lia.
  - intros page Hp.
    replace page with (Z.of_nat (S (Z.to_nat (page - 1)))) by lia.
    rewrite paginatedFiles_page. rewrite drop_ge; [apply take_nil|]. lia.
Qed.

(** ** The query string *)

Lemma parsedField_malformed parse v : parse v = None -> parsedField parse v = 0.
Proof. unfold parsedField. intros ->. now destruct (strNe v ""). Qed.

Lemma queryGet_insert_eq q k v : queryGet (<[k := v]> q) k = v.
Proof. unfold queryGet. now rewrite lookup_insert_eq. Qed.

Lemma queryGet_insert_ne q k k' v :
  k <> k' -> queryGet (<[k := v]> q) k' = queryGet q k'.
Proof. intros N. unfold queryGet. now rewrite lookup_insert_ne. Qed.

Lemma queryGet_delete_eq q k : queryGet (delete k q) k = "".
Proof. unfold queryGet. now rewrite lookup_delete_eq. Qed.

Lemma queryGet_delete_ne q k k' :
  k <> k' -> queryGet (delete k q) k' = queryGet q k'.
Proof. intros N. unfold queryGet. now rewrite lookup_delete_ne. Qed.

Ltac query_fields :=
  unfold parseMetadataFilter;
  rewrite ?queryGet_insert_eq, ?queryGet_delete_eq;
  rewrite ?queryGet_insert_ne by discriminate;
  rewrite ?queryGet_delete_ne by discriminate.

(** X25. A request without filter parameters is read as the zero filter.
    A slot bound that [strconv.ParseInt] rejects, or a date that
    [time.Parse] rejects, is dropped without an error: the filter is the
    one of the request without that parameter.  Whatever the query, the
    feature set, the page and the page size of the filter stay 0. *)
Theorem parseMetadataFilter_drops_malformed
    (time_Parse : string -> option Time) (endOfDay : Time -> Time) :
  parseMetadataFilter time_Parse endOfDay ∅ = zeroFilter /\
  (forall q v, ParseInt v = None ->
     parseMetadataFilter time_Parse endOfDay (<["minSlot" := v]> q)
     = parseMetadataFilter time_Parse endOfDay (delete "minSlot" q)) /\
  (forall q v, ParseInt v = None ->
     parseMetadataFilter time_Parse endOfDay (<["maxSlot" := v]> q)
     = parseMetadataFilter time_Parse endOfDay (delete "maxSlot" q)) /\
  (forall q v, time_Parse v = None ->
     parseMetadataFilter time_Parse endOfDay (<["startTime" := v]> q)
     = parseMetadataFilter time_Parse endOfDay (delete "startTime" q)) /\
  (forall q v, time_Parse v = None ->
     parseMetadataFilter time_Parse endOfDay (<["endTime" := v]> q)
     = parseMetadataFilter time_Parse endOfDay (delete "endTime" q)) /\
  (forall q,
     fSolanaFeatureSet (parseMetadataFilter time_Parse endOfDay q) = 0 /\
     fPage (parseMetadataFilter time_Parse endOfDay q) = 0 /\
     fPageSize (parseMetadataFilter time_Parse endOfDay q) = 0).
Proof.
  split; [reflexivity|].
  split; [|split; [|split; [|split]]].
  - intros q v E. query_fields. now rewrite (parsedField_malformed ParseInt v E).
  - intros q v E. query_fields. now rewrite (parsedField_malformed ParseInt v E).
  - intros q v E. query_fields. now rewrite (parsedField_malformed time_Parse v E).
  - intros q v E. query_fields.
    rewrite (parsedField_malformed (fun v => endOfDay <$> time_Parse v) v);
      [reflexivity|]. now rewrite E.
  - intros q. repeat split.
Qed.

(** X26. No filter tells two records apart by their feature set, their
    upload time or their file size, and the feature set, the page and the
    page size of a filter have no part in the match. *)
Theorem feature_set_never_filters m flt featureSet uploadedAt fileSize
    fFeatureSet page pageSize :
  matchesFilter
    {| SolanaVersion := SolanaVersion m; SolanaFeatureSet := featureSet;
       Slot := Slot m; Timestamp := Timestamp m; Hash := Hash m;
       Status := Status m; UploadedBy := UploadedBy m;
       UploadedAt := uploadedAt; FileSize := fileSize;
       FileName := FileName m; Node := Node m; SlotRange := SlotRange m |}
    flt
  = matchesFilter m flt /\
  matchesFilter m
    {| fSolanaVersion := fSolanaVersion flt; fSolanaFeatureSet := fFeatureSet;
       fStatus := fStatus flt; fUploadedBy := fUploadedBy flt;
       fNode := fNode flt; fSlotRange := fSlotRange flt;
       fStartTime := fStartTime flt; fEndTime := fEndTime flt;
       fMinSlot := fMinSlot flt; fMaxSlot := fMaxSlot flt;
       fSearchTerm := fSearchTerm flt; fPage := page; fPageSize := pageSize |}
  = matchesFilter m flt.
Proof. split; reflexivity. Qed.

Lemma ParseInt_FormatInt n : 0 <= n <= max_int64 -> ParseInt (FormatInt n) = Some n.
Proof. exact (Atoi_FormatInt n). Qed.

Lemma parsedField_FormatInt n :
  0 <= n <= max_int64 -> parsedField ParseInt (FormatInt n) = n.
Proof.
  intros Hn. unfold parsedField, strNe. rewrite (ParseInt_FormatInt n Hn).
  destruct (FormatInt_digits n) as [[Hne _] _]; [lia|].
  destruct (String.eqb_spec (FormatInt n) ""); [contradiction|reflexivity].
Qed.

(** X27. Slot bounds written in decimal come through the query string as
    they are: every record a request with [minSlot] and [maxSlot] matches
    has its slot between the two, both included, and a request with the two
    bounds and nothing else matches exactly those records.  A bound of 0
    does not restrict anything. *)
Theorem slot_bounds_from_query
    (time_Parse : string -> option Time) (endOfDay : Time -> Time)
    q lo hi m :
  0 <= lo <= max_int64 -> 0 <= hi <= max_int64 ->
  queryGet q "minSlot" = FormatInt lo -> queryGet q "maxSlot" = FormatInt hi ->
  fMinSlot (parseMetadataFilter time_Parse endOfDay q) = lo /\
  fMaxSlot (parseMetadataFilter time_Parse endOfDay q) = hi /\
  (matchesFilter m (parseMetadataFilter time_Parse endOfDay q) = true ->
     (0 < lo -> lo <= Slot m) /\ (0 < hi -> Slot m <= hi)) /\
  (matchesFilter m
     (parseMetadataFilter time_Parse endOfDay
        {[ "minSlot" := FormatInt lo; "maxSlot" := FormatInt hi ]}) = true
   <-> (0 < lo -> lo <= Slot m) /\ (0 < hi -> Slot m <= hi)).
Proof.
  intros Hlo Hhi Elo Ehi.
  assert (F1 : fMinSlot (parseMetadataFilter time_Parse endOfDay q) = lo).
  { cbn [parseMetadataFilter fMinSlot]. rewrite Elo. now apply parsedField_FormatInt. }
  assert (F2 : fMaxSlot (parseMetadataFilter time_Parse endOfDay q) = hi).
  { cbn [parseMetadataFilter fMaxSlot]. rewrite Ehi. now apply parsedField_FormatInt. }
  split; [exact F1|]. split; [exact F2|]. split.
  - intros M. unfold matchesFilter in M. rewrite F1, F2 in M.
    destruct (_ && _) in M; [discriminate|].
    destruct (_ && _) in M; [discriminate|].
    destruct (_ && _) in M; [discriminate|].
    destruct (_ && _) in M; [discriminate|].
    destruct (_ && _) in M; [discriminate|].
    destruct (Z.ltb_spec 0 lo); destruct (Z.ltb_spec (Slot m) lo);
      cbn [andb] in M; try discriminate;
      destruct (Z.ltb_spec 0 hi); destruct (Z.ltb_spec hi (Slot m));
      cbn [andb] in M; try discriminate; lia.
  - set (q2 := {[ "minSlot" := FormatInt lo; "maxSlot" := FormatInt hi ]} : gmap string string).
    assert (G : forall k, k <> "minSlot" -> k <> "maxSlot" -> queryGet q2 k = "").
    { intros k N1 N2. unfold queryGet, q2.
      rewrite lookup_insert_ne by congruence.
      rewrite lookup_singleton_ne by congruence. reflexivity. }
    assert (G1 : queryGet q2 "minSlot" = FormatInt lo).
    { unfold queryGet, q2. now rewrite lookup_insert_eq. }
    assert (G2 : queryGet q2 "maxSlot" = FormatInt hi).
    { unfold queryGet, q2. rewrite lookup_insert_ne by discriminate.
      now rewrite lookup_singleton_eq. }
    unfold matchesFilter, parseMetadataFilter.
    cbn [fSolanaVersion fStatus fUploadedBy fNode fSlotRange fStartTime fEndTime
         fMinSlot fMaxSlot fSearchTerm].
    rewrite G1, G2, !G by discriminate.
    rewrite !parsedField_FormatInt by assumption.
    change (parsedField time_Parse "") with 0.
    change (parsedField (fun v => endOfDay <$> time_Parse v) "") with 0.
    cbn [strNe String.eqb negb andb IsZero].
    change (0 =? 0) with true. cbn [negb andb].
    destruct (Z.ltb_spec 0 lo); destruct (Z.ltb_spec (Slot m) lo); cbn [andb];
      destruct (Z.ltb_spec 0 hi); destruct (Z.ltb_spec hi (Slot m)); cbn [andb];
      split; intros H'; try discriminate; try reflexivity; lia.
Qed.

(** The theorem at work on the request [?minSlot=5&maxSlot=9] and a record
    of slot 7, whatever the calendar. *)
Lemma slot_bounds_from_query_witness :
  matchesFilter (stamped 7 0)
    (parseMetadataFilter (fun _ => None) (fun t => t)
       {[ "minSlot" := "5"; "maxSlot" := "9" ]}) = true.
Proof.
  assert (B5 : 0 <= 5 <= max_int64) by (unfold max_int64; lia).
  assert (B9 : 0 <= 9 <= max_int64) by (unfold max_int64; lia).
  assert (E5 : queryGet {[ "minSlot" := "5"; "maxSlot" := "9" ]} "minSlot"
               = FormatInt 5) by (vm_compute; reflexivity).
  assert (E9 : queryGet {[ "minSlot" := "5"; "maxSlot" := "9" ]} "maxSlot"
               = FormatInt 9) by (vm_compute; reflexivity).
  apply (slot_bounds_from_query (fun _ => None) (fun t => t)
           {[ "minSlot" := "5"; "maxSlot" := "9" ]} 5 9 (stamped 7 0)
           B5 B9 E5 E9).
  simpl. lia.
Defined.

Lemma forallb_perm {A} (f : A -> bool) l l' :
  l ≡ₚ l' -> forallb f l = forallb f l'.
Proof.
  induction 1 as [|x l l' _ IH|x y l|l l' l'' _ IH1 _ IH2]; simpl.
  - reflexivity.
  - now rewrite IH.
  - destruct (f x), (f y); reflexivity.
  - congruence.
Qed.

(** X28. A request without any parameter on a bucket that can be listed
    and from whose sidecars at most twelve records can be built: when
    every record marshals, the answer holds all the records, in the order
    the insertion sort leaves them in, and their number as the total; when
    a record does not marshal, the answer is the status 500. *)
Theorem request_without_parameters
    (time_Parse : string -> option Time) (endOfDay : Time -> Time)
    (marshalsTime : Time -> bool) st objects :
  ListObjects st = Some objects ->
  (length (omap (metadataOfObject st)
     (List.filter (fun obj => isSnapshotMetadataFile (Key obj)) objects))
   <= 12)%nat ->
  ListMetadataRequest time_Parse endOfDay marshalsTime st ∅
  = if forallb (marshalsMetadata marshalsTime)
         (omap (metadataOfObject st)
            (List.filter (fun obj => isSnapshotMetadataFile (Key obj)) objects))
    then
      RespItems
        (sort_Slice timestampLess
           (omap (metadataOfObject st)
              (List.filter (fun obj => isSnapshotMetadataFile (Key obj)) objects)))
        (Z.of_nat (length
           (omap (metadataOfObject st)
              (List.filter (fun obj => isSnapshotMetadataFile (Key obj)) objects))))
    else RespError 500 "Failed to marshal JSON response".
Proof.
  intros El Hlen. unfold ListMetadataRequest.
  change (parseMetadataFilter time_Parse endOfDay ∅) with zeroFilter.
  change (queryGet ∅ "page") with "". change (queryGet ∅ "page_size") with "".
  unfold ListMetadata. change (getPaginationParams "" "") with (1, 20).
  cbv iota beta. rewrite El.
  destruct (List.filter _ objects) as [|obj files] eqn:Ef; [reflexivity|].
  set (records := omap (metadataOfObject st) (obj :: files)) in *.
  rewrite queryMetadata_page by (unfold max_int64; lia).
  unfold sortedMatching. rewrite matching_zero.
  change (Z.to_nat ((1 - 1) * 20)) with 0%nat. rewrite drop_0.
  rewrite take_ge by (rewrite sort_Slice_length; simpl; lia).
  cbn [respondWithJSON].
  now rewrite (forallb_perm _ _ _ (sort_Slice_perm timestampLess records)).
Qed.

(** The theorem at work on the mixed sample, with a calendar that lets
    every instant marshal. *)
Lemma request_without_parameters_witness :
  exists items,
    ListMetadataRequest (fun _ => None) (fun t => t) (fun _ => true)
      mixedBucket ∅
    = RespItems items 3.
Proof.
  eexists.
  rewrite (request_without_parameters (fun _ => None) (fun t => t)
             (fun _ => true) mixedBucket
             [ listedObject "a/snapshot-9-x.json" 40 0 "";
               listedObject "b/snapshot-5-x.json" 40 0 "";
               listedObject "c/snapshot-1-x.json" 40 0 "" ] eq_refl);
    [|vm_compute; lia].
  reflexivity.
Defined.
